(** * Scoring and game completion of the Diplomacy tournament visualiser

    A shallow embedding of [visualiser/tournament/models.py]: the game
    scoring systems, the tie-break allocator [adjust_rank_score], the
    centre-count ledger validation and the [Game.save] cascade.

    Conventions of the embedding.
    - Python floats are idealised as exact rationals ([Qc], the canonical
      rationals, so that equality is Leibniz equality): a score is the value
      of the expression the code evaluates, taken without its rounding.
      Rounding is modelled in [Binary64] only, where the tie-break
      allocator is evaluated on binary64 floats.
    - A Django model instance is a record holding the fields the scoring
      code reads; a foreign key is the primary key of the row it points to.
      A table is the list of its rows in the order the default query set
      yields them, and [filter] keeps that order.  Dictionaries keyed by a
      model instance are keyed by its primary key ([gmap]).
    - A raised exception is an [Err] result; the exceptions carry no
      message.  Code that writes (to the database or to a Python object
      that outlives the call) is in the monad [M].  Every statement is
      committed on its own, as under Django's autocommit: what was written
      before an exception stays written, except inside [atomic], where the
      database is rolled back. *)

From Stdlib Require Import QArith Qcanon.
From stdpp Require Import gmap list fin_maps strings sorting.
From Equations Require Import Equations.

Local Open Scope Z_scope.

(** ** Exceptions and the two monads *)

Inductive exn : Set :=
| ValidationError
| InvalidScoringSystem
| AttributeError
| IndexError
| KeyError
| ValueError
| ZeroDivisionError
| DoesNotExist
| MultipleObjectsReturned
| IntegrityError
| RecursionLimit.

Global Instance exn_eq_dec : EqDecision exn.
Proof. solve_decision. Defined.

Inductive result (A : Type) : Type :=
| Ok (a : A)
| Err (e : exn).
Arguments Ok {A} a.
Arguments Err {A} e.

Global Instance result_eq_dec {A} `{EqDecision A} : EqDecision (result A).
Proof. solve_decision. Defined.

Global Instance result_bind : MBind result := λ A B k m,
  match m with
  | Ok a => k a
  | Err e => Err e
  end.
Global Instance result_ret : MRet result := λ A a, Ok a.

(** A [for] loop whose body may raise, threading the loop's variables. *)
Fixpoint for_each {A T} (l : list A) (body : A → T → result T) (s : T) : result T :=
  match l with
  | [] => Ok s
  | x :: l' => s' ← body x s; for_each l' body s'
  end.

(** ** Constants *)

Definition FIRST_YEAR : Z := 1901.
Definition TOTAL_SCS : Z := 34.
(** [(TOTAL_SCS/2)+1], with the integer division of Python 2. *)
Definition WINNING_SCS : Z := TOTAL_SCS `div` 2 + 1.

Definition SPRING : string := "S".
Definition FALL : string := "F".
Definition MOVEMENT : string := "M".
Definition S1901M_IMAGE : string := "s1901m.gif".

(** ** Numbers *)

(** An [int] used where a float is expected. *)
Definition of_int (z : Z) : Qc := Qc_of_Z z.

(** Python's division of a float by a number. *)
Definition py_div (x y : Qc) : result Qc :=
  if decide (y = 0%Qc) then Err ZeroDivisionError else Ok (x / y)%Qc.

(** Python's [sum] over a list of floats. *)
Definition sum_points (l : list Qc) : Qc := foldr Qcplus 0%Qc l.

(** Truth value of an integer, and of a nullable integer ([None] is false). *)
Definition truthy (z : Z) : bool := bool_decide (z ≠ 0).
Definition truthy_opt (o : option Z) : bool :=
  match o with Some z => truthy z | None => false end.

(** ** Rows *)

(** Primary keys. *)
Abbreviation pk := nat (only parsing).

Record GreatPower := {
  gp_id : pk;
  starting_centres : Z
}.

Record Tournament := {
  t_id : pk;
  tournament_scoring_system : string;
  round_scoring_system : string
}.

Record Round := {
  r_id : pk;
  r_tournament : pk;
  scoring_system : string;
  dias : bool;
  r_final_year : option Z
}.

Record Game := {
  g_id : pk;
  is_finished : bool;
  the_round : pk
}.

Record DrawProposal := {
  dp_game : pk;
  dp_year : Z;
  dp_season : string;
  passed : bool;
  proposer : pk;
  power_1 : pk;
  power_2 : option pk;
  power_3 : option pk;
  power_4 : option pk;
  power_5 : option pk;
  power_6 : option pk;
  power_7 : option pk
}.

Record GamePlayer := {
  gpl_id : pk;
  gpl_player : pk;
  gpl_game : pk;
  gpl_power : pk;
  gpl_score : Qc
}.

Record RoundPlayer := {
  rp_id : pk;
  rp_player : pk;
  rp_the_round : pk;
  rp_score : Qc
}.

Record TournamentPlayer := {
  tp_id : pk;
  tp_player : pk;
  tp_tournament : pk;
  tp_score : Qc
}.

Record GameImage := {
  gi_game : pk;
  gi_year : Z;
  gi_season : string;
  gi_phase : string;
  gi_image : string
}.

Record CentreCount := {
  cc_power : pk;
  cc_game : pk;
  cc_year : Z;
  cc_count : Z
}.

Global Instance GreatPower_eq_dec : EqDecision GreatPower.
Proof. solve_decision. Defined.
Global Instance Game_eq_dec : EqDecision Game.
Proof. solve_decision. Defined.
Global Instance CentreCount_eq_dec : EqDecision CentreCount.
Proof. solve_decision. Defined.
Global Instance GamePlayer_eq_dec : EqDecision GamePlayer.
Proof. solve_decision. Defined.
Global Instance RoundPlayer_eq_dec : EqDecision RoundPlayer.
Proof. solve_decision. Defined.
Global Instance TournamentPlayer_eq_dec : EqDecision TournamentPlayer.
Proof. solve_decision. Defined.
Global Instance GameImage_eq_dec : EqDecision GameImage.
Proof. solve_decision. Defined.

(** ** Query sets *)

(** [qs.get()]. *)
Definition qs_get {A} (qs : list A) : result A :=
  match qs with
  | [] => Err DoesNotExist
  | [x] => Ok x
  | _ :: _ :: _ => Err MultipleObjectsReturned
  end.

(** [qs[0]]. *)
Definition qs_index0 {A} (qs : list A) : result A :=
  match qs with
  | [] => Err IndexError
  | x :: _ => Ok x
  end.

(** [order_by('-key')]: largest key first.  The database does not say in
    which order it yields rows with equal keys; here they keep the order
    they had. *)
Fixpoint insert_desc {A} (key : A → Z) (x : A) (l : list A) : list A :=
  match l with
  | [] => [x]
  | y :: l' => if decide (key y ≤ key x) then x :: l else y :: insert_desc key x l'
  end.

Definition order_by_desc {A} (key : A → Z) (qs : list A) : list A :=
  foldr (insert_desc key) [] qs.

(** ** The tie-break allocator *)

(** The [while] loop of [adjust_rank_score]: [rest] is what is left of
    [centre_counts] from index [i] on. *)
Fixpoint top_tie_loop (scs : Z) (rest : list CentreCount) (rank_points : list Qc)
    (i count : nat) (points : Qc) : nat * nat * Qc :=
  match rest with
  | [] => (i, count, points)
  | sc :: rest' =>
      if decide (cc_count sc = scs) then
        top_tie_loop scs rest' rank_points (S i) (S count)
          (match rank_points !! i with
           | Some p => (points + p)%Qc
           | None => points
           end)
      else (i, count, points)
  end.

(** The [for j in range(0,i)] loop, which writes into (and may extend) the
    caller's list. *)
Fixpoint share_loop (js : list nat) (points : Qc) (count : nat)
    (rank_points : list Qc) : result (list Qc) :=
  match js with
  | [] => Ok rank_points
  | j :: js' =>
      v ← py_div points (of_int (Z.of_nat count));
      share_loop js' points count
        (if decide (j < length rank_points)%nat
         then <[j:=v]> rank_points
         else rank_points ++ [v])
  end.

Lemma top_tie_loop_bounds scs rest rank_points i count points :
  let '(i', _, _) := top_tie_loop scs rest rank_points i count points in
  (i ≤ i' ≤ i + length rest)%nat.
Proof.
  revert i count points.
  induction rest as [|sc rest IH]; intros i count points; simpl; [lia|].
  case_decide; [|lia].
  specialize (IH (S i) (S count)
    (match rank_points !! i with Some p => (points + p)%Qc | None => points end)).
  destruct (top_tie_loop _ _ _ _ _ _) as [[i' c'] p']. lia.
Qed.

Lemma top_tie_loop_head sc ccs rank_points :
  let '(i', _, _) := top_tie_loop (cc_count sc) (sc :: ccs) rank_points 0 0 0%Qc in
  (1 ≤ i' ≤ S (length ccs))%nat.
Proof.
  simpl. rewrite decide_True by done.
  pose proof (top_tie_loop_bounds (cc_count sc) ccs rank_points 1 1
    (match rank_points !! 0%nat with Some p => (0 + p)%Qc | None => 0%Qc end)) as H.
  destruct (top_tie_loop _ _ _ _ _ _) as [[i' c'] p']. lia.
Qed.

Definition inspect {A} (a : A) : {b | a = b} := exist _ a eq_refl.

(** [adjust_rank_score centre_counts rank_points] assigns to and appends to
    the list object it is given as [rank_points].  The first component of
    the result is that list object when the call is over (also when the call
    raises), the second what the call returns.  The recursive call works on
    the slice [rank_points[i:]], which is a copy: what it writes is lost. *)
Equations? adjust_rank_score (centre_counts : list CentreCount)
    (rank_points : list Qc) : list Qc * result (list Qc)
    by wf (length centre_counts) lt :=
  adjust_rank_score centre_counts [] :=
    ([], Ok ([] ++ replicate (length centre_counts) 0%Qc));
  adjust_rank_score [] (p :: ps) := (p :: ps, Err IndexError);
  adjust_rank_score (sc :: ccs) (p :: ps)
    with inspect (top_tie_loop (cc_count sc) (sc :: ccs) (p :: ps) 0 0 0%Qc) := {
    | exist _ (i, count, points) Hloop
        with share_loop (seq 0 i) points count (p :: ps) := {
        | Err e := (p :: ps, Err e)
        | Ok rank_points' :=
            (rank_points',
             rest ← (adjust_rank_score (drop i (sc :: ccs)) (drop i rank_points')).2;
             Ok (take i rank_points' ++ rest)) } }.
Proof.
  pose proof (top_tie_loop_head sc ccs (p :: ps)) as H.
  change (top_tie_loop (cc_count sc) (sc :: ccs) (p :: ps) 0 0 0%Qc = (i, count, points)) in Hloop.
  rewrite Hloop in H. rewrite length_drop. simpl. lia.
Qed.

(** ** Scoring system objects *)

(** A [GScoringCDiplo] instance.  [position_pts] is a Python list, which
    [adjust_rank_score] writes to. *)
Record CDiplo := {
  cd_name : string;
  soloer_pts : Qc;
  played_pts : Qc;
  position_pts : list Qc;
  loss_pts : Qc
}.

Inductive GameScoringSystem :=
| GScoringSolos
| GScoringDrawSize
| GScoringCDiplo (self : CDiplo)
| GScoringSumOfSquares.

Global Instance CDiplo_eq_dec : EqDecision CDiplo.
Proof. solve_decision. Defined.
Global Instance GameScoringSystem_eq_dec : EqDecision GameScoringSystem.
Proof. solve_decision. Defined.

Definition gss_name (s : GameScoringSystem) : string :=
  match s with
  | GScoringSolos => "Solo or bust"
  | GScoringDrawSize => "Draw size"
  | GScoringCDiplo self => cd_name self
  | GScoringSumOfSquares => "Sum of Squares"
  end.

(** [GScoringCDiplo.__init__], with [loss_pts] at its default. *)
Definition new_GScoringCDiplo (name : string)
    (soloer_pts played_pts first_pts second_pts third_pts : Qc) : GameScoringSystem :=
  GScoringCDiplo {|
    cd_name := name;
    soloer_pts := soloer_pts;
    played_pts := played_pts;
    position_pts := [first_pts; second_pts; third_pts];
    loss_pts := 0%Qc
  |}.

(** The module-level list [G_SCORING_SYSTEMS] as it is when the module has
    just been loaded. *)
Definition G_SCORING_SYSTEMS_loaded : list GameScoringSystem := [
  GScoringSolos;
  GScoringDrawSize;
  new_GScoringCDiplo "CDiplo 100" (of_int 100) (of_int 1) (of_int 38) (of_int 14) (of_int 7);
  new_GScoringCDiplo "CDiplo 80" (of_int 80) (of_int 0) (of_int 25) (of_int 14) (of_int 7);
  GScoringSumOfSquares
].

Inductive RoundScoringSystem := RScoringBest.

Definition rss_name (s : RoundScoringSystem) : string :=
  match s with RScoringBest => "Best game counts" end.

Definition R_SCORING_SYSTEMS : list RoundScoringSystem := [RScoringBest].

Record TScoringSum := {
  ts_name : string;
  scored_rounds : nat
}.

Definition T_SCORING_SYSTEMS : list TScoringSum := [
  {| ts_name := "Sum best 2 rounds"; scored_rounds := 2 |};
  {| ts_name := "Sum best 3 rounds"; scored_rounds := 3 |};
  {| ts_name := "Sum best 4 rounds"; scored_rounds := 4 |}
].

(** [find_scoring_system]: the first system of that name (no system in the
    lists is abstract), with its place in the list. *)
Fixpoint find_scoring_system_from {T} (name_of : T → string) (name : string)
    (k : nat) (the_list : list T) : option (nat * T) :=
  match the_list with
  | [] => None
  | s :: rest =>
      if decide (name_of s = name) then Some (k, s)
      else find_scoring_system_from name_of name (S k) rest
  end.

Definition find_scoring_system {T} (name_of : T → string) (name : string)
    (the_list : list T) : option (nat * T) :=
  find_scoring_system_from name_of name 0 the_list.

(** ** The world: the database and the scoring system objects *)

Record World := {
  great_powers : list GreatPower;
  tournaments : list Tournament;
  rounds : list Round;
  games : list Game;
  centre_counts : list CentreCount;
  draw_proposals : list DrawProposal;
  game_players : list GamePlayer;
  round_players : list RoundPlayer;
  tournament_players : list TournamentPlayer;
  game_images : list GameImage;
  G_SCORING_SYSTEMS : list GameScoringSystem
}.

Definition set_games (f : list Game → list Game) (w : World) : World :=
  {| great_powers := great_powers w; tournaments := tournaments w;
     rounds := rounds w; games := f (games w);
     centre_counts := centre_counts w; draw_proposals := draw_proposals w;
     game_players := game_players w; round_players := round_players w;
     tournament_players := tournament_players w; game_images := game_images w;
     G_SCORING_SYSTEMS := G_SCORING_SYSTEMS w |}.

Definition set_centre_counts (f : list CentreCount → list CentreCount) (w : World) : World :=
  {| great_powers := great_powers w; tournaments := tournaments w;
     rounds := rounds w; games := games w;
     centre_counts := f (centre_counts w); draw_proposals := draw_proposals w;
     game_players := game_players w; round_players := round_players w;
     tournament_players := tournament_players w; game_images := game_images w;
     G_SCORING_SYSTEMS := G_SCORING_SYSTEMS w |}.

Definition set_game_players (f : list GamePlayer → list GamePlayer) (w : World) : World :=
  {| great_powers := great_powers w; tournaments := tournaments w;
     rounds := rounds w; games := games w;
     centre_counts := centre_counts w; draw_proposals := draw_proposals w;
     game_players := f (game_players w); round_players := round_players w;
     tournament_players := tournament_players w; game_images := game_images w;
     G_SCORING_SYSTEMS := G_SCORING_SYSTEMS w |}.

Definition set_round_players (f : list RoundPlayer → list RoundPlayer) (w : World) : World :=
  {| great_powers := great_powers w; tournaments := tournaments w;
     rounds := rounds w; games := games w;
     centre_counts := centre_counts w; draw_proposals := draw_proposals w;
     game_players := game_players w; round_players := f (round_players w);
     tournament_players := tournament_players w; game_images := game_images w;
     G_SCORING_SYSTEMS := G_SCORING_SYSTEMS w |}.

Definition set_tournament_players
    (f : list TournamentPlayer → list TournamentPlayer) (w : World) : World :=
  {| great_powers := great_powers w; tournaments := tournaments w;
     rounds := rounds w; games := games w;
     centre_counts := centre_counts w; draw_proposals := draw_proposals w;
     game_players := game_players w; round_players := round_players w;
     tournament_players := f (tournament_players w); game_images := game_images w;
     G_SCORING_SYSTEMS := G_SCORING_SYSTEMS w |}.

Definition set_game_images (f : list GameImage → list GameImage) (w : World) : World :=
  {| great_powers := great_powers w; tournaments := tournaments w;
     rounds := rounds w; games := games w;
     centre_counts := centre_counts w; draw_proposals := draw_proposals w;
     game_players := game_players w; round_players := round_players w;
     tournament_players := tournament_players w; game_images := f (game_images w);
     G_SCORING_SYSTEMS := G_SCORING_SYSTEMS w |}.

Definition set_G_SCORING_SYSTEMS
    (f : list GameScoringSystem → list GameScoringSystem) (w : World) : World :=
  {| great_powers := great_powers w; tournaments := tournaments w;
     rounds := rounds w; games := games w;
     centre_counts := centre_counts w; draw_proposals := draw_proposals w;
     game_players := game_players w; round_players := round_players w;
     tournament_players := tournament_players w; game_images := game_images w;
     G_SCORING_SYSTEMS := f (G_SCORING_SYSTEMS w) |}.

(** Code that writes.  What was written before an exception stays. *)
Definition M (A : Type) : Type := World → World * result A.

Global Instance M_ret : MRet M := λ A a w, (w, Ok a).
Global Instance M_bind : MBind M := λ A B k m w,
  match m w with
  | (w', Ok a) => k a w'
  | (w', Err e) => (w', Err e)
  end.

(** Code that only reads. *)
Definition query {A} (q : World → result A) : M A := λ w, (w, q w).
Definition raise {A} (e : exn) : M A := λ w, (w, Err e).
Definition modify (f : World → World) : M () := λ w, (f w, Ok ()).

Fixpoint for_each_M {A} (l : list A) (body : A → M ()) : M () :=
  match l with
  | [] => mret ()
  | x :: l' => _ ← body x; for_each_M l' body
  end.

(** ** Related rows *)

Definition get_game (g : pk) (w : World) : result Game :=
  qs_get (filter (λ x, g_id x = g) (games w)).
Definition get_round (r : pk) (w : World) : result Round :=
  qs_get (filter (λ x, r_id x = r) (rounds w)).
Definition get_tournament (t : pk) (w : World) : result Tournament :=
  qs_get (filter (λ x, t_id x = t) (tournaments w)).
Definition get_great_power (p : pk) (w : World) : result GreatPower :=
  qs_get (filter (λ x, gp_id x = p) (great_powers w)).

Definition centrecount_set (g : pk) (w : World) : list CentreCount :=
  filter (λ sc, cc_game sc = g) (centre_counts w).
Definition gameplayer_set (g : pk) (w : World) : list GamePlayer :=
  filter (λ p, gpl_game p = g) (game_players w).
Definition drawproposal_set (g : pk) (w : World) : list DrawProposal :=
  filter (λ d, dp_game d = g) (draw_proposals w).
Definition game_set (r : pk) (w : World) : list Game :=
  filter (λ g, the_round g = r) (games w).
Definition round_set (t : pk) (w : World) : list Round :=
  filter (λ r, r_tournament r = t) (rounds w).
Definition roundplayer_set (r : pk) (w : World) : list RoundPlayer :=
  filter (λ p, rp_the_round p = r) (round_players w).
Definition tournamentplayer_set (t : pk) (w : World) : list TournamentPlayer :=
  filter (λ p, tp_tournament p = t) (tournament_players w).

(** ** [Game]: what the scoring systems ask the game *)

(** [Game.is_dias]. *)
Definition Game_is_dias (self : Game) (w : World) : result bool :=
  r ← get_round (the_round self) w;
  Ok (dias r).

(** [Game.years_played]: [sorted(list(set(...)))]. *)
Definition Game_years_played (self : Game) (w : World) : list Z :=
  merge_sort Z.le (remove_dups (cc_year <$> centrecount_set (g_id self) w)).

(** [Game.final_year]: [years_played()[-1]]. *)
Definition Game_final_year (self : Game) (w : World) : result Z :=
  match last (Game_years_played self w) with
  | Some y => Ok y
  | None => Err IndexError
  end.

(** [Game.passed_draw]. *)
Definition Game_passed_draw (self : Game) (w : World) : result (option DrawProposal) :=
  match qs_get (filter (λ d, passed d = true) (drawproposal_set (g_id self) w)) with
  | Ok d => Ok (Some d)
  | Err DoesNotExist => Ok None
  | Err e => Err e
  end.

(** [Game.soloer]. *)
Definition Game_soloer (self : Game) (w : World) : result (option GamePlayer) :=
  let scs := order_by_desc cc_count (centrecount_set (g_id self) w) in
  top ← qs_index0 scs;
  if decide (WINNING_SCS ≤ cc_count top) then
    gp ← qs_get (filter (λ p, gpl_power p = cc_power top) (gameplayer_set (g_id self) w));
    Ok (Some gp)
  else Ok None.

(** The values of the entries of [__dict__] whose name starts with
    [power_], which are the seven foreign keys. *)
Definition DrawProposal_power_values (self : DrawProposal) : list (option pk) :=
  [Some (power_1 self); power_2 self; power_3 self; power_4 self;
   power_5 self; power_6 self; power_7 self].

(** [DrawProposal.powers].  A value is skipped when it is false, as [None]
    and [0] are. *)
Fixpoint DrawProposal_powers_loop (values : list (option pk)) (w : World)
    : result (list GreatPower) :=
  match values with
  | [] => Ok []
  | value :: values' =>
      match value with
      | Some (S n) =>
          p ← get_great_power (S n) w;
          retval ← DrawProposal_powers_loop values' w;
          Ok (p :: retval)
      | _ => DrawProposal_powers_loop values' w
      end
  end.

Definition DrawProposal_powers (self : DrawProposal) (w : World) : result (list GreatPower) :=
  DrawProposal_powers_loop (DrawProposal_power_values self) w.

(** [DrawProposal.draw_size]. *)
Definition DrawProposal_draw_size (self : DrawProposal) (w : World) : result nat :=
  ps ← DrawProposal_powers self w;
  Ok (length ps).

(** ** [GameScoringSystem] *)

(** [_the_game]: [centre_counts.first().game]. *)
Definition _the_game (centre_counts : list CentreCount) (w : World) : result Game :=
  match head centre_counts with
  | None => Err AttributeError
  | Some sc => get_game (cc_game sc) w
  end.

(** [_final_year]. *)
Definition _final_year (centre_counts : list CentreCount) : result Z :=
  sc ← qs_index0 (order_by_desc cc_year centre_counts);
  Ok (cc_year sc).

(** [_final_year_scs]. *)
Definition _final_year_scs (centre_counts : list CentreCount) : result (list CentreCount) :=
  y ← _final_year centre_counts;
  Ok (order_by_desc cc_count (filter (λ sc, cc_year sc = y) centre_counts)).

(** [_survivor_count]. *)
Definition _survivor_count (centre_counts : list CentreCount) : result nat :=
  scs ← _final_year_scs centre_counts;
  Ok (length (filter (λ sc, 0 < cc_count sc) scs)).

(** Scores are dictionaries from power to score. *)
Abbreviation scores_dict := (gmap nat Qc).

(** [sum(scores.values())]. *)
Definition dict_sum (scores : scores_dict) : Qc :=
  sum_points (snd <$> map_to_list scores).

(** [GScoringSolos.scores]. *)
Definition GScoringSolos_scores (centre_counts : list CentreCount) : result scores_dict :=
  final_scs ← _final_year_scs centre_counts;
  for_each final_scs (λ sc (retval : scores_dict),
    let retval := <[cc_power sc := 0%Qc]> retval in
    if decide (WINNING_SCS ≤ cc_count sc)
    then Ok (<[cc_power sc := of_int 100]> retval)
    else Ok retval) ∅.

(** The body of the loop of [GScoringDrawSize.scores]. *)
Definition GScoringDrawSize_body (w : World) (draw : option DrawProposal)
    (survivors : nat) (soloed : bool) (sc : CentreCount) (retval : scores_dict)
    : result scores_dict :=
  let retval := <[cc_power sc := 0%Qc]> retval in
  if decide (WINNING_SCS ≤ cc_count sc) then
    Ok (<[cc_power sc := of_int 100]> retval)
  else if soloed then
    Ok retval
  else
    in_draw ← match draw return result bool with
              | None => Ok false
              | Some d =>
                  ps ← DrawProposal_powers d w;
                  Ok (bool_decide (cc_power sc ∈ gp_id <$> (ps : list GreatPower)))
              end;
    if in_draw : bool then
      match draw with
      | None => Ok retval
      | Some d =>
          size ← DrawProposal_draw_size d w;
          v ← py_div (of_int 100) (of_int (Z.of_nat size));
          Ok (<[cc_power sc := v]> retval)
      end
    else if decide (0 < cc_count sc) then
      v ← py_div (of_int 100) (of_int (Z.of_nat survivors));
      Ok (<[cc_power sc := v]> retval)
    else Ok retval.

(** [GScoringDrawSize.scores]. *)
Definition GScoringDrawSize_scores (centre_counts : list CentreCount) (w : World)
    : result scores_dict :=
  the_game ← _the_game centre_counts w;
  is_dias ← Game_is_dias the_game w;
  draw ← Game_passed_draw the_game w;
  survivors ← _survivor_count centre_counts;
  soloer ← Game_soloer the_game w;
  let soloed := match soloer with Some _ => true | None => false end in
  final_scs ← _final_year_scs centre_counts;
  for_each final_scs (GScoringDrawSize_body w draw survivors soloed) ∅.

(** The body of the loop of [GScoringCDiplo.scores]; the loop's variables
    are [retval] and [i]. *)
Definition GScoringCDiplo_body (self : CDiplo) (final_scs : list CentreCount)
    (rank_pts : list Qc) (sc : CentreCount) (st : scores_dict * nat)
    : result (scores_dict * nat) :=
  let '(retval, i) := st in
  top ← qs_index0 final_scs;
  if decide (WINNING_SCS ≤ cc_count top) then
    let retval := <[cc_power sc := loss_pts self]> retval in
    if decide (WINNING_SCS ≤ cc_count sc)
    then Ok (<[cc_power sc := soloer_pts self]> retval, S i)
    else Ok (retval, S i)
  else
    match rank_pts !! i with
    | None => Err IndexError
    | Some pts =>
        Ok (<[cc_power sc := (played_pts self + of_int (cc_count sc) + pts)%Qc]> retval, S i)
    end.

(** [GScoringCDiplo.scores] from [final_scs] on: the instance after the
    call, and what the call returns. *)
Definition GScoringCDiplo_scores_of (self : CDiplo) (final_scs : list CentreCount)
    : CDiplo * result scores_dict :=
  let '(position_pts', r) := adjust_rank_score final_scs (position_pts self) in
  ({| cd_name := cd_name self; soloer_pts := soloer_pts self;
      played_pts := played_pts self; position_pts := position_pts';
      loss_pts := loss_pts self |},
   rank_pts ← r;
   st ← for_each final_scs (GScoringCDiplo_body self final_scs rank_pts) (∅, 0%nat);
   Ok st.1).

(** [GScoringCDiplo.scores]. *)
Definition GScoringCDiplo_scores (self : CDiplo) (centre_counts : list CentreCount)
    : CDiplo * result scores_dict :=
  match _final_year_scs centre_counts with
  | Err e => (self, Err e)
  | Ok final_scs => GScoringCDiplo_scores_of self final_scs
  end.

(** The first loop of [GScoringSumOfSquares.scores]; its variables are
    [retval], [retval_solo], [solo_found] and [sum_of_squares]. *)
Definition GScoringSumOfSquares_body (sc : CentreCount)
    (st : scores_dict * scores_dict * bool * Z) : scores_dict * scores_dict * bool * Z :=
  let '(retval, retval_solo, solo_found, sum_of_squares) := st in
  let retval_solo := <[cc_power sc := 0%Qc]> retval_solo in
  let retval := <[cc_power sc := (of_int (cc_count sc * cc_count sc) * of_int 100)%Qc]> retval in
  let sum_of_squares := sum_of_squares + cc_count sc * cc_count sc in
  if decide (WINNING_SCS ≤ cc_count sc)
  then (retval, <[cc_power sc := of_int 100]> retval_solo, true, sum_of_squares)
  else (retval, retval_solo, solo_found, sum_of_squares).

(** [GScoringSumOfSquares.scores]. *)
Definition GScoringSumOfSquares_scores (centre_counts : list CentreCount)
    : result scores_dict :=
  final_scs ← _final_year_scs centre_counts;
  let '(retval, retval_solo, solo_found, sum_of_squares) :=
    foldl (λ st sc, GScoringSumOfSquares_body sc st) (∅, ∅, false, 0) final_scs in
  if solo_found : bool then Ok retval_solo
  else
    for_each final_scs (λ sc (retval : scores_dict),
      match retval !! cc_power sc with
      | None => Err KeyError
      | Some x =>
          v ← py_div x (of_int sum_of_squares);
          Ok (<[cc_power sc := v]> retval)
      end) retval.

(** ** [Game.scores] *)

(** [system.scores(centre_counts)] for the system found at place [k] of
    [G_SCORING_SYSTEMS]; a [GScoringCDiplo] instance is left as its own
    [scores] leaves it. *)
Definition GameScoringSystem_scores (k : nat) (system : GameScoringSystem)
    (centre_counts : list CentreCount) : M scores_dict :=
  match system with
  | GScoringSolos => query (λ _, GScoringSolos_scores centre_counts)
  | GScoringDrawSize => query (GScoringDrawSize_scores centre_counts)
  | GScoringCDiplo self => λ w,
      let '(self', r) := GScoringCDiplo_scores self centre_counts in
      (set_G_SCORING_SYSTEMS (λ l, <[k := GScoringCDiplo self']> l) w, r)
  | GScoringSumOfSquares => query (λ _, GScoringSumOfSquares_scores centre_counts)
  end.

(** The scores stored with the players of a game. *)
Definition Game_stored_scores (self : Game) (w : World) : scores_dict :=
  foldl (λ retval p, <[gpl_power p := gpl_score p]> retval) ∅
    (gameplayer_set (g_id self) w).

(** [Game.scores]. *)
Definition Game_scores (self : Game) (force_recalculation : bool) : M scores_dict :=
  if is_finished self && negb force_recalculation then
    query (λ w, Ok (Game_stored_scores self w))
  else
    r ← query (get_round (the_round self));
    w ← query Ok;
    match find_scoring_system gss_name (scoring_system r) (G_SCORING_SYSTEMS w) with
    | None => raise InvalidScoringSystem
    | Some (k, system) =>
        GameScoringSystem_scores k system (centrecount_set (g_id self) w)
    end.

(** ** [RScoringBest] and [Round] *)

(** Python's [max] of a non-empty sequence. *)
Definition py_max (l : list Qc) : result Qc :=
  match l with
  | [] => Err ValueError
  | x :: l' => Ok (foldl (λ m y, if decide (m < y)%Qc then y else m) x l')
  end.

(** [d[k]] for a dictionary. *)
Definition dict_get {K} `{Countable K} {V} (d : gmap K V) (k : K) : result V :=
  match d !! k with
  | Some v => Ok v
  | None => Err KeyError
  end.

(** A list comprehension whose element expression may raise. *)
Fixpoint map_result {A B} (f : A → result B) (l : list A) : result (list B) :=
  match l with
  | [] => Ok []
  | x :: l' => y ← f x; ys ← map_result f l'; Ok (y :: ys)
  end.

(** The first loop of [RScoringBest.scores] and of [TScoringSum.scores]:
    the scores of every game (round) met, keyed by game (round). *)
Fixpoint collect_scores {A} (key : A → nat) (scores : A → M scores_dict)
    (l : list A) (acc : gmap nat scores_dict) : M (gmap nat scores_dict) :=
  match l with
  | [] => mret acc
  | x :: l' =>
      s ← scores x;
      collect_scores key scores l' (<[key x := s]> acc)
  end.

(** [Game.objects.filter(gameplayer__in=game_players)]: the join yields a
    game once for each of its players. *)
Definition games_of (game_players : list GamePlayer) (w : World) : list Game :=
  g ← games w; p ← filter (λ p, gpl_game p = g_id g) game_players; [g].

(** The second loop of [RScoringBest.scores]. *)
Definition RScoringBest_body (game_players : list GamePlayer)
    (game_scores : gmap nat scores_dict) (p : pk) (retval : scores_dict)
    : result scores_dict :=
  if decide (is_Some (retval !! p)) then Ok retval
  else
    let player_games := filter (λ g, gpl_player g = p) game_players in
    vs ← map_result (λ g : GamePlayer,
            s ← dict_get game_scores (gpl_game g);
            dict_get s (gpl_power g)) player_games;
    v ← py_max vs;
    Ok (<[p := v]> retval).

(** [RScoringBest.scores]. *)
Definition RScoringBest_scores (game_players : list GamePlayer) : M scores_dict :=
  w ← query Ok;
  game_scores ← collect_scores g_id (λ g, Game_scores g false)
                  (games_of game_players w) ∅;
  query (λ _, for_each (gpl_player <$> game_players)
                (RScoringBest_body game_players game_scores) ∅).

(** [Round.is_finished]. *)
Definition Round_is_finished (self : Round) (w : World) : bool :=
  let gs := game_set (r_id self) w in
  if decide (length gs = 0%nat) then false
  else forallb is_finished gs.

(** [GamePlayer.objects.filter(game__the_round=self)]. *)
Definition game_players_of_round (r : pk) (w : World) : list GamePlayer :=
  filter (λ p, gpl_game p ∈ g_id <$> game_set r w) (game_players w).

(** The scores stored with the players of a round. *)
Definition Round_stored_scores (self : Round) (w : World) : scores_dict :=
  foldl (λ retval p, <[rp_player p := rp_score p]> retval) ∅
    (roundplayer_set (r_id self) w).

(** [Round.scores]. *)
Definition Round_scores (self : Round) (force_recalculation : bool) : M scores_dict :=
  w ← query Ok;
  if Round_is_finished self w && negb force_recalculation then
    mret (Round_stored_scores self w)
  else
    t ← query (get_tournament (r_tournament self));
    match find_scoring_system rss_name (round_scoring_system t) R_SCORING_SYSTEMS with
    | None => raise InvalidScoringSystem
    | Some (_, RScoringBest) =>
        RScoringBest_scores (game_players_of_round (r_id self) w)
    end.

(** ** [TScoringSum] and [Tournament] *)

(** [Round.objects.filter(roundplayer__in=round_players)]. *)
Definition rounds_of (round_players : list RoundPlayer) (w : World) : list Round :=
  r ← rounds w; p ← filter (λ p, rp_the_round p = r_id r) round_players; [r].

(** The scores a player has in the rounds, skipping what is not there. *)
Definition TScoringSum_player_scores (round_scores : gmap nat scores_dict)
    (player_rounds : list RoundPlayer) : list Qc :=
  r ← player_rounds;
  match round_scores !! rp_the_round r with
  | Some s => match s !! rp_player r with Some v => [v] | None => [] end
  | None => []
  end.

(** The order of [sort(reverse=True)]. *)
Definition Qc_desc (x y : Qc) : Prop := (y ≤ x)%Qc.
Global Instance Qc_desc_dec : RelDecision Qc_desc := λ x y, decide (y ≤ x)%Qc.

(** The second loop of [TScoringSum.scores]. *)
Definition TScoringSum_body (self : TScoringSum) (round_players : list RoundPlayer)
    (round_scores : gmap nat scores_dict) (p : pk) (retval : scores_dict) : scores_dict :=
  if decide (is_Some (retval !! p)) then retval
  else
    let player_rounds := filter (λ r, rp_player r = p) round_players in
    let player_scores :=
      merge_sort Qc_desc (TScoringSum_player_scores round_scores player_rounds) in
    let score := foldl Qcplus 0%Qc (take (scored_rounds self) player_scores) in
    <[p := score]> retval.

(** [TScoringSum.scores]. *)
Definition TScoringSum_scores (self : TScoringSum) (round_players : list RoundPlayer)
    : M scores_dict :=
  w ← query Ok;
  round_scores ← collect_scores r_id (λ r, Round_scores r false)
                   (rounds_of round_players w) ∅;
  mret (foldl (λ retval p, TScoringSum_body self round_players round_scores p retval) ∅
          (rp_player <$> round_players)).

(** [Tournament.is_finished]. *)
Definition Tournament_is_finished (self : Tournament) (w : World) : bool :=
  forallb (λ r, Round_is_finished r w) (round_set (t_id self) w).

(** [RoundPlayer.objects.filter(the_round__tournament=self)]. *)
Definition round_players_of_tournament (t : pk) (w : World) : list RoundPlayer :=
  filter (λ p, rp_the_round p ∈ r_id <$> round_set t w) (round_players w).

(** The scores stored with the players of a tournament. *)
Definition Tournament_stored_scores (self : Tournament) (w : World) : scores_dict :=
  foldl (λ retval p, <[tp_player p := tp_score p]> retval) ∅
    (tournamentplayer_set (t_id self) w).

(** [Tournament.scores]. *)
Definition Tournament_scores (self : Tournament) (force_recalculation : bool)
    : M scores_dict :=
  w ← query Ok;
  if Tournament_is_finished self w && negb force_recalculation then
    mret (Tournament_stored_scores self w)
  else
    match find_scoring_system ts_name (tournament_scoring_system self) T_SCORING_SYSTEMS with
    | None => raise InvalidScoringSystem
    | Some (_, system) =>
        TScoringSum_scores system (round_players_of_tournament (t_id self) w)
    end.

(** ** Saving rows *)

(** [Model.save] of a row that has a primary key: the row of that key is
    replaced, or the row is added. *)
Definition save_row {A K} `{EqDecision K} (key : A → K) (x : A) (table : list A)
    : list A :=
  if decide (key x ∈ key <$> table)
  then (λ y, if decide (key y = key x) then x else y) <$> table
  else table ++ [x].

(** The key of [unique_together] of [CentreCount], and of [GameImage]. *)
Definition cc_key (sc : CentreCount) : nat * nat * Z :=
  (cc_power sc, cc_game sc, cc_year sc).
Definition gi_key (i : GameImage) : nat * Z * string * string :=
  (gi_game i, gi_year i, gi_season i, gi_phase i).

(** [objects.get_or_create] with the fields of [lookup], on a table whose
    rows are made of the looked-up fields only and whose model has the
    [save] of [Model].  The insert fails on a row that has the same
    [unique_together] key and differs elsewhere. *)
Definition get_or_create {A K} `{EqDecision A, EqDecision K} (key : A → K)
    (lookup : A) (table : list A) : list A * result A :=
  match qs_get (filter (λ x, x = lookup) table) with
  | Ok i => (table, Ok i)
  | Err DoesNotExist =>
      if decide (key lookup ∈ key <$> table)
      then (table, Err IntegrityError)
      else (table ++ [lookup], Ok lookup)
  | Err e => (table, Err e)
  end.

Definition set_is_finished (b : bool) (g : Game) : Game :=
  {| g_id := g_id g; is_finished := b; the_round := the_round g |}.

(** [Model.save] of an instance that has no row yet (it was built in Python
    and has no primary key, or the save is told to [force_insert]): an
    INSERT, which the [unique_together] constraint refuses when the key is
    taken. *)
Definition insert_row {A K} `{EqDecision K} (key : A → K) (x : A) (table : list A)
    : result (list A) :=
  if decide (key x ∈ key <$> table) then Err IntegrityError else Ok (table ++ [x]).

Definition insert_centre_count (self : CentreCount) : M () := λ w,
  match insert_row cc_key self (centre_counts w) with
  | Ok table => (set_centre_counts (λ _, table) w, Ok ())
  | Err e => (w, Err e)
  end.

(** [with transaction.atomic():] when the block raises, what it wrote to the
    database is undone; what it wrote to Python objects (the scoring
    systems) stays. *)
Definition rollback (before after : World) : World :=
  set_G_SCORING_SYSTEMS (λ _, G_SCORING_SYSTEMS after) before.

Definition atomic {A} (m : M A) : M A := λ w,
  match m w with
  | (w', Ok a) => (w', Ok a)
  | (w', Err e) => (rollback w w', Err e)
  end.

(** [CentreCount.save], given what [self.game.save()] does.  [adding] says
    that the instance has no row yet, so that [super().save()] is an INSERT;
    otherwise the instance was loaded from the database and
    [super().save()] is the UPDATE of its row (found here by the
    [unique_together] key, which no code of the module changes on a loaded
    instance), or its INSERT if the row is gone. *)
Definition CentreCount_save (Game_save : Game → M ()) (adding : bool)
    (self : CentreCount) : M () :=
  _ ← (if adding then insert_centre_count self
       else modify (set_centre_counts (save_row cc_key self)));
  g ← query (get_game (cc_game self));
  r ← query (get_round (the_round g));
  let final_year := r_final_year r in
  _ ← (if truthy_opt final_year && bool_decide (final_year = Some (cc_year self))
       then Game_save (set_is_finished true g)
       else mret ());
  if decide (WINNING_SCS ≤ cc_count self)
  then Game_save (set_is_finished true g)
  else mret ().

(** [Game.save] when it is entered from the save of one of the game's own
    year-1900 rows.  It saves the game, meets the row that made it save
    again, and so on till the interpreter's recursion limit. *)
Definition Game_save_reentered (self : Game) : M () :=
  _ ← modify (set_games (save_row g_id self));
  raise RecursionLimit.

Definition set_gpl_score (s : Qc) (p : GamePlayer) : GamePlayer :=
  {| gpl_id := gpl_id p; gpl_player := gpl_player p; gpl_game := gpl_game p;
     gpl_power := gpl_power p; gpl_score := s |}.
Definition set_rp_score (s : Qc) (p : RoundPlayer) : RoundPlayer :=
  {| rp_id := rp_id p; rp_player := rp_player p; rp_the_round := rp_the_round p;
     rp_score := s |}.
Definition set_tp_score (s : Qc) (p : TournamentPlayer) : TournamentPlayer :=
  {| tp_id := tp_id p; tp_player := tp_player p; tp_tournament := tp_tournament p;
     tp_score := s |}.

(** [CentreCount.objects.get_or_create] with all four fields as the lookup.
    A row that is not found is created: the new instance is saved, by
    [CentreCount.save], inside [transaction.atomic]; after an
    [IntegrityError] the lookup is tried once more before the error is
    raised again. *)
Definition CentreCount_get_or_create (Game_save : Game → M ())
    (lookup : CentreCount) : M CentreCount := λ w,
  match qs_get (filter (λ x, x = lookup) (centre_counts w)) with
  | Ok i => (w, Ok i)
  | Err DoesNotExist =>
      match atomic (CentreCount_save Game_save true lookup) w with
      | (w', Ok _) => (w', Ok lookup)
      | (w', Err IntegrityError) =>
          match qs_get (filter (λ x, x = lookup) (centre_counts w')) with
          | Ok i => (w', Ok i)
          | Err DoesNotExist => (w', Err IntegrityError)
          | Err e => (w', Err e)
          end
      | (w', Err e) => (w', Err e)
      end
  | Err e => (w, Err e)
  end.

(** [GameImage.objects.get_or_create]; [GameImage] has the [save] of
    [Model]. *)
Definition GameImage_get_or_create (lookup : GameImage) : M GameImage := λ w,
  let '(table, r) := get_or_create gi_key lookup (game_images w) in
  (set_game_images (λ _, table) w, r).

(** The year-1900 centre count that [Game.save] looks up for a power. *)
Definition start_count (self : Game) (power : GreatPower) : CentreCount := {|
  cc_power := gp_id power; cc_game := g_id self;
  cc_year := FIRST_YEAR - 1; cc_count := starting_centres power
|}.

(** The body of the loop over the great powers. *)
Definition Game_save_1900_body (self : Game) (power : GreatPower) : M () :=
  i ← CentreCount_get_or_create Game_save_reentered (start_count self power);
  CentreCount_save Game_save_reentered false i.

(** The first part of [Game.save]: the game's row and the year-1900 centre
    counts. *)
Definition Game_save_1900 (self : Game) : M () :=
  _ ← modify (set_games (save_row g_id self));
  w ← query Ok;
  for_each_M (great_powers w) (Game_save_1900_body self).

(** The image of spring 1901 that [Game.save] looks up. *)
Definition start_image (self : Game) : GameImage := {|
  gi_game := g_id self; gi_year := FIRST_YEAR; gi_season := SPRING;
  gi_phase := MOVEMENT; gi_image := S1901M_IMAGE
|}.

(** The second part: the image of spring 1901. *)
Definition Game_save_image (self : Game) : M () :=
  i ← GameImage_get_or_create (start_image self);
  modify (set_game_images (save_row gi_key i)).

(** The third part, run when [self.is_finished]: the scores of the game,
    then of the round and of the tournament if they are finished. *)
Definition Game_save_scores (self : Game) : M () :=
  scores ← Game_scores self true;
  w ← query Ok;
  _ ← for_each_M (gameplayer_set (g_id self) w) (λ p,
        s ← query (λ _, dict_get scores (gpl_power p));
        modify (set_game_players (save_row gpl_id (set_gpl_score s p))));
  r ← query (get_round (the_round self));
  w ← query Ok;
  _ ← (if Round_is_finished r w then
         scores ← Round_scores r true;
         w ← query Ok;
         for_each_M (roundplayer_set (r_id r) w) (λ p,
           let p := match scores !! rp_player p with
                    | Some s => set_rp_score s p
                    | None => p
                    end in
           modify (set_round_players (save_row rp_id p)))
       else mret ());
  t ← query (get_tournament (r_tournament r));
  w ← query Ok;
  if Tournament_is_finished t w then
    scores ← Tournament_scores t true;
    w ← query Ok;
    for_each_M (tournamentplayer_set (t_id t) w) (λ p,
      s ← query (λ _, dict_get scores (tp_player p));
      modify (set_tournament_players (save_row tp_id (set_tp_score s p))))
  else mret ().

(** [Game.save]. *)
Definition Game_save (self : Game) : M () :=
  _ ← Game_save_1900 self;
  _ ← Game_save_image self;
  if is_finished self then Game_save_scores self else mret ().

(** The constraints of the database: primary keys and [unique_together]. *)
Definition db_unique (w : World) : Prop :=
  NoDup (gp_id <$> great_powers w) ∧ NoDup (r_id <$> rounds w) ∧
  NoDup (g_id <$> games w) ∧ NoDup (cc_key <$> centre_counts w) ∧
  NoDup (gi_key <$> game_images w) ∧ NoDup (gpl_id <$> game_players w) ∧
  NoDup (rp_id <$> round_players w) ∧ NoDup (tp_id <$> tournament_players w).

(** ** More of [Game] and [Tournament] *)

Global Instance Tournament_eq_dec : EqDecision Tournament.
Proof. solve_decision. Defined.
Global Instance Round_eq_dec : EqDecision Round.
Proof. solve_decision. Defined.
Global Instance DrawProposal_eq_dec : EqDecision DrawProposal.
Proof. solve_decision. Defined.

(** [Game.board_toppers]. *)
Definition Game_board_toppers (self : Game) (w : World) : result (list CentreCount) :=
  let centres_set := order_by_desc cc_year (centrecount_set (g_id self) w) in
  latest ← qs_index0 centres_set;
  let last_year := cc_year latest in
  let current_scs := filter (λ sc, cc_year sc = last_year) centres_set in
  top ← qs_index0 (order_by_desc cc_count current_scs);
  let max_scs := cc_count top in
  Ok (filter (λ sc, cc_count sc = max_scs) (order_by_desc cc_count current_scs)).

(** [Tournament.current_round]: the rounds come in their default order. *)
Fixpoint current_round_loop (rds : list Round) (w : World) : option Round :=
  match rds with
  | [] => None
  | r :: rds' =>
      if negb (Round_is_finished r w) then Some r else current_round_loop rds' w
  end.

Definition Tournament_current_round (self : Tournament) (w : World) : option Round :=
  current_round_loop (round_set (t_id self) w) w.

(** ** [position_str] *)

From stdpp Require Import pretty.

Local Open Scope Z_scope.

(** [position_str]: the string that is handed to [ugettext].  [unicode]
    of an integer is its decimal notation, and [%] with a positive right
    operand yields a result that is not negative. *)
Definition position_str (position : Z) : string :=
  let result := pretty position in
  let pos := position `mod` 100 in
  if decide (pos > 3 ∧ pos < 21) then result +:+ "th"
  else if decide (pos `mod` 10 = 1) then result +:+ "st"
  else if decide (pos `mod` 10 = 2) then result +:+ "nd"
  else if decide (pos `mod` 10 = 3) then result +:+ "rd"
  else result +:+ "th".

(** ** [DrawProposal.clean] and [DrawProposal.save] *)

Definition set_draw_proposals (f : list DrawProposal → list DrawProposal) (w : World)
    : World :=
  {| great_powers := great_powers w; tournaments := tournaments w;
     rounds := rounds w; games := games w;
     centre_counts := centre_counts w; draw_proposals := f (draw_proposals w);
     game_players := game_players w; round_players := round_players w;
     tournament_players := tournament_players w; game_images := game_images w;
     G_SCORING_SYSTEMS := G_SCORING_SYSTEMS w |}.

(** Truth value of the value of a foreign key: [None] and [0] are false. *)
Definition pk_truthy (value : option pk) : bool :=
  match value with
  | Some (S _) => true
  | _ => false
  end.

(** The first loop of [clean], over [power_1_id] to [power_7_id]; its
    variable is [found_null]. *)
Fixpoint no_skipping_loop (values : list (option pk)) (found_null : bool) : result () :=
  match values with
  | [] => Ok ()
  | value :: values' =>
      if negb (pk_truthy value) then no_skipping_loop values' true
      else if found_null then Err ValidationError
      else no_skipping_loop values' found_null
  end.

(** The second loop, over the entries of [__dict__] whose name starts with
    [power_] (taken in the order of the fields); its variable is the set
    [powers], of primary keys. *)
Fixpoint unique_powers_loop (values : list (option pk)) (powers : gset nat) (w : World)
    : result (gset nat) :=
  match values with
  | [] => Ok powers
  | value :: values' =>
      match value with
      | Some (S n) =>
          if decide (S n ∈ powers) then
            power ← get_great_power (S n) w;
            Err ValidationError
          else unique_powers_loop values' ({[S n]} ∪ powers) w
      | _ => unique_powers_loop values' powers w
      end
  end.

(** [sc.power in powers] in the last loop of [clean]: [sc.power] is a
    [GreatPower] and [powers] holds the integers that the second loop took
    from [__dict__].  A model instance is equal to another model instance of
    the same primary key, and to no integer: the test is false whatever
    the power and the set are. *)
Definition instance_in_keys (power : pk) (powers : gset nat) : bool := false.

(** [DrawProposal.clean] of a proposal that is not in the database yet:
    its [pk] is [None], so that [p != self] holds of every row [p]. *)
Definition DrawProposal_clean (self : DrawProposal) (w : World) : result () :=
  _ ← no_skipping_loop (DrawProposal_power_values self) false;
  powers ← unique_powers_loop (DrawProposal_power_values self) ∅ w;
  _ ← (if passed self then
         g ← get_game (dp_game self) w;
         match qs_get (filter (λ d, passed d = true) (drawproposal_set (g_id g) w)) with
         | Ok p => Err ValidationError
         | Err DoesNotExist => Ok ()
         | Err e => Err e
         end
       else Ok ());
  g ← get_game (dp_game self) w;
  dias ← Game_is_dias g w;
  year ← Game_final_year g w;
  let scs := filter (λ sc, cc_year sc = year) (centrecount_set (g_id g) w) in
  for_each scs (λ sc (_ : ()),
    if instance_in_keys (cc_power sc) powers then
      if decide (cc_count sc = 0) then Err ValidationError else Ok ()
    else
      if dias && bool_decide (cc_count sc > 0) then Err ValidationError else Ok ()) ().

(** [DrawProposal.save] of a proposal that is not in the database yet:
    [super().save()] adds the row. *)
Definition DrawProposal_save (self : DrawProposal) : M () :=
  _ ← modify (set_draw_proposals (λ table, table ++ [self]));
  if passed self then
    g ← query (get_game (dp_game self));
    Game_save (set_is_finished true g)
  else mret ().

(** ** Validators and [CentreCount.clean] *)

(** [validate_year]. *)
Definition validate_year (value : Z) : result () :=
  if decide (value < FIRST_YEAR) then Err ValidationError else Ok ().

(** [validate_year_including_start]. *)
Definition validate_year_including_start (value : Z) : result () :=
  if decide (value < FIRST_YEAR - 1) then Err ValidationError else Ok ().

(** [validate_sc_count]. *)
Definition validate_sc_count (value : Z) : result () :=
  if decide (value < 0 ∨ value > TOTAL_SCS) then Err ValidationError else Ok ().

(** [CentreCount.clean]. *)
Definition CentreCount_clean (self : CentreCount) (w : World) : result () :=
  g ← get_game (cc_game self) w;
  r ← get_round (the_round g) w;
  let final_year := r_final_year r in
  _ ← match final_year with
      | Some y =>
          if truthy y && bool_decide (cc_year self > y)
          then Err ValidationError else Ok ()
      | None => Ok ()
      end;
  match qs_get (filter (λ sc, cc_power sc = cc_power self ∧ cc_game sc = cc_game self
                              ∧ cc_year sc = cc_year self - 1) (centre_counts w)) with
  | Ok prev =>
      if decide (cc_count self > 2 * cc_count prev) then Err ValidationError
      else if decide (cc_count prev = 0 ∧ cc_count self > 0) then Err ValidationError
      else Ok ()
  | Err DoesNotExist => Ok ()
  | Err e => Err e
  end.

(** ** The tie-break allocator on floats

    [adjust_rank_score] once more, on the IEEE 754 binary64 numbers that
    Python's floats are, to evaluate what the rationals leave out: the
    rounding of the shares. *)

From Stdlib Require Import PrimFloat.
Local Open Scope Z_scope.

Module Binary64.

(** An [int] used where a float is expected; exact for the numbers of
    records met here. *)
Fixpoint of_nat (n : nat) : float :=
  match n with
  | O => 0%float
  | S n' => (of_nat n' + 1)%float
  end.

(** Python's division of a float by an [int]. *)
Definition py_div (x : float) (n : nat) : result float :=
  if decide (n = 0%nat) then Err ZeroDivisionError else Ok (x / of_nat n)%float.

(** Python's [sum]: from 0, from the left. *)
Definition sum_points (l : list float) : float := foldl PrimFloat.add 0%float l.

(** The [while] loop. *)
Fixpoint top_tie_loop (scs : Z) (rest : list CentreCount) (rank_points : list float)
    (i count : nat) (points : float) : nat * nat * float :=
  match rest with
  | [] => (i, count, points)
  | sc :: rest' =>
      if decide (cc_count sc = scs) then
        top_tie_loop scs rest' rank_points (S i) (S count)
          (match rank_points !! i with
           | Some p => (points + p)%float
           | None => points
           end)
      else (i, count, points)
  end.

(** The [for j in range(0,i)] loop. *)
Fixpoint share_loop (js : list nat) (points : float) (count : nat)
    (rank_points : list float) : result (list float) :=
  match js with
  | [] => Ok rank_points
  | j :: js' =>
      v ← py_div points count;
      share_loop js' points count
        (if decide (j < length rank_points)%nat
         then <[j:=v]> rank_points
         else rank_points ++ [v])
  end.

Lemma tied_at_top_bounds scs rest rank_points i count points :
  let '(i', _, _) := top_tie_loop scs rest rank_points i count points in
  (i ≤ i' ≤ i + length rest)%nat.
Proof.
  revert i count points.
  induction rest as [|sc rest IH]; intros i count points; simpl; [lia|].
  case_decide; [|lia].
  specialize (IH (S i) (S count)
    (match rank_points !! i with Some p => (points + p)%float | None => points end)).
  destruct (top_tie_loop _ _ _ _ _ _) as [[i' c'] p']. lia.
Qed.

(** The first component of the result is the list handed in as it is when
    the call is over, the second what the call returns. *)
Equations? adjust_rank_score (centre_counts : list CentreCount)
    (rank_points : list float) : list float * result (list float)
    by wf (length centre_counts) lt :=
  adjust_rank_score centre_counts [] :=
    ([], Ok ([] ++ replicate (length centre_counts) 0%float));
  adjust_rank_score [] (p :: ps) := (p :: ps, Err IndexError);
  adjust_rank_score (sc :: ccs) (p :: ps)
    with inspect (top_tie_loop (cc_count sc) (sc :: ccs) (p :: ps) 0 0 0%float) := {
    | exist _ (i, count, points) Hloop
        with share_loop (seq 0 i) points count (p :: ps) := {
        | Err e := (p :: ps, Err e)
        | Ok rank_points' :=
            (rank_points',
             rest ← (adjust_rank_score (drop i (sc :: ccs)) (drop i rank_points')).2;
             Ok (take i rank_points' ++ rest)) } }.
Proof.
  pose proof (tied_at_top_bounds (cc_count sc) (sc :: ccs) (p :: ps) 0 0 0%float) as H.
  change (top_tie_loop (cc_count sc) (sc :: ccs) (p :: ps) 0 0 0%float
          = (i, count, points)) in Hloop.
  rewrite Hloop in H.
  assert (1 ≤ i)%nat.
  { simpl in Hloop. rewrite decide_True in Hloop by done.
    pose proof (tied_at_top_bounds (cc_count sc) ccs (p :: ps) 1 1 (0 + p)%float) as H1.
    rewrite Hloop in H1. lia. }
  rewrite length_drop. simpl. lia.
Qed.

End Binary64.

(** ** Facts about the two loops *)

Section loops.
Implicit Types (rank_points : list Qc) (points v : Qc) (i count : nat).

Lemma sum_points_app l1 l2 :
  sum_points (l1 ++ l2) = (sum_points l1 + sum_points l2)%Qc.
Proof.
  induction l1 as [|x l1 IH]; simpl.
  - by rewrite Qcplus_0_l.
  - rewrite IH. ring.
Qed.

Lemma sum_points_replicate n v :
  sum_points (replicate n v) = (of_int (Z.of_nat n) * v)%Qc.
Proof.
  unfold of_int. induction n as [|n IH].
  - change (Z.of_nat 0) with 0. rewrite Z2Qc_inj_0. simpl. ring.
  - rewrite Nat2Z.inj_succ, <-Z.add_1_r, Z2Qc_inj_add, Z2Qc_inj_1.
    simpl. rewrite IH. ring.
Qed.

Lemma of_int_nat_ne_0 n : n ≠ 0%nat → of_int (Z.of_nat n) ≠ 0%Qc.
Proof.
  intros Hn. unfold of_int. rewrite <-Z2Qc_inj_0.
  intros H%Z2Qc_inj. lia.
Qed.

(** The [while] loop counts the records it passes and adds up the rank
    points of the positions it passes. *)
Lemma top_tie_loop_spec scs rest rank_points i count points i' count' points' :
  top_tie_loop scs rest rank_points i count points = (i', count', points') →
  (i ≤ i' ≤ i + length rest)%nat ∧
  count' = (count + (i' - i))%nat ∧
  points' = (points + sum_points (take (i' - i) (drop i rank_points)))%Qc.
Proof.
  revert i count points.
  induction rest as [|sc rest IH]; intros i count points; simpl.
  - intros [= <- <- <-]. rewrite Nat.sub_diag. simpl.
    split; [lia|]. split; [lia|ring].
  - case_decide.
    + intros (Hi & -> & ->)%IH. split; [lia|]. split; [lia|].
      replace (i' - i)%nat with (S (i' - S i)) by lia.
      destruct (rank_points !! i) as [p|] eqn:Hp.
      * rewrite (drop_S _ _ _ Hp). simpl. ring.
      * apply lookup_ge_None in Hp.
        rewrite !drop_ge by lia. rewrite !take_nil. simpl. ring.
    + intros [= <- <- <-]. rewrite Nat.sub_diag. simpl.
      split; [lia|]. split; [lia|ring].
Qed.


(** The [for] loop overwrites positions [a .. a+n-1], appending where the
    list is too short. *)
Lemma share_loop_seq a n points count rank_points :
  count ≠ 0%nat →
  (a ≤ length rank_points)%nat →
  share_loop (seq a n) points count rank_points =
    Ok (take a rank_points
        ++ replicate n (points / of_int (Z.of_nat count))%Qc
        ++ drop (a + n) rank_points).
Proof.
  intros Hc. revert a rank_points.
  induction n as [|n IH]; intros a rank_points Ha; simpl.
  - by rewrite Nat.add_0_r, take_drop.
  - unfold py_div. rewrite decide_False by by apply of_int_nat_ne_0.
    simpl. set (v := (points / of_int (Z.of_nat count))%Qc).
    case_decide as Hlt.
    + rewrite IH by (rewrite length_insert; lia).
      f_equal. rewrite take_S_r with (x := v)
        by (by apply list_lookup_insert_eq).
      rewrite take_insert_ge by lia.
      rewrite drop_insert_lt by lia.
      rewrite <-app_assoc. simpl.
      by replace (a + S n)%nat with (S (a + n)) by lia.
    + assert (length rank_points = a) as Hlen by lia.
      rewrite IH by (rewrite length_app; simpl; lia).
      f_equal. rewrite take_app_ge by lia.
      rewrite Hlen, Nat.sub_succ_l, Nat.sub_diag by lia. simpl.
      rewrite !drop_ge by (rewrite ?length_app; simpl; lia).
      rewrite take_ge by lia.
      rewrite <-!app_assoc. simpl. by rewrite !app_nil_r.
Qed.

Lemma share_loop_zero points rank_points :
  share_loop (seq 0 0) points 0 rank_points = Ok rank_points.
Proof. done. Qed.
End loops.

(** ** Facts about [adjust_rank_score] *)

(** The number of records tied at the top does not depend on the rank
    points. *)
Lemma top_tie_loop_index scs rest rank_points rank_points' i count points points' :
  (top_tie_loop scs rest rank_points i count points).1.1 =
  (top_tie_loop scs rest rank_points' i count points').1.1.
Proof.
  revert i count points points'.
  induction rest as [|sc rest IH]; intros i count points points'; simpl; [done|].
  case_decide; [apply IH|done].
Qed.

(** How many records are tied with the first one. *)
Definition top_tie (centre_counts : list CentreCount) : nat :=
  match centre_counts with
  | [] => 0
  | sc :: _ => (top_tie_loop (cc_count sc) centre_counts [] 0 0 0%Qc).1.1
  end.

(** One unfolding of the recursion, with the two loops replaced by what they
    compute: the first [i] positions all get [points / i], the rest of the
    centre counts are scored against the rest of the rank points. *)
Lemma adjust_rank_score_step sc ccs p ps :
  let i := top_tie (sc :: ccs) in
  let v := (sum_points (take i (p :: ps)) / of_int (Z.of_nat i))%Qc in
  (1 ≤ i ≤ S (length ccs))%nat ∧
  adjust_rank_score (sc :: ccs) (p :: ps) =
    (replicate i v ++ drop i (p :: ps),
     rest ← (adjust_rank_score (drop i (sc :: ccs)) (drop i (p :: ps))).2;
     Ok (replicate i v ++ rest)).
Proof.
  assert (∀ i count points,
    top_tie_loop (cc_count sc) (sc :: ccs) (p :: ps) 0 0 0%Qc = (i, count, points) →
    i = top_tie (sc :: ccs) ∧
    (1 ≤ i ≤ S (length ccs))%nat ∧
    share_loop (seq 0 i) points count (p :: ps) =
      Ok (replicate i (sum_points (take i (p :: ps)) / of_int (Z.of_nat i))%Qc
          ++ drop i (p :: ps))) as Hloops.
  { intros i count points Hloop.
    pose proof (top_tie_loop_head sc ccs (p :: ps)) as Hi. rewrite Hloop in Hi.
    split.
    { unfold top_tie.
      rewrite (top_tie_loop_index _ _ [] (p :: ps) _ _ _ 0%Qc). by rewrite Hloop. }
    apply top_tie_loop_spec in Hloop as (_ & -> & ->).
    split; [done|]. rewrite Nat.sub_0_r, drop_0, Qcplus_0_l.
    rewrite share_loop_seq by (simpl; lia). by rewrite take_0. }
  cbv zeta.
  funelim (adjust_rank_score (sc :: ccs) (p :: ps)).
  - destruct (Hloops _ _ _ Hloop) as (Hi0 & Hi & Hshare).
    rewrite <-Hi0. split; [done|].
    rewrite Hshare in Heq. injection Heq as <-.
    rewrite take_app_length', drop_app_length' by by rewrite length_replicate.
    done.
  - destruct (Hloops _ _ _ Hloop) as (_ & _ & Hshare). congruence.
Qed.

Lemma adjust_rank_score_nil_l rank_points :
  adjust_rank_score [] rank_points =
    match rank_points with
    | [] => ([], Ok [])
    | _ :: _ => (rank_points, Err IndexError)
    end.
Proof. destruct rank_points; by simp adjust_rank_score. Qed.

Lemma adjust_rank_score_nil_r centre_counts :
  adjust_rank_score centre_counts [] =
    ([], Ok (replicate (length centre_counts) 0%Qc)).
Proof. by simp adjust_rank_score. Qed.

(** With at least as many centre counts as rank points the call returns,
    with one entry per centre count and the rank points all handed out. *)
Lemma adjust_rank_score_props centre_counts rank_points :
  (length rank_points ≤ length centre_counts)%nat →
  ∃ out,
    (adjust_rank_score centre_counts rank_points).2 = Ok out ∧
    length out = length centre_counts ∧
    sum_points out = sum_points rank_points.
Proof.
  remember (length centre_counts) as n eqn:Hn.
  revert centre_counts rank_points Hn.
  induction (lt_wf n) as [n _ IH]; intros centre_counts rank_points -> Hlen.
  destruct rank_points as [|p ps].
  { rewrite adjust_rank_score_nil_r. eexists. split; [done|].
    rewrite length_replicate, sum_points_replicate. split; [done|]. simpl. ring. }
  destruct centre_counts as [|sc ccs]; [simpl in Hlen; lia|].
  destruct (adjust_rank_score_step sc ccs p ps) as (Hi & ->).
  set (i := top_tie (sc :: ccs)) in *. simpl.
  edestruct (IH (length (drop i (sc :: ccs)))) with (rank_points := drop i (p :: ps))
    as (rest & -> & Hrest & Hsum); [| done | |].
  { rewrite length_drop. simpl. lia. }
  { rewrite !length_drop. simpl in *. lia. }
  eexists. split; [done|]. split.
  - rewrite length_app, length_replicate, Hrest, length_drop. simpl. lia.
  - rewrite sum_points_app, sum_points_replicate, Hsum.
    rewrite Qcmult_div_r by (apply of_int_nat_ne_0; lia).
    by rewrite <-sum_points_app, take_drop.
Qed.


Lemma adjust_rank_score_step' centre_counts rank_points :
  centre_counts ≠ [] → rank_points ≠ [] →
  let i := top_tie centre_counts in
  let v := (sum_points (take i rank_points) / of_int (Z.of_nat i))%Qc in
  (1 ≤ i ≤ length centre_counts)%nat ∧
  adjust_rank_score centre_counts rank_points =
    (replicate i v ++ drop i rank_points,
     rest ← (adjust_rank_score (drop i centre_counts) (drop i rank_points)).2;
     Ok (replicate i v ++ rest)).
Proof.
  destruct centre_counts as [|sc ccs]; [done|].
  destruct rank_points as [|p ps]; [done|]. intros _ _.
  apply adjust_rank_score_step.
Qed.



(** What a call leaves in the caller's list: the rank points of the
    positions tied at the top are overwritten by their share. *)
Lemma adjust_rank_score_written centre_counts rank_points :
  centre_counts ≠ [] → rank_points ≠ [] →
  let i := top_tie centre_counts in
  (adjust_rank_score centre_counts rank_points).1 =
    replicate i (sum_points (take i rank_points) / of_int (Z.of_nat i))%Qc
    ++ drop i rank_points.
Proof.
  intros Hc Hp. destruct (adjust_rank_score_step' _ _ Hc Hp) as [_ ->]. done.
Qed.

(** *** Tie groups *)







(** *** Calling again on the list a call has left *)

(** When a call on the list that a first call left behind leaves that list
    as it is, it returns what the first call returned. *)
Lemma adjust_rank_score_stable centre_counts rank_points :
  let left := (adjust_rank_score centre_counts rank_points).1 in
  (adjust_rank_score centre_counts left).1 = left →
  adjust_rank_score centre_counts left = adjust_rank_score centre_counts rank_points.
Proof.
  destruct rank_points as [|p ps].
  { by rewrite adjust_rank_score_nil_r. }
  destruct centre_counts as [|sc ccs].
  { by rewrite adjust_rank_score_nil_l. }
  destruct (adjust_rank_score_step sc ccs p ps) as (Hi & Heq).
  set (i := top_tie (sc :: ccs)) in *.
  set (v := (sum_points (take i (p :: ps)) / of_int (Z.of_nat i))%Qc) in *.
  rewrite Heq. cbn [fst].
  destruct (adjust_rank_score_step' (sc :: ccs) (replicate i v ++ drop i (p :: ps)))
    as (_ & ->); [done| |].
  { destruct i; [lia|done]. }
  fold i.
  rewrite take_app_length', drop_app_length' by by rewrite length_replicate.
  cbn [fst]. intros Hleft%app_inv_tail. by rewrite Hleft.
Qed.

(** ** Facts about query sets *)

Section order_by.
Context {A : Type} (key : A → Z).

Lemma insert_desc_perm x l : insert_desc key x l ≡ₚ x :: l.
Proof.
  induction l as [|y l IH]; simpl; [done|].
  case_decide; [done|]. rewrite IH. apply Permutation_swap.
Qed.

Lemma order_by_desc_perm l : order_by_desc key l ≡ₚ l.
Proof.
  induction l as [|x l IH]; simpl; [done|].
  fold (order_by_desc key l). by rewrite insert_desc_perm, IH.
Qed.

(** Keys never go up along the list. *)
Definition sorted_desc (l : list A) : Prop :=
  StronglySorted (λ x y, key y ≤ key x) l.

Lemma insert_desc_sorted x l : sorted_desc l → sorted_desc (insert_desc key x l).
Proof.
  induction 1 as [|y l Hl IH Hy]; simpl.
  - repeat constructor.
  - case_decide.
    + constructor; [by constructor|].
      constructor; [done|]. eapply Forall_impl; [done|]. simpl. lia.
    + constructor; [done|].
      rewrite insert_desc_perm. constructor; [lia|done].
Qed.

Lemma order_by_desc_sorted l : sorted_desc (order_by_desc key l).
Proof.
  induction l as [|x l IH]; simpl; [constructor|].
  by apply insert_desc_sorted.
Qed.

Lemma order_by_desc_elem_of x l : x ∈ order_by_desc key l ↔ x ∈ l.
Proof. by rewrite order_by_desc_perm. Qed.

Lemma order_by_desc_length l : length (order_by_desc key l) = length l.
Proof. by rewrite order_by_desc_perm. Qed.

Lemma order_by_desc_nil l : order_by_desc key l = [] ↔ l = [].
Proof.
  split; [|by intros ->].
  intros H. apply (f_equal length) in H.
  rewrite order_by_desc_length in H. by destruct l.
Qed.

(** [order_by('-key')[0]] is a row with the largest key. *)
Lemma qs_index0_order_by_desc l :
  match qs_index0 (order_by_desc key l) with
  | Ok top => top ∈ l ∧ ∀ x, x ∈ l → key x ≤ key top
  | Err e => e = IndexError ∧ l = []
  end.
Proof.
  pose proof (order_by_desc_sorted l) as Hs.
  pose proof (order_by_desc_elem_of) as Hin.
  destruct (order_by_desc key l) as [|top rest] eqn:Ho; simpl.
  - split; [done|]. by apply order_by_desc_nil.
  - split; [apply Hin with (l := l); rewrite Ho; by left|].
    intros x Hx. apply (Hin x l) in Hx. rewrite Ho in Hx.
    apply StronglySorted_inv in Hs as [_ Hs].
    apply elem_of_cons in Hx as [->|Hx]; [lia|].
    by eapply Forall_forall in Hs.
Qed.
End order_by.

Lemma qs_get_singleton {A} (qs : list A) x : qs = [x] → qs_get qs = Ok x.
Proof. by intros ->. Qed.

Lemma qs_get_Ok {A} (qs : list A) x : qs_get qs = Ok x ↔ qs = [x].
Proof.
  split; [|apply qs_get_singleton].
  destruct qs as [|y [|z qs]]; simpl; congruence.
Qed.

Lemma _final_year_scs_sorted centre_counts final_scs :
  _final_year_scs centre_counts = Ok final_scs →
  sorted_desc cc_count final_scs.
Proof.
  unfold _final_year_scs, _final_year.
  destruct (qs_index0 _) as [top|]; simpl; [|done].
  intros [= <-]. apply order_by_desc_sorted.
Qed.

(** A [unique_together] key identifies a row. *)
Lemma NoDup_fmap_inj {A K} (key : A → K) (l : list A) x y :
  NoDup (key <$> l) → x ∈ l → y ∈ l → key x = key y → x = y.
Proof.
  induction l as [|z l IH]; intros Hnd Hx Hy Hk.
  { by apply elem_of_nil in Hx. }
  rewrite fmap_cons in Hnd. apply NoDup_cons in Hnd as [Hz Hnd].
  apply elem_of_cons in Hx as [->|Hx]; apply elem_of_cons in Hy as [->|Hy].
  - done.
  - exfalso. apply Hz. rewrite Hk. by apply list_elem_of_fmap_2.
  - exfalso. apply Hz. rewrite <-Hk. by apply list_elem_of_fmap_2.
  - by apply IH.
Qed.

(** ** Facts about dictionaries built in a loop *)

Lemma sum_points_cons x l : sum_points (x :: l) = (x + sum_points l)%Qc.
Proof. done. Qed.

Lemma py_div_ne_0 x y : y ≠ 0%Qc → py_div x y = Ok (x / y)%Qc.
Proof. intros Hy. unfold py_div. by rewrite decide_False. Qed.

Lemma sum_points_perm l1 l2 : l1 ≡ₚ l2 → sum_points l1 = sum_points l2.
Proof.
  induction 1 as [|x l1 l2 _ IH|x y l|l1 l2 l3 _ IH1 _ IH2]; simpl.
  - done.
  - by rewrite IH.
  - ring.
  - by rewrite IH1.
Qed.

Section dict_loops.
Context {A : Type} (key : A → nat).
Implicit Types (l : list A) (m : scores_dict) (f : A → Qc).

(** Rows with different keys: each key is left with the value written for
    its row. *)
Lemma foldl_insert_lookup f l m x :
  NoDup (key <$> l) → x ∈ l →
  foldl (λ m x, <[key x := f x]> m) m l !! key x = Some (f x).
Proof.
  revert m. induction l as [|y l IH]; intros m Hnd Hx; simpl.
  { by apply elem_of_nil in Hx. }
  apply NoDup_cons in Hnd as [Hy Hnd].
  apply elem_of_cons in Hx as [->|Hx]; [|by apply IH].
  clear IH. revert m Hy. induction l as [|z l IH]; intros m Hy; simpl.
  - by rewrite lookup_insert_eq.
  - apply not_elem_of_cons in Hy as [Hne Hy].
    apply NoDup_cons in Hnd as [_ Hnd].
    rewrite insert_insert_ne by done. by apply IH.
Qed.

Lemma foldl_insert_lookup_ne f l m (p : nat) :
  p ∉ key <$> l →
  foldl (λ m x, <[key x := f x]> m) m l !! p = m !! p.
Proof.
  revert m. induction l as [|y l IH]; intros m Hp; simpl; [done|].
  apply not_elem_of_cons in Hp as [Hne Hp].
  rewrite IH by done. by rewrite lookup_insert_ne.
Qed.

(** A dictionary is known by its entries. *)
Lemma dict_of_lookups f l m :
  NoDup (key <$> l) →
  (∀ x, x ∈ l → m !! key x = Some (f x)) →
  (∀ p, p ∉ key <$> l → m !! p = None) →
  m = list_to_map ((λ x, (key x, f x)) <$> l).
Proof.
  intros Hnd Hin Hout. apply map_eq. intros p.
  assert (((λ x, (key x, f x)) <$> l).*1 = key <$> l) as Hkeys.
  { by rewrite <-list_fmap_compose. }
  destruct (decide (p ∈ key <$> l)) as [Hp|Hp].
  - apply list_elem_of_fmap in Hp as (x & -> & Hx).
    rewrite Hin by done. symmetry.
    apply elem_of_list_to_map_1.
    + by rewrite Hkeys.
    + apply list_elem_of_fmap. by exists x.
  - rewrite Hout by done. symmetry.
    apply not_elem_of_list_to_map_1. by rewrite Hkeys.
Qed.

Lemma dict_sum_list_to_map f l :
  NoDup (key <$> l) →
  dict_sum (list_to_map ((λ x, (key x, f x)) <$> l)) = sum_points (f <$> l).
Proof.
  intros Hnd. unfold dict_sum.
  assert (((λ x, (key x, f x)) <$> l).*1 = key <$> l) as Hkeys.
  { by rewrite <-list_fmap_compose. }
  rewrite (sum_points_perm _ (((λ x, (key x, f x)) <$> l).*2)).
  - by rewrite <-list_fmap_compose.
  - apply fmap_Permutation. apply map_to_list_to_map. by rewrite Hkeys.
Qed.
End dict_loops.

(** ** Facts about the final year *)

(** The sum of the squares of the counts. *)
Definition sum_squares (l : list CentreCount) : Z :=
  foldr Z.add 0 ((λ sc, cc_count sc * cc_count sc) <$> l).

Lemma _final_year_scs_perm centre_counts final_scs :
  _final_year_scs centre_counts = Ok final_scs →
  ∃ y, final_scs ≡ₚ filter (λ sc, cc_year sc = y) centre_counts.
Proof.
  unfold _final_year_scs, _final_year.
  destruct (qs_index0 _) as [top|]; simpl; [|done].
  intros [= <-]. exists (cc_year top). apply order_by_desc_perm.
Qed.

Lemma _final_year_scs_nonempty centre_counts :
  centre_counts ≠ [] → ∃ final_scs, _final_year_scs centre_counts = Ok final_scs.
Proof.
  intros Hne. unfold _final_year_scs, _final_year.
  pose proof (qs_index0_order_by_desc cc_year centre_counts) as H.
  destruct (qs_index0 _) as [top|]; simpl; [by eexists|].
  by destruct H.
Qed.

(** In the ledger of one game, where power and year identify a row, the
    rows of the final year are of different powers. *)
Lemma _final_year_scs_powers g centre_counts final_scs :
  NoDup (cc_key <$> centre_counts) →
  (∀ sc, sc ∈ centre_counts → cc_game sc = g) →
  _final_year_scs centre_counts = Ok final_scs →
  NoDup (cc_power <$> final_scs).
Proof.
  intros Hnd Hg Hf. apply _final_year_scs_perm in Hf as (y & Hperm). rewrite Hperm.
  apply NoDup_fmap_2_strong.
  - intros x1 x2 [Hy1 Hx1]%list_elem_of_filter [Hy2 Hx2]%list_elem_of_filter Hp.
    assert (cc_key x1 = cc_key x2) as Hk.
    { unfold cc_key. by rewrite Hp, (Hg x1), (Hg x2), Hy1, Hy2. }
    by eapply NoDup_fmap_inj.
  - apply NoDup_filter. by apply NoDup_fmap_1 in Hnd.
Qed.

(** ** Facts about [GScoringSumOfSquares] *)

Lemma sum_squares_cons sc l :
  sum_squares (sc :: l) = cc_count sc * cc_count sc + sum_squares l.
Proof. done. Qed.

Lemma GScoringSumOfSquares_first_loop l retval retval_solo solo_found sum_of_squares :
  foldl (λ st sc, GScoringSumOfSquares_body sc st)
    (retval, retval_solo, solo_found, sum_of_squares) l =
  (foldl (λ m sc, <[cc_power sc :=
                     (of_int (cc_count sc * cc_count sc) * of_int 100)%Qc]> m) retval l,
   foldl (λ m sc, <[cc_power sc :=
                     if decide (WINNING_SCS ≤ cc_count sc) then of_int 100 else 0%Qc]> m)
     retval_solo l,
   solo_found || existsb (λ sc, bool_decide (WINNING_SCS ≤ cc_count sc)) l,
   sum_of_squares + sum_squares l).
Proof.
  revert retval retval_solo solo_found sum_of_squares.
  induction l as [|sc l IH]; intros retval retval_solo solo_found sum_of_squares.
  { simpl. by rewrite orb_false_r, Z.add_0_r. }
  cbn [foldl]. unfold GScoringSumOfSquares_body at 2.
  case_decide as Hsolo.
  - rewrite IH, sum_squares_cons. cbn [existsb foldl].
    rewrite bool_decide_eq_true_2 by done.
    rewrite insert_insert_eq, orb_true_r. cbn [orb].
    f_equal. lia.
  - rewrite IH, sum_squares_cons. cbn [existsb foldl].
    rewrite bool_decide_eq_false_2 by done. cbn [orb].
    f_equal. lia.
Qed.

Lemma GScoringSumOfSquares_second_loop (S : Z) (f : CentreCount → Qc) l
    (retval : scores_dict) :
  S ≠ 0 →
  NoDup (cc_power <$> l) →
  (∀ sc, sc ∈ l → retval !! cc_power sc = Some (f sc)) →
  ∃ retval',
    for_each l (λ sc (retval : scores_dict),
      match retval !! cc_power sc with
      | None => Err KeyError
      | Some x => v ← py_div x (of_int S); Ok (<[cc_power sc := v]> retval)
      end) retval = Ok retval' ∧
    (∀ sc, sc ∈ l → retval' !! cc_power sc = Some (f sc / of_int S)%Qc) ∧
    (∀ p, p ∉ cc_power <$> l → retval' !! p = retval !! p).
Proof.
  intros HS. assert (of_int S ≠ 0%Qc) as HS'.
  { unfold of_int. rewrite <-Z2Qc_inj_0. by intros ?%Z2Qc_inj. }
  revert retval. induction l as [|sc l IH]; intros retval Hnd Hin.
  { exists retval. simpl. split; [done|]. split; [|done].
    intros sc Hsc. by apply elem_of_nil in Hsc. }
  rewrite fmap_cons in Hnd. apply NoDup_cons in Hnd as [Hsc Hnd].
  cbn [for_each]. rewrite (Hin sc) by by left.
  rewrite py_div_ne_0 by done. cbn [mbind result_bind].
  destruct (IH (<[cc_power sc := (f sc / of_int S)%Qc]> retval)) as (retval' & -> & Hin' & Hout');
    [done| |].
  { intros sc' Hsc'. rewrite lookup_insert_ne.
    - apply Hin. by right.
    - intros Heq. apply Hsc. rewrite Heq. by apply list_elem_of_fmap_2. }
  exists retval'. split; [done|]. split.
  - intros sc' [->|Hsc']%elem_of_cons; [|by apply Hin'].
    rewrite Hout' by done. by rewrite lookup_insert_eq.
  - intros p [Hne Hp]%not_elem_of_cons.
    rewrite Hout' by done. by rewrite lookup_insert_ne.
Qed.

Lemma sum_points_scaled (a b : Qc) (g : CentreCount → Z) (l : list CentreCount) :
  sum_points ((λ sc, of_int (g sc) * a / b)%Qc <$> l) =
  (of_int (foldr Z.add 0%Z (g <$> l)) * a / b)%Qc.
Proof.
  induction l as [|sc l IH].
  - simpl. unfold of_int. rewrite Z2Qc_inj_0. unfold Qcdiv. ring.
  - rewrite !fmap_cons, sum_points_cons, IH. cbn [foldr].
    unfold of_int. rewrite Z2Qc_inj_add. unfold Qcdiv. ring.
Qed.

(** ** Facts about [Game.soloer] and [GScoringDrawSize] *)

(** What [Game.soloer] does, by the largest count on record. *)
Lemma Game_soloer_cases (self : Game) (w : World) :
  centrecount_set (g_id self) w ≠ [] →
  ∃ top,
    top ∈ centrecount_set (g_id self) w ∧
    (∀ sc, sc ∈ centrecount_set (g_id self) w → cc_count sc ≤ cc_count top) ∧
    Game_soloer self w =
      if decide (WINNING_SCS ≤ cc_count top) then
        gp ← qs_get (filter (λ p, gpl_power p = cc_power top)
                       (gameplayer_set (g_id self) w));
        Ok (Some gp)
      else Ok None.
Proof.
  intros Hne. unfold Game_soloer.
  pose proof (qs_index0_order_by_desc cc_count (centrecount_set (g_id self) w)) as H.
  destruct (qs_index0 _) as [top|]; [|by destruct H].
  destruct H as [Htop Hmax]. by exists top.
Qed.

Lemma GScoringDrawSize_body_soloed w draw survivors sc (retval : scores_dict) :
  cc_count sc < WINNING_SCS →
  GScoringDrawSize_body w draw survivors true sc retval =
    Ok (<[cc_power sc := 0%Qc]> retval).
Proof.
  intros Hsc. unfold GScoringDrawSize_body. lazy zeta.
  by rewrite decide_False by lia.
Qed.

(** Once somebody is found to have soloed, the loop of
    [GScoringDrawSize.scores] leaves 0 for whoever is below 18. *)
Lemma GScoringDrawSize_soloed w draw survivors l (retval : scores_dict) :
  Forall (λ sc, cc_count sc < WINNING_SCS) l →
  for_each l (GScoringDrawSize_body w draw survivors true) retval =
    Ok (foldl (λ m sc, <[cc_power sc := 0%Qc]> m) retval l).
Proof.
  intros Hall. revert retval.
  induction Hall as [|sc l Hsc _ IH]; intros retval; [done|].
  cbn [for_each foldl]. rewrite GScoringDrawSize_body_soloed by done.
  cbn [mbind result_bind]. apply IH.
Qed.

Lemma foldl_insert_const_lookup {A} (key : A → nat) (v : Qc) l (m : scores_dict) x :
  x ∈ l ∨ m !! key x = Some v →
  foldl (λ m x, <[key x := v]> m) m l !! key x = Some v.
Proof.
  revert m. induction l as [|y l IH]; intros m Hx; simpl.
  { destruct Hx as [Hx|Hx]; [by apply elem_of_nil in Hx|done]. }
  apply IH. destruct Hx as [[->|Hx]%elem_of_cons|Hx].
  - right. by rewrite lookup_insert_eq.
  - by left.
  - right. destruct (decide (key y = key x)) as [->|Hne].
    + by rewrite lookup_insert_eq.
    + by rewrite lookup_insert_ne.
Qed.

(** ** Running code in [M] *)

Lemma bind_run {A B} (m : M A) (k : A → M B) w w1 a :
  m w = (w1, Ok a) → (m ≫= k) w = k a w1.
Proof. intros H. unfold mbind, M_bind. by rewrite H. Qed.

Lemma bind_run_err {A B} (m : M A) (k : A → M B) w w1 e :
  m w = (w1, Err e) → (m ≫= k) w = (w1, Err e).
Proof. intros H. unfold mbind, M_bind. by rewrite H. Qed.

Lemma bind_Ok {A B} (m : M A) (k : A → M B) w w' b :
  (m ≫= k) w = (w', Ok b) ↔ ∃ w1 a, m w = (w1, Ok a) ∧ k a w1 = (w', Ok b).
Proof.
  unfold mbind, M_bind. destruct (m w) as [w1 [a|e]]; split.
  - intros H. by exists w1, a.
  - by intros (? & ? & [= <- <-] & H).
  - done.
  - by intros (? & ? & [=] & _).
Qed.

Lemma query_run {A} (q : World → result A) w : query q w = (w, q w).
Proof. done. Qed.

Lemma set_G_SCORING_SYSTEMS_id f w :
  f (G_SCORING_SYSTEMS w) = G_SCORING_SYSTEMS w → set_G_SCORING_SYSTEMS f w = w.
Proof.
  intros Hf. destruct w. unfold set_G_SCORING_SYSTEMS. simpl in *. by rewrite Hf.
Qed.

(** A block that left the scoring systems alone is undone altogether. *)
Lemma rollback_id before after :
  G_SCORING_SYSTEMS after = G_SCORING_SYSTEMS before → rollback before after = before.
Proof. intros H. unfold rollback. by apply set_G_SCORING_SYSTEMS_id. Qed.

(** An invariant: what holds of the world before holds after, whether the
    code returns or raises. *)
Definition keeps {A} (I : World → Prop) (m : M A) : Prop :=
  ∀ w, I w → I (m w).1.

Section keeps.
Context (I : World → Prop).

Lemma keeps_ret {A} (a : A) : keeps I (mret a).
Proof. by intros w. Qed.

Lemma keeps_query {A} (q : World → result A) : keeps I (query q).
Proof. by intros w. Qed.

Lemma keeps_raise {A} e : keeps I (raise e : M A).
Proof. by intros w. Qed.

Lemma keeps_modify f : (∀ w, I w → I (f w)) → keeps I (modify f).
Proof. intros Hf w. apply Hf. Qed.

Lemma keeps_bind {A B} (m : M A) (k : A → M B) :
  keeps I m → (∀ a, keeps I (k a)) → keeps I (m ≫= k).
Proof.
  intros Hm Hk w Hw. unfold mbind, M_bind.
  specialize (Hm w Hw). destruct (m w) as [w1 [a|e]]; [|done].
  by apply Hk.
Qed.

Lemma keeps_for_each_M {A} (l : list A) (body : A → M ()) :
  (∀ x, keeps I (body x)) → keeps I (for_each_M l body).
Proof.
  intros Hbody. induction l as [|x l IH]; simpl.
  - apply keeps_ret.
  - apply keeps_bind; [done|]. by intros _.
Qed.

Lemma keeps_collect_scores {A} (key : A → nat) (scores : A → M scores_dict) l acc :
  (∀ x, keeps I (scores x)) → keeps I (collect_scores key scores l acc).
Proof.
  intros Hs. revert acc. induction l as [|x l IH]; intros acc; simpl.
  - apply keeps_ret.
  - apply keeps_bind; [done|]. intros s. apply IH.
Qed.

(** Invariants that do not look at what the scoring code writes. *)
Context (I_systems : ∀ f w, I w → I (set_G_SCORING_SYSTEMS f w)).

Lemma keeps_Game_scores self force_recalculation :
  keeps I (Game_scores self force_recalculation).
Proof.
  unfold Game_scores. destruct (_ && _); [apply keeps_query|].
  apply keeps_bind; [apply keeps_query|]. intros r.
  apply keeps_bind; [apply keeps_query|]. intros w.
  destruct (find_scoring_system _ _ _) as [[k system]|]; [|apply keeps_raise].
  destruct system; simpl; try apply keeps_query.
  intros w' Hw'. destruct (GScoringCDiplo_scores _ _) as [self' r']. simpl.
  by apply I_systems.
Qed.

Lemma keeps_Round_scores self force_recalculation :
  keeps I (Round_scores self force_recalculation).
Proof.
  unfold Round_scores. apply keeps_bind; [apply keeps_query|]. intros w.
  destruct (_ && _); [apply keeps_ret|].
  apply keeps_bind; [apply keeps_query|]. intros t.
  destruct (find_scoring_system _ _ _) as [[k []]|]; [|apply keeps_raise].
  unfold RScoringBest_scores.
  apply keeps_bind; [apply keeps_query|]. intros w'.
  apply keeps_bind; [|intros; apply keeps_query].
  apply keeps_collect_scores. intros g. apply keeps_Game_scores.
Qed.

Lemma keeps_Tournament_scores self force_recalculation :
  keeps I (Tournament_scores self force_recalculation).
Proof.
  unfold Tournament_scores. apply keeps_bind; [apply keeps_query|]. intros w.
  destruct (_ && _); [apply keeps_ret|].
  destruct (find_scoring_system _ _ _) as [[k system]|]; [|apply keeps_raise].
  unfold TScoringSum_scores.
  apply keeps_bind; [apply keeps_query|]. intros w'.
  apply keeps_bind; [|intros; apply keeps_ret].
  apply keeps_collect_scores. intros r. apply keeps_Round_scores.
Qed.

Context (I_game_players : ∀ f w, I w → I (set_game_players f w)).
Context (I_round_players : ∀ f w, I w → I (set_round_players f w)).
Context (I_tournament_players : ∀ f w, I w → I (set_tournament_players f w)).

Lemma keeps_Game_save_scores self : keeps I (Game_save_scores self).
Proof.
  unfold Game_save_scores.
  apply keeps_bind; [apply keeps_Game_scores|]. intros scores.
  apply keeps_bind; [apply keeps_query|]. intros w.
  apply keeps_bind.
  { apply keeps_for_each_M. intros p.
    apply keeps_bind; [apply keeps_query|]. intros s.
    apply keeps_modify. intros; by apply I_game_players. }
  intros _. apply keeps_bind; [apply keeps_query|]. intros r.
  apply keeps_bind; [apply keeps_query|]. intros w1.
  apply keeps_bind.
  { destruct (Round_is_finished r w1); [|apply keeps_ret].
    apply keeps_bind; [apply keeps_Round_scores|]. intros rs.
    apply keeps_bind; [apply keeps_query|]. intros w2.
    apply keeps_for_each_M. intros p.
    apply keeps_modify. intros; by apply I_round_players. }
  intros _. apply keeps_bind; [apply keeps_query|]. intros t.
  apply keeps_bind; [apply keeps_query|]. intros w2.
  destruct (Tournament_is_finished t w2); [|apply keeps_ret].
  apply keeps_bind; [apply keeps_Tournament_scores|]. intros ts.
  apply keeps_bind; [apply keeps_query|]. intros w3.
  apply keeps_for_each_M. intros p.
  apply keeps_bind; [apply keeps_query|]. intros s.
  apply keeps_modify. intros; by apply I_tournament_players.
Qed.

Context (I_game_images : ∀ f w, I w → I (set_game_images f w)).

Lemma keeps_Game_save_image self : keeps I (Game_save_image self).
Proof.
  unfold Game_save_image. apply keeps_bind.
  - intros w Hw. unfold GameImage_get_or_create.
    destruct (get_or_create _ _ _) as [table r]. simpl.
    by apply I_game_images.
  - intros i. apply keeps_modify. intros; by apply I_game_images.
Qed.
End keeps.

(** ** Facts about saving rows *)

Section save_row.
Context {A K : Type} `{EqDecision A, EqDecision K} (key : A → K).
Implicit Types (x y : A) (table : list A).

Lemma save_row_keys x table :
  key <$> save_row key x table =
    if decide (key x ∈ key <$> table) then key <$> table
    else (key <$> table) ++ [key x].
Proof.
  unfold save_row. case_decide; [|by rewrite fmap_app].
  rewrite <-list_fmap_compose. apply list_fmap_ext.
  intros i y _. simpl. by case_decide.
Qed.

Lemma save_row_NoDup x table :
  NoDup (key <$> table) → NoDup (key <$> save_row key x table).
Proof.
  rewrite save_row_keys. case_decide; [done|].
  intros Hnd. apply NoDup_app. split; [done|]. split.
  - intros k Hk ->%list_elem_of_singleton. done.
  - apply NoDup_singleton.
Qed.

Lemma save_row_elem_of x table : x ∈ save_row key x table.
Proof.
  unfold save_row. case_decide as Hin.
  - apply list_elem_of_fmap in Hin as (y & Hk & Hy).
    apply list_elem_of_fmap. exists y. split; [|done].
    by rewrite decide_True.
  - apply elem_of_app. right. by apply list_elem_of_singleton.
Qed.

Lemma save_row_other x y table :
  y ∈ table → key y ≠ key x → y ∈ save_row key x table.
Proof.
  intros Hy Hne. unfold save_row. case_decide.
  - apply list_elem_of_fmap. exists y. split; [|done].
    by rewrite decide_False.
  - apply elem_of_app. by left.
Qed.

(** Saving a row that is in the table as it is changes nothing, when the
    key is a key. *)
Lemma save_row_id x table :
  NoDup (key <$> table) → x ∈ table → save_row key x table = table.
Proof.
  intros Hnd Hx. unfold save_row.
  rewrite decide_True by by apply list_elem_of_fmap_2.
  rewrite <-(list_fmap_id table) at 2. apply list_fmap_ext.
  intros i y Hy. simpl. case_decide as Hk; [|done].
  symmetry. eapply (NoDup_fmap_inj key); [done| |done|done].
  by eapply list_elem_of_lookup_2.
Qed.

(** Saving a row over one that looks the same keeps the look of the table. *)
Lemma save_row_fmap {B} (f : A → B) x table :
  (∀ y, y ∈ table → key y = key x → f y = f x) → key x ∈ key <$> table →
  f <$> save_row key x table = f <$> table.
Proof.
  intros Hf Hx. unfold save_row. rewrite decide_True by done.
  clear Hx. induction table as [|y table IH]; [done|].
  cbn [fmap list_fmap]. f_equal.
  - case_decide; [|done]. symmetry. apply Hf; [by left|done].
  - apply IH. intros z Hz. apply Hf. by right.
Qed.

Lemma NoDup_fmap_filter (P : A → Prop) `{!∀ x, Decision (P x)} table :
  NoDup (key <$> table) → NoDup (key <$> filter P table).
Proof.
  intros Hnd. eapply sublist_NoDup; [done|]. apply fmap_sublist, sublist_filter.
Qed.

Lemma get_or_create_spec lookup table :
  match get_or_create key lookup table with
  | (table', Ok i) =>
      i = lookup ∧ lookup ∈ table' ∧
      (table' = table ∨ ((key lookup ∉ key <$> table) ∧ table' = table ++ [lookup]))
  | (table', Err e) =>
      table' = table ∧ key lookup ∈ key <$> table
  end.
Proof.
  unfold get_or_create.
  destruct (filter (λ x, x = lookup) table) as [|i [|i' rest]] eqn:Hf; simpl.
  - case_decide; [done|]. split; [done|]. split; [|by right].
    apply elem_of_app. right. by apply list_elem_of_singleton.
  - assert (i ∈ filter (λ x, x = lookup) table) as Hi by (rewrite Hf; by left).
    apply list_elem_of_filter in Hi as [-> Hi]. split; [done|]. split; [done|by left].
  - assert (i ∈ filter (λ x, x = lookup) table) as Hi by (rewrite Hf; by left).
    apply list_elem_of_filter in Hi as [-> Hi]. split; [done|].
    by apply list_elem_of_fmap_2.
Qed.

(** Looking up a row that is in the table finds it, when the key is a
    key. *)
Lemma get_or_create_id lookup table :
  NoDup (key <$> table) → lookup ∈ table →
  get_or_create key lookup table = (table, Ok lookup).
Proof.
  intros Hnd Hin. unfold get_or_create.
  assert (NoDup table) as Hnd' by by eapply NoDup_fmap_1.
  destruct (filter (λ x, x = lookup) table) as [|i [|i' rest]] eqn:Hf; simpl.
  - assert (lookup ∈ filter (λ x, x = lookup) table) as Hl
      by by apply list_elem_of_filter.
    rewrite Hf in Hl. by apply elem_of_nil in Hl.
  - assert (i ∈ filter (λ x, x = lookup) table) as Hi by (rewrite Hf; by left).
    by apply list_elem_of_filter in Hi as [-> Hi].
  - assert (NoDup (filter (λ x, x = lookup) table)) as Hndf by by apply NoDup_filter.
    rewrite Hf in Hndf. apply NoDup_cons in Hndf as [Hne _].
    assert (i ∈ filter (λ x, x = lookup) table) as Hi by (rewrite Hf; by left).
    assert (i' ∈ filter (λ x, x = lookup) table) as Hi'
      by (rewrite Hf; right; by left).
    apply list_elem_of_filter in Hi as [-> _].
    apply list_elem_of_filter in Hi' as [-> _].
    exfalso. apply Hne. by left.
Qed.
End save_row.

(** ** Facts about the first part of [Game.save] *)

Lemma set_centre_counts_id f w :
  f (centre_counts w) = centre_counts w → set_centre_counts f w = w.
Proof. intros H. destruct w. unfold set_centre_counts. simpl in *. by rewrite H. Qed.

Lemma set_games_id f w : f (games w) = games w → set_games f w = w.
Proof. intros H. destruct w. unfold set_games. simpl in *. by rewrite H. Qed.

Lemma set_game_images_id f w :
  f (game_images w) = game_images w → set_game_images f w = w.
Proof. intros H. destruct w. unfold set_game_images. simpl in *. by rewrite H. Qed.

(** Looking up a row that is in the table finds it, when the key is a
    key. *)
Lemma qs_get_filter_eq {A K} `{EqDecision A} (key : A → K) (lookup : A) table :
  NoDup (key <$> table) → lookup ∈ table →
  qs_get (filter (λ x, x = lookup) table) = Ok lookup.
Proof.
  intros Hnd Hin.
  assert (NoDup (filter (λ x, x = lookup) table)) as Hndf.
  { apply NoDup_filter. by eapply NoDup_fmap_1. }
  destruct (filter (λ x, x = lookup) table) as [|i [|i' rest]] eqn:Hf; simpl.
  - assert (lookup ∈ filter (λ x, x = lookup) table) as Hl
      by by apply list_elem_of_filter.
    rewrite Hf in Hl. by apply elem_of_nil in Hl.
  - assert (i ∈ filter (λ x, x = lookup) table) as Hi by (rewrite Hf; by left).
    by apply list_elem_of_filter in Hi as [-> Hi].
  - apply NoDup_cons in Hndf as [Hne _].
    assert (i ∈ filter (λ x, x = lookup) table) as Hi by (rewrite Hf; by left).
    assert (i' ∈ filter (λ x, x = lookup) table) as Hi'
      by (rewrite Hf; right; by left).
    apply list_elem_of_filter in Hi as [-> _].
    apply list_elem_of_filter in Hi' as [-> _].
    exfalso. apply Hne. by left.
Qed.

Lemma keeps_insert_centre_count (I : World → Prop) i :
  (∀ f w, I w → I (set_centre_counts f w)) → keeps I (insert_centre_count i).
Proof.
  intros HI w Hw. unfold insert_centre_count.
  destruct (insert_row _ _ _); simpl; [by apply HI|done].
Qed.

Lemma insert_centre_count_Ok i w w' :
  insert_centre_count i w = (w', Ok ()) ↔
  (cc_key i ∉ cc_key <$> centre_counts w) ∧
  w' = set_centre_counts (λ table, table ++ [i]) w.
Proof.
  unfold insert_centre_count, insert_row. case_decide; split.
  - done.
  - by intros [? _].
  - by intros [= <-].
  - by intros [_ ->].
Qed.

(** The save of a year-1900 row, with the game's own save entered again:
    what it leaves alone. *)
Section keeps_reentered.
Context (I : World → Prop).
Context (I_games : ∀ f w, I w → I (set_games f w)).
Context (I_centre_counts : ∀ f w, I w → I (set_centre_counts f w)).

Lemma keeps_Game_save_reentered x : keeps I (Game_save_reentered x).
Proof.
  unfold Game_save_reentered.
  apply keeps_bind; [|intros _; apply keeps_raise].
  apply keeps_modify. intros w. by apply I_games.
Qed.

Lemma keeps_CentreCount_save_reentered adding i :
  keeps I (CentreCount_save Game_save_reentered adding i).
Proof.
  unfold CentreCount_save.
  apply keeps_bind.
  { destruct adding; [by apply keeps_insert_centre_count|].
    apply keeps_modify. intros w. by apply I_centre_counts. }
  intros _. apply keeps_bind; [apply keeps_query|]. intros g0.
  apply keeps_bind; [apply keeps_query|]. intros r.
  apply keeps_bind.
  { destruct (_ && _); [|apply keeps_ret]. apply keeps_Game_save_reentered. }
  intros _. case_decide; [|apply keeps_ret]. apply keeps_Game_save_reentered.
Qed.
End keeps_reentered.

Lemma CentreCount_save_reentered_systems adding i w :
  G_SCORING_SYSTEMS (CentreCount_save Game_save_reentered adding i w).1
    = G_SCORING_SYSTEMS w.
Proof.
  by apply (keeps_CentreCount_save_reentered
              (λ v, G_SCORING_SYSTEMS v = G_SCORING_SYSTEMS w)).
Qed.

(** The creation of a year-1900 row is undone altogether when it raises. *)
Lemma atomic_CentreCount_save_reentered i w :
  atomic (CentreCount_save Game_save_reentered true i) w =
    match CentreCount_save Game_save_reentered true i w with
    | (w', Ok a) => (w', Ok a)
    | (_, Err e) => (w, Err e)
    end.
Proof.
  unfold atomic.
  pose proof (CentreCount_save_reentered_systems true i w) as Hsystems.
  destruct (CentreCount_save _ _ _ _) as [w' [a|e]]; [done|].
  simpl in Hsystems. by rewrite rollback_id.
Qed.

(** What a run of [CentreCount.save] that returns has found and done. *)
Lemma CentreCount_save_reentered_Ok adding i w w' :
  CentreCount_save Game_save_reentered adding i w = (w', Ok ()) →
  w' = set_centre_counts (save_row cc_key i) w ∧
  (adding = true → cc_key i ∉ cc_key <$> centre_counts w) ∧
  ∃ g r,
    get_game (cc_game i) w' = Ok g ∧ get_round (the_round g) w' = Ok r ∧
    truthy_opt (r_final_year r) && bool_decide (r_final_year r = Some (cc_year i)) = false ∧
    ¬ WINNING_SCS ≤ cc_count i.
Proof.
  unfold CentreCount_save.
  intros (w1 & [] & Hwrite & H)%bind_Ok.
  assert (w1 = set_centre_counts (save_row cc_key i) w ∧
          (adding = true → cc_key i ∉ cc_key <$> centre_counts w)) as [-> Hnew].
  { destruct adding.
    - apply insert_centre_count_Ok in Hwrite as [Hnew ->]. split; [|done].
      unfold set_centre_counts. f_equal. unfold save_row. by rewrite decide_False.
    - by injection Hwrite as <-. }
  apply bind_Ok in H as (? & g & Hg & H). rewrite query_run in Hg.
  injection Hg as <- Hg.
  apply bind_Ok in H as (? & r & Hr & H). rewrite query_run in Hr.
  injection Hr as <- Hr.
  apply bind_Ok in H as (w2 & [] & H1 & H2).
  destruct (_ && _) eqn:Htrig.
  { unfold Game_save_reentered in H1.
    apply bind_Ok in H1 as (? & ? & _ & [=]). }
  injection H1 as <-.
  case_decide as Hwin.
  { unfold Game_save_reentered in H2.
    apply bind_Ok in H2 as (? & ? & _ & [=]). }
  injection H2 as <-. split; [done|]. split; [done|]. by exists g, r.
Qed.

(** The other way round: the row is saved as it is and the game is not
    complete, so nothing happens. *)
Lemma CentreCount_save_reentered_id i w g r :
  NoDup (cc_key <$> centre_counts w) → i ∈ centre_counts w →
  get_game (cc_game i) w = Ok g → get_round (the_round g) w = Ok r →
  truthy_opt (r_final_year r) && bool_decide (r_final_year r = Some (cc_year i)) = false →
  ¬ WINNING_SCS ≤ cc_count i →
  CentreCount_save Game_save_reentered false i w = (w, Ok ()).
Proof.
  intros Hnd Hi Hg Hr Htrig Hwin. unfold CentreCount_save.
  erewrite bind_run; cycle 1.
  { unfold modify. rewrite set_centre_counts_id; [done|]. by apply save_row_id. }
  erewrite bind_run by (rewrite query_run, Hg; done).
  erewrite bind_run by (rewrite query_run, Hr; done).
  cbv zeta. rewrite Htrig.
  erewrite bind_run by done.
  by rewrite decide_False.
Qed.

(** What [get_or_create] has done: a row that was found or created is on
    record when it returns; when it raises, nothing has changed. *)
Lemma CentreCount_get_or_create_spec lookup w :
  match CentreCount_get_or_create Game_save_reentered lookup w with
  | (w', Ok i) =>
      i = lookup ∧ lookup ∈ centre_counts w' ∧
      ∃ table, w' = set_centre_counts (λ _, table) w ∧
        (table = centre_counts w ∨
         ((cc_key lookup ∉ cc_key <$> centre_counts w)
          ∧ table = centre_counts w ++ [lookup]))
  | (w', Err e) => w' = w
  end.
Proof.
  unfold CentreCount_get_or_create.
  destruct (filter (λ x, x = lookup) (centre_counts w)) as [|i [|i' rest]] eqn:Hf;
    simpl.
  - rewrite atomic_CentreCount_save_reentered.
    destruct (CentreCount_save _ _ _ _) as [w' [[]|e]] eqn:Hsave.
    + apply CentreCount_save_reentered_Ok in Hsave as (-> & Hnew & _).
      specialize (Hnew eq_refl).
      assert (save_row cc_key lookup (centre_counts w) = centre_counts w ++ [lookup])
        as Htable by (unfold save_row; by rewrite decide_False).
      split; [done|]. split.
      { simpl. rewrite Htable. apply elem_of_app. right. by left. }
      exists (centre_counts w ++ [lookup]). split; [|by right].
      unfold set_centre_counts. by rewrite Htable.
    + destruct e; try done. by rewrite Hf.
  - assert (i ∈ filter (λ x, x = lookup) (centre_counts w)) as Hi
      by (rewrite Hf; by left).
    apply list_elem_of_filter in Hi as [-> Hi]. split; [done|]. split; [done|].
    exists (centre_counts w). split; [|by left].
    by rewrite set_centre_counts_id.
  - done.
Qed.

Lemma CentreCount_get_or_create_id lookup w :
  NoDup (cc_key <$> centre_counts w) → lookup ∈ centre_counts w →
  CentreCount_get_or_create Game_save_reentered lookup w = (w, Ok lookup).
Proof.
  intros Hnd Hin. unfold CentreCount_get_or_create.
  by rewrite (qs_get_filter_eq cc_key).
Qed.

Lemma keeps_CentreCount_get_or_create (I : World → Prop) lookup :
  (∀ f w, I w → I (set_centre_counts f w)) →
  keeps I (CentreCount_get_or_create Game_save_reentered lookup).
Proof.
  intros HI w Hw.
  pose proof (CentreCount_get_or_create_spec lookup w) as H.
  destruct (CentreCount_get_or_create _ _ _) as [w' [i|e]]; simpl.
  - destruct H as (_ & _ & table & -> & _). by apply HI.
  - by subst w'.
Qed.

Section Game_save_1900.
Context (self : Game).

(** The round's final year does not make a year-1900 row complete the
    game. *)
Definition not_final_1900 (r : Round) : Prop :=
  truthy_opt (r_final_year r) && bool_decide (r_final_year r = Some (FIRST_YEAR - 1))
    = false.

(** What one turn of the loop that returns has found and done. *)
Lemma Game_save_1900_body_Ok power w w' :
  Game_save_1900_body self power w = (w', Ok ()) →
  ∃ table,
    w' = set_centre_counts (λ _, table) w ∧
    start_count self power ∈ table ∧
    (∀ row, row ∈ centre_counts w →
       cc_key row ≠ cc_key (start_count self power) → row ∈ table) ∧
    (NoDup (cc_key <$> centre_counts w) →
       NoDup (cc_key <$> table) ∧ ∀ row, row ∈ centre_counts w → row ∈ table) ∧
    (∃ g r, get_game (g_id self) w = Ok g ∧ get_round (the_round g) w = Ok r
            ∧ not_final_1900 r) ∧
    ¬ WINNING_SCS ≤ starting_centres power.
Proof.
  unfold Game_save_1900_body.
  intros (w1 & i & Hgoc & Hsave)%bind_Ok.
  pose proof (CentreCount_get_or_create_spec (start_count self power) w) as H.
  rewrite Hgoc in H. destruct H as (-> & Hin & table & -> & Htable).
  apply CentreCount_save_reentered_Ok in Hsave
    as (-> & _ & g & r & Hg & Hr & Htrig & Hwin).
  exists (save_row cc_key (start_count self power) table).
  split; [done|]. split; [apply save_row_elem_of|]. split; [|split; [|split]].
  - intros row Hrow Hkey. apply save_row_other; [|done].
    destruct Htable as [->|[_ ->]]; [done|]. apply elem_of_app. by left.
  - intros Hnd.
    assert (NoDup (cc_key <$> table)) as Hnd'.
    { destruct Htable as [->|[Hk ->]]; [done|].
      rewrite fmap_app. apply NoDup_app. split; [done|]. split.
      - by intros k Hk' ->%list_elem_of_singleton.
      - apply NoDup_singleton. }
    rewrite save_row_id by done. split; [done|].
    intros row Hrow. destruct Htable as [->|[_ ->]]; [done|].
    apply elem_of_app. by left.
  - by exists g, r.
  - done.
Qed.

(** The other way round. *)
Lemma Game_save_1900_body_id power w g r :
  NoDup (cc_key <$> centre_counts w) →
  start_count self power ∈ centre_counts w →
  get_game (g_id self) w = Ok g → get_round (the_round g) w = Ok r →
  not_final_1900 r →
  ¬ WINNING_SCS ≤ starting_centres power →
  Game_save_1900_body self power w = (w, Ok ()).
Proof.
  intros Hnd Hin Hg Hr Htrig Hwin. unfold Game_save_1900_body.
  erewrite bind_run; cycle 1.
  { by apply CentreCount_get_or_create_id. }
  by eapply CentreCount_save_reentered_id.
Qed.

(** The loop, when it runs to its end. *)
Lemma Game_save_1900_loop_Ok powers w w' :
  NoDup (gp_id <$> powers) →
  for_each_M powers (Game_save_1900_body self) w = (w', Ok ()) →
  ∃ table,
    w' = set_centre_counts (λ _, table) w ∧
    (∀ power, power ∈ powers → start_count self power ∈ table) ∧
    (∀ row, row ∈ centre_counts w →
       (∀ power, power ∈ powers → cc_key row ≠ cc_key (start_count self power)) →
       row ∈ table) ∧
    (NoDup (cc_key <$> centre_counts w) →
       NoDup (cc_key <$> table) ∧ ∀ row, row ∈ centre_counts w → row ∈ table) ∧
    (powers ≠ [] →
       ∃ g r, get_game (g_id self) w = Ok g ∧ get_round (the_round g) w = Ok r
              ∧ not_final_1900 r) ∧
    (∀ power, power ∈ powers → ¬ WINNING_SCS ≤ starting_centres power).
Proof.
  revert w. induction powers as [|power powers IH]; intros w Hnd Hrun.
  { injection Hrun as <-. exists (centre_counts w).
    split; [by rewrite set_centre_counts_id|].
    split; [by intros ? ?%elem_of_nil|]. split; [done|]. split; [done|].
    split; [done|]. by intros ? ?%elem_of_nil. }
  rewrite fmap_cons in Hnd. apply NoDup_cons in Hnd as [Hpower Hnd].
  cbn [for_each_M] in Hrun.
  apply bind_Ok in Hrun as (w1 & [] & Hbody & Hrest).
  apply Game_save_1900_body_Ok in Hbody
    as (table1 & -> & Hstart & Hother & Hnd1 & Hgr & Hwin).
  apply IH in Hrest as (table & -> & Hstarts & Hothers & Hnd2 & _ & Hwins); [|done].
  exists table. split; [done|]. split; [|split; [|split; [|split]]].
  - intros p [->|Hp]%elem_of_cons; [|by apply Hstarts].
    apply Hothers; [done|]. intros q Hq [= Hid].
    apply Hpower. rewrite Hid. by apply list_elem_of_fmap_2.
  - intros row Hrow Hkeys. apply Hothers.
    + simpl. apply Hother; [done|]. apply Hkeys. by left.
    + intros q Hq. apply Hkeys. by right.
  - intros Hnd0. destruct (Hnd1 Hnd0) as [Hnd1' Hin1].
    destruct (Hnd2 Hnd1') as [Hnd2' Hin2]. split; [done|].
    intros row Hrow. apply Hin2. simpl. by apply Hin1.
  - done.
  - intros p [->|Hp]%elem_of_cons; [done|by apply Hwins].
Qed.

Lemma Game_save_1900_Ok w w' :
  NoDup (gp_id <$> great_powers w) →
  Game_save_1900 self w = (w', Ok ()) →
  ∃ table,
    w' = set_centre_counts (λ _, table) (set_games (save_row g_id self) w) ∧
    (∀ power, power ∈ great_powers w → start_count self power ∈ table) ∧
    (NoDup (cc_key <$> centre_counts w) →
       NoDup (cc_key <$> table) ∧ ∀ row, row ∈ centre_counts w → row ∈ table) ∧
    (great_powers w ≠ [] →
       ∃ g r, get_game (g_id self) w' = Ok g ∧ get_round (the_round g) w' = Ok r
              ∧ not_final_1900 r) ∧
    (∀ power, power ∈ great_powers w → ¬ WINNING_SCS ≤ starting_centres power).
Proof.
  intros Hnd. unfold Game_save_1900.
  intros (w1 & [] & [= <-] & Hrun)%bind_Ok.
  apply bind_Ok in Hrun as (? & w1 & [= <- <-] & Hrun).
  apply Game_save_1900_loop_Ok in Hrun
    as (table & -> & Hstarts & _ & Hnd' & Hgr & Hwins); [|done].
  by exists table.
Qed.

End Game_save_1900.

(** [Game.save] keeps what its first part has brought about, as long as this
    is not about the stored scores, the images or the scoring systems. *)
Lemma Game_save_after_1900 (I : World → Prop) self w :
  (∀ f w, I w → I (set_G_SCORING_SYSTEMS f w)) →
  (∀ f w, I w → I (set_game_players f w)) →
  (∀ f w, I w → I (set_round_players f w)) →
  (∀ f w, I w → I (set_tournament_players f w)) →
  (∀ f w, I w → I (set_game_images f w)) →
  I (Game_save_1900 self w).1 → I (Game_save self w).1.
Proof.
  intros H1 H2 H3 H4 H5 HI. unfold Game_save.
  unfold mbind at 1, M_bind at 1.
  destruct (Game_save_1900 self w) as [w1 [[]|e]]; [|done].
  revert w1 HI. apply keeps_bind; [by apply keeps_Game_save_image|].
  intros _. destruct (is_finished self); [|apply keeps_ret].
  by apply keeps_Game_save_scores.
Qed.

Lemma Game_save_1900_returned self w :
  (Game_save self w).2 = Ok () → (Game_save_1900 self w).2 = Ok ().
Proof.
  unfold Game_save. unfold mbind at 1, M_bind at 1.
  by destruct (Game_save_1900 self w) as [w1 [[]|e]].
Qed.

Lemma Game_years_played_elem_of self w y :
  y ∈ Game_years_played self w ↔ ∃ sc, sc ∈ centrecount_set (g_id self) w ∧ cc_year sc = y.
Proof.
  unfold Game_years_played.
  rewrite merge_sort_Permutation, elem_of_remove_dups, list_elem_of_fmap.
  split; intros (sc & ? & ?); by exists sc.
Qed.

Lemma Game_final_year_Some self w :
  Game_years_played self w ≠ [] →
  ∃ y, Game_final_year self w = Ok y ∧ y ∈ Game_years_played self w.
Proof.
  intros Hne. unfold Game_final_year.
  destruct (last (Game_years_played self w)) as [y|] eqn:Hlast.
  - exists y. split; [done|].
    apply last_Some in Hlast as [l' ->]. apply elem_of_app. right. by left.
  - by apply last_None in Hlast.
Qed.

(** ** Facts about the loops that store scores *)

(** The three loops of [Game.save] that store scores have the same shape:
    for each row of a snapshot of a table, look the score up and save the
    row with it. *)
Section store.
Context {A : Type} `{EqDecision A}.
Context (id k : A → nat) (score : A → Qc) (set_score : Qc → A → A).
Context (table : World → list A) (set_table : (list A → list A) → World → World).
Context (id_set : ∀ s p, id (set_score s p) = id p).
Context (set_same : ∀ p, set_score (score p) p = p).
Context (table_set : ∀ f w, table (set_table f w) = f (table w)).
Context (set_set : ∀ f g w, set_table f (set_table g w) = set_table (λ t, f (g t)) w).
Context (set_id : ∀ f w, f (table w) = table w → set_table f w = w).
Context (set_ext : ∀ f g w, f (table w) = g (table w) → set_table f w = set_table g w).

Implicit Types (scores : scores_dict) (p : A) (l : list A).

(** The row as it is saved. *)
Definition stored scores p : A :=
  match scores !! k p with
  | Some s => set_score s p
  | None => p
  end.

(** The body that raises [KeyError], and the one that lets the row be. *)
Definition store_strict scores p : M () :=
  s ← query (λ _, dict_get scores (k p));
  modify (set_table (save_row id (set_score s p))).

Definition store_lax scores p : M () :=
  modify (set_table (save_row id (stored scores p))).

Lemma id_stored scores p : id (stored scores p) = id p.
Proof. unfold stored. by destruct (scores !! k p). Qed.

Lemma store_strict_Ok scores p w w' :
  store_strict scores p w = (w', Ok ()) →
  is_Some (scores !! k p) ∧ w' = set_table (save_row id (stored scores p)) w.
Proof.
  unfold store_strict, stored, dict_get.
  intros (? & s & Hs & Hm)%bind_Ok. rewrite query_run in Hs.
  destruct (scores !! k p) as [s'|]; [|done].
  injection Hs as <- <-. injection Hm as <-. by split; [eexists|].
Qed.

Lemma store_strict_run scores p w s :
  scores !! k p = Some s →
  store_strict scores p w = (set_table (save_row id (set_score s p)) w, Ok ()).
Proof.
  intros Hs. unfold store_strict, dict_get.
  erewrite bind_run by (rewrite query_run, Hs; done). done.
Qed.

(** What a loop over [l] that returned has done to the table, when each
    turn saved the row with its score. *)
Lemma store_loop_Ok scores (body : A → M ()) l w w' :
  (∀ p w w', body p w = (w', Ok ()) →
     w' = set_table (save_row id (stored scores p)) w) →
  NoDup (id <$> l) → (∀ p, p ∈ l → p ∈ table w) →
  for_each_M l body w = (w', Ok ()) →
  ∃ t,
    w' = set_table (λ _, t) w ∧
    id <$> t = id <$> table w ∧
    (∀ p, p ∈ l → stored scores p ∈ t) ∧
    (∀ y, y ∈ table w → id y ∉ id <$> l → y ∈ t).
Proof.
  intros Hbody. revert w. induction l as [|p l IH]; intros w Hnd Hin Hrun.
  { injection Hrun as <-. exists (table w). split; [by rewrite set_id|].
    split; [done|]. split; [by intros ? ?%elem_of_nil|done]. }
  rewrite fmap_cons in Hnd. apply NoDup_cons in Hnd as [Hp Hnd].
  cbn [for_each_M] in Hrun. apply bind_Ok in Hrun as (w1 & [] & Hrun1 & Hrun).
  apply Hbody in Hrun1 as ->.
  apply IH in Hrun as (t & -> & Hids & Hl & Hrest); [|done|]; cycle 1.
  { intros q Hq. rewrite table_set. apply save_row_other; [by apply Hin; right|].
    rewrite id_stored. intros Heq. apply Hp. rewrite <-Heq.
    by apply list_elem_of_fmap_2. }
  rewrite table_set in Hids, Hrest.
  exists t. split; [by rewrite set_set|]. split; [|split].
  - rewrite Hids, save_row_keys, id_stored.
    rewrite decide_True; [done|].
    apply list_elem_of_fmap_2, Hin. by left.
  - intros q [->|Hq]%elem_of_cons; [|by apply Hl].
    apply Hrest; [apply save_row_elem_of|]. by rewrite id_stored.
  - intros y Hy Hid. rewrite fmap_cons in Hid.
    apply not_elem_of_cons in Hid as [Hne Hid].
    apply Hrest; [|done]. apply save_row_other; [done|]. by rewrite id_stored.
Qed.

(** Every row of the table after the loop is a row that was saved or a row
    that was passed by. *)
Lemma store_loop_rows scores l (t0 t : list A) y :
  NoDup (id <$> t0) → (∀ p, p ∈ l → p ∈ t0) →
  id <$> t = id <$> t0 →
  (∀ p, p ∈ l → stored scores p ∈ t) →
  (∀ y, y ∈ t0 → id y ∉ id <$> l → y ∈ t) →
  y ∈ t →
  (∃ p, p ∈ l ∧ y = stored scores p) ∨ (y ∈ t0 ∧ id y ∉ id <$> l).
Proof.
  intros Hnd Hin Hids Hl Hrest Hy.
  assert (NoDup (id <$> t)) as Hnd' by by rewrite Hids.
  assert (id y ∈ id <$> t0) as Hid by (rewrite <-Hids; by apply list_elem_of_fmap_2).
  apply list_elem_of_fmap in Hid as (y0 & Hid & Hy0).
  destruct (decide (id y0 ∈ id <$> l)) as [Hidl|Hidl].
  - left. apply list_elem_of_fmap in Hidl as (p & Hp & Hpl).
    exists p. split; [done|].
    apply (NoDup_fmap_inj id t); [done|done|by apply Hl|].
    rewrite id_stored. congruence.
  - right. assert (y = y0) as ->; [|done].
    apply (NoDup_fmap_inj id t); [done|done|by apply Hrest|done].
Qed.

(** When the rows hold their scores already, the loops change nothing. *)
Lemma store_strict_loop_id scores l w :
  NoDup (id <$> table w) → (∀ p, p ∈ l → p ∈ table w) →
  (∀ p, p ∈ l → scores !! k p = Some (score p)) →
  for_each_M l (store_strict scores) w = (w, Ok ()).
Proof.
  intros Hnd Hin Hscores. induction l as [|p l IH]; [done|].
  cbn [for_each_M]. erewrite bind_run; cycle 1.
  { erewrite store_strict_run by (apply Hscores; by left).
    rewrite set_same, set_id; [done|]. apply save_row_id; [done|]. apply Hin. by left. }
  apply IH; intros q Hq; [apply Hin|apply Hscores]; by right.
Qed.

Lemma store_lax_loop_id scores l w :
  NoDup (id <$> table w) → (∀ p, p ∈ l → p ∈ table w) →
  (∀ p s, p ∈ l → scores !! k p = Some s → score p = s) →
  for_each_M l (store_lax scores) w = (w, Ok ()).
Proof.
  intros Hnd Hin Hscores. induction l as [|p l IH]; [done|].
  cbn [for_each_M]. erewrite bind_run; cycle 1.
  { unfold store_lax, modify.
    assert (stored scores p = p) as ->.
    { unfold stored. destruct (scores !! k p) as [s|] eqn:Hs; [|done].
      rewrite <-(Hscores p s); [done|by left|done]. }
    rewrite set_id; [done|]. apply save_row_id; [done|]. apply Hin. by left. }
  apply IH; intros q; [intros Hq; apply Hin|intros s Hq; apply Hscores]; by right.
Qed.
(** A loop with the body that raises has found every score. *)
Lemma store_strict_loop_found scores l w w' :
  for_each_M l (store_strict scores) w = (w', Ok ()) →
  ∀ p, p ∈ l → is_Some (scores !! k p).
Proof.
  revert w. induction l as [|p l IH]; intros w Hrun q Hq.
  { by apply elem_of_nil in Hq. }
  cbn [for_each_M] in Hrun. apply bind_Ok in Hrun as (w1 & [] & Hrun1 & Hrun).
  apply store_strict_Ok in Hrun1 as [Hs _].
  apply elem_of_cons in Hq as [->|Hq]; [done|]. by eapply IH.
Qed.

(** The loops change nothing of the rows but the score. *)
Lemma store_loop_fmap {B} (forget : A → B) scores (body : A → M ()) l w w' :
  (∀ s p, forget (set_score s p) = forget p) →
  (∀ p w w', body p w = (w', Ok ()) →
     w' = set_table (save_row id (stored scores p)) w) →
  NoDup (id <$> table w) → NoDup (id <$> l) → (∀ p, p ∈ l → p ∈ table w) →
  for_each_M l body w = (w', Ok ()) →
  forget <$> table w' = forget <$> table w.
Proof.
  intros Hforget Hbody. revert w.
  induction l as [|p l IH]; intros w Hnd Hndl Hin Hrun.
  { by injection Hrun as <-. }
  rewrite fmap_cons in Hndl. apply NoDup_cons in Hndl as [Hp Hndl].
  cbn [for_each_M] in Hrun. apply bind_Ok in Hrun as (w1 & [] & Hrun1 & Hrun).
  apply Hbody in Hrun1 as ->.
  apply IH in Hrun as ->; [|rewrite table_set; by apply save_row_NoDup|done|].
  - rewrite table_set. apply save_row_fmap.
    + intros y Hy Hid. rewrite id_stored in Hid.
      assert (y = p) as ->.
      { apply (NoDup_fmap_inj id (table w)); [done|done|apply Hin; by left|done]. }
      unfold stored. by destruct (scores !! k p).
    + rewrite id_stored. apply list_elem_of_fmap_2, Hin. by left.
  - intros q Hq. rewrite table_set. apply save_row_other; [apply Hin; by right|].
    rewrite id_stored. intros Heq. apply Hp. rewrite <-Heq.
    by apply list_elem_of_fmap_2.
Qed.

(** The loops of [Game.save] run over the rows of one game, round or
    tournament: a selection that does not look at the score. *)
Context (sel : A → Prop) `{!∀ p, Decision (sel p)}.
Context (k_set : ∀ s p, k (set_score s p) = k p).
Context (score_set : ∀ s p, score (set_score s p) = s).

Lemma k_stored scores p : k (stored scores p) = k p.
Proof. unfold stored. by destruct (scores !! k p). Qed.

(** After the loop, the selected rows are the selected rows of before, with
    their scores. *)
Lemma store_loop_selected scores (body : A → M ()) w w' :
  (∀ p w w', body p w = (w', Ok ()) →
     w' = set_table (save_row id (stored scores p)) w) →
  NoDup (id <$> table w) →
  for_each_M (filter sel (table w)) body w = (w', Ok ()) →
  (∃ t, w' = set_table (λ _, t) w) ∧
  NoDup (id <$> table w') ∧
  ∀ y, y ∈ table w' → sel y → ∃ p, p ∈ table w ∧ sel p ∧ y = stored scores p.
Proof.
  intros Hbody Hnd Hrun.
  assert (∀ p, p ∈ filter sel (table w) → p ∈ table w) as Hin.
  { by intros p [_ ?]%list_elem_of_filter. }
  pose proof (NoDup_fmap_filter id sel _ Hnd) as Hndl.
  destruct (store_loop_Ok scores body _ w w' Hbody Hndl Hin Hrun)
    as (t & -> & Hids & Hl & Hrest).
  rewrite table_set. split; [by exists t|]. split; [by rewrite Hids|].
  intros y Hy Hsel.
  destruct (store_loop_rows scores _ _ t y Hnd Hin Hids Hl Hrest Hy)
    as [(p & Hp & ->)|[Hy0 Hid]].
  - apply list_elem_of_filter in Hp as [? ?]. by exists p.
  - exfalso. apply Hid, list_elem_of_fmap_2, list_elem_of_filter. done.
Qed.

(** Running the loop again, on a world that has the table the loop left,
    changes nothing. *)
Lemma store_strict_again scores w w' :
  NoDup (id <$> table w) →
  for_each_M (filter sel (table w)) (store_strict scores) w = (w', Ok ()) →
  ∀ v, table v = table w' →
    for_each_M (filter sel (table v)) (store_strict scores) v = (v, Ok ()).
Proof.
  intros Hnd Hrun v Hv.
  pose proof (store_strict_loop_found _ _ _ _ Hrun) as Hfound.
  apply (store_loop_selected scores) in Hrun as (_ & Hnd' & Hrows); [|idtac|done].
  2: { intros p w0 w0' H0. by apply store_strict_Ok in H0 as [_ ?]. }
  rewrite <-Hv in Hnd', Hrows.
  apply store_strict_loop_id; [done|by intros p [_ ?]%list_elem_of_filter|].
  intros y [Hsel Hy]%list_elem_of_filter.
  destruct (Hrows y Hy Hsel) as (p & Hp & Hselp & ->).
  destruct (Hfound p) as [s Hs]; [by apply list_elem_of_filter|].
  rewrite k_stored, Hs. unfold stored. by rewrite Hs, score_set.
Qed.

Lemma store_lax_again scores w w' :
  NoDup (id <$> table w) →
  for_each_M (filter sel (table w)) (store_lax scores) w = (w', Ok ()) →
  ∀ v, table v = table w' →
    for_each_M (filter sel (table v)) (store_lax scores) v = (v, Ok ()).
Proof.
  intros Hnd Hrun v Hv.
  apply (store_loop_selected scores) in Hrun as (_ & Hnd' & Hrows); [|idtac|done].
  2: { intros p w0 w0' H0. by injection H0 as <-. }
  rewrite <-Hv in Hnd', Hrows.
  apply store_lax_loop_id; [done|by intros p [_ ?]%list_elem_of_filter|].
  intros y s [Hsel Hy]%list_elem_of_filter.
  destruct (Hrows y Hy Hsel) as (p & Hp & Hselp & ->).
  rewrite k_stored. unfold stored. intros Hs. by rewrite Hs, score_set.
Qed.
(** After the loop, the selected rows hold the scores of the dictionary. *)
Lemma store_strict_rows scores w w' :
  NoDup (id <$> table w) →
  for_each_M (filter sel (table w)) (store_strict scores) w = (w', Ok ()) →
  ∀ y, y ∈ table w' → sel y → scores !! k y = Some (score y).
Proof.
  intros Hnd Hrun y Hy Hsel.
  pose proof (store_strict_loop_found _ _ _ _ Hrun) as Hfound.
  apply (store_loop_selected scores) in Hrun as (_ & _ & Hrows); [|idtac|done].
  2: { intros p w0 w0' H0. by apply store_strict_Ok in H0 as [_ ?]. }
  destruct (Hrows y Hy Hsel) as (p & Hp & Hselp & ->).
  destruct (Hfound p) as [s Hs]; [by apply list_elem_of_filter|].
  rewrite k_stored, Hs. unfold stored. by rewrite Hs, score_set.
Qed.

Lemma store_lax_rows scores w w' :
  NoDup (id <$> table w) →
  for_each_M (filter sel (table w)) (store_lax scores) w = (w', Ok ()) →
  ∀ y s, y ∈ table w' → sel y → scores !! k y = Some s → score y = s.
Proof.
  intros Hnd Hrun y s Hy Hsel.
  apply (store_loop_selected scores) in Hrun as (_ & _ & Hrows); [|idtac|done].
  2: { intros p w0 w0' H0. by injection H0 as <-. }
  destruct (Hrows y Hy Hsel) as (p & Hp & Hselp & ->).
  rewrite k_stored. unfold stored. intros Hs. by rewrite Hs, score_set.
Qed.
End store.

(** ** Facts about [Game.scores] when it recalculates *)

Lemma find_scoring_system_from_Some {T} (name_of : T → string) name i l k s :
  find_scoring_system_from name_of name i l = Some (k, s) →
  (i ≤ k)%nat ∧ l !! (k - i)%nat = Some s ∧ name_of s = name.
Proof.
  revert i. induction l as [|s0 l IH]; intros i; simpl; [done|].
  case_decide as Hname.
  - intros [= <- <-]. rewrite Nat.sub_diag. done.
  - intros (Hi & Hl & Hs)%IH. split; [lia|]. split; [|done].
    by replace (k - i)%nat with (S (k - S i)) by lia.
Qed.

(** The system found is found again after it has been written to, its name
    being the same. *)
Lemma find_scoring_system_from_insert {T} (name_of : T → string) name i l k s s' :
  find_scoring_system_from name_of name i l = Some (k, s) →
  name_of s' = name →
  find_scoring_system_from name_of name i (<[(k - i)%nat := s']> l) = Some (k, s').
Proof.
  intros Hfind Hname. revert i Hfind.
  induction l as [|s0 l IH]; intros i; simpl; [done|].
  case_decide as Hname0.
  - intros [= <- <-]. rewrite Nat.sub_diag. simpl. by rewrite decide_True.
  - intros Hfind. pose proof (find_scoring_system_from_Some _ _ _ _ _ _ Hfind) as [Hi _].
    replace (k - i)%nat with (S (k - S i)) by lia. simpl.
    rewrite decide_False by done. by apply IH.
Qed.

Lemma find_scoring_system_Some {T} (name_of : T → string) name l k s :
  find_scoring_system name_of name l = Some (k, s) →
  l !! k = Some s ∧ name_of s = name.
Proof.
  intros (_ & Hk & Hs)%find_scoring_system_from_Some.
  by rewrite Nat.sub_0_r in Hk.
Qed.

Lemma find_scoring_system_insert {T} (name_of : T → string) name l k s s' :
  find_scoring_system name_of name l = Some (k, s) →
  name_of s' = name →
  find_scoring_system name_of name (<[k := s']> l) = Some (k, s').
Proof.
  intros Hfind Hname. unfold find_scoring_system.
  rewrite <-(Nat.sub_0_r k) at 1. by eapply find_scoring_system_from_insert.
Qed.

(** [Game.scores(True)], laid out. *)
Lemma Game_scores_live self w :
  Game_scores self true w =
    match get_round (the_round self) w with
    | Err e => (w, Err e)
    | Ok r =>
        match find_scoring_system gss_name (scoring_system r) (G_SCORING_SYSTEMS w) with
        | None => (w, Err InvalidScoringSystem)
        | Some (k, system) =>
            GameScoringSystem_scores k system (centrecount_set (g_id self) w) w
        end
    end.
Proof.
  unfold Game_scores. rewrite andb_false_r.
  unfold mbind at 1, M_bind at 1. rewrite query_run.
  destruct (get_round _ _) as [r|e]; [|done].
  unfold mbind at 1, M_bind at 1. rewrite query_run.
  by destruct (find_scoring_system _ _ _) as [[k system]|].
Qed.

(** A CDiplo instance whose position points a scoring leaves as they are
    has scored the game with them before: the scoring that wrote them
    returned the same. *)
Lemma GScoringCDiplo_scores_stable self centre_counts :
  let self' := (GScoringCDiplo_scores self centre_counts).1 in
  (GScoringCDiplo_scores self' centre_counts).1 = self' →
  GScoringCDiplo_scores self' centre_counts = GScoringCDiplo_scores self centre_counts.
Proof.
  unfold GScoringCDiplo_scores.
  destruct (_final_year_scs centre_counts) as [final_scs|e] eqn:Hfinal; simpl;
    [|done].
  unfold GScoringCDiplo_scores_of.
  pose proof (adjust_rank_score_stable final_scs (position_pts self)) as Hstable.
  destruct (adjust_rank_score final_scs (position_pts self)) as [pts' r] eqn:Hadj.
  simpl in *.
  destruct (adjust_rank_score final_scs pts') as [pts'' r'] eqn:Hadj'.
  simpl in *. intros [= Hpts]. specialize (Hstable Hpts).
  by injection Hstable as -> ->.
Qed.

Lemma GScoringCDiplo_scores_name self centre_counts :
  cd_name (GScoringCDiplo_scores self centre_counts).1 = cd_name self.
Proof.
  unfold GScoringCDiplo_scores, GScoringCDiplo_scores_of.
  destruct (_final_year_scs centre_counts); [|done].
  by destruct (adjust_rank_score _ _).
Qed.

(** Recalculating writes nowhere but to the scoring systems. *)
Lemma Game_scores_frame self force_recalculation w :
  let w' := (Game_scores self force_recalculation w).1 in
  w' = set_G_SCORING_SYSTEMS (λ _, G_SCORING_SYSTEMS w') w.
Proof.
  intros w'.
  assert (∀ G, set_G_SCORING_SYSTEMS (λ _, G) w' = set_G_SCORING_SYSTEMS (λ _, G) w) as H.
  { intros G. subst w'.
    by apply (keeps_Game_scores (λ x, set_G_SCORING_SYSTEMS (λ _, G) x
                                      = set_G_SCORING_SYSTEMS (λ _, G) w)). }
  rewrite <-H. by rewrite set_G_SCORING_SYSTEMS_id.
Qed.

(** Recalculating once more, when that leaves the scoring systems as the
    first recalculation left them, gives the same. *)
Lemma Game_scores_stable self w :
  let w' := (Game_scores self true w).1 in
  G_SCORING_SYSTEMS (Game_scores self true w').1 = G_SCORING_SYSTEMS w' →
  Game_scores self true w' = (w', (Game_scores self true w).2).
Proof.
  cbv zeta. rewrite (Game_scores_live self w).
  destruct (get_round (the_round self) w) as [rd|e] eqn:Hrd; cycle 1.
  { intros _. simpl. by rewrite Game_scores_live, Hrd. }
  destruct (find_scoring_system _ _ _) as [[k system]|] eqn:Hfind; cycle 1.
  { intros _. simpl. by rewrite Game_scores_live, Hrd, Hfind. }
  destruct system; unfold GameScoringSystem_scores; rewrite ?query_run.
  1,2,4: intros _; simpl; rewrite Game_scores_live, Hrd, Hfind; done.
  pose proof (GScoringCDiplo_scores_stable self0 (centrecount_set (g_id self) w))
    as Hstable.
  pose proof (GScoringCDiplo_scores_name self0 (centrecount_set (g_id self) w))
    as Hname.
  destruct (GScoringCDiplo_scores self0 _) as [self' r] eqn:Hscores.
  simpl in Hstable, Hname. cbn [fst snd].
  rewrite Game_scores_live.
  change (get_round (the_round self) (set_G_SCORING_SYSTEMS ?f w))
    with (get_round (the_round self) w).
  change (centrecount_set (g_id self) (set_G_SCORING_SYSTEMS ?f w))
    with (centrecount_set (g_id self) w).
  cbn [G_SCORING_SYSTEMS set_G_SCORING_SYSTEMS]. rewrite Hrd.
  pose proof (find_scoring_system_Some _ _ _ _ _ Hfind) as (Hk & Hn).
  erewrite (find_scoring_system_insert gss_name _ _ k _ (GScoringCDiplo self'));
    [|done|simpl in *; congruence].
  unfold GameScoringSystem_scores.
  change (centrecount_set (g_id self) (set_G_SCORING_SYSTEMS ?f w))
    with (centrecount_set (g_id self) w).
  destruct (GScoringCDiplo_scores self' _) as [self'' r'] eqn:Hscores'.
  cbn [fst G_SCORING_SYSTEMS set_G_SCORING_SYSTEMS]. intros Hsystems.
  assert (self'' = self') as ->.
  { apply (f_equal (λ l, l !! k)) in Hsystems.
    rewrite !list_lookup_insert_eq in Hsystems
      by (rewrite ?length_insert; by eapply lookup_lt_Some).
    congruence. }
  injection (Hstable eq_refl) as ->.
  f_equal. rewrite set_G_SCORING_SYSTEMS_id; [done|].
  cbn [G_SCORING_SYSTEMS set_G_SCORING_SYSTEMS].
  by rewrite list_insert_insert_eq.
Qed.

(** *** What recalculating reads *)

(** The players of the games with their scores blanked. *)
Definition erase_scores (l : list GamePlayer) : list GamePlayer :=
  set_gpl_score 0%Qc <$> l.

(** Worlds in which the games are played alike: all that the game scoring
    systems read is the same, the scores of the players apart. *)
Definition same_play (w v : World) : Prop :=
  great_powers w = great_powers v ∧ rounds w = rounds v ∧ games w = games v ∧
  centre_counts w = centre_counts v ∧ draw_proposals w = draw_proposals v ∧
  G_SCORING_SYSTEMS w = G_SCORING_SYSTEMS v ∧
  erase_scores (game_players w) = erase_scores (game_players v).

Lemma for_each_ext {A T} (l : list A) (f g : A → T → result T) s :
  (∀ x s, f x s = g x s) → for_each l f s = for_each l g s.
Proof.
  intros Hfg. revert s. induction l as [|x l IH]; intros s; simpl; [done|].
  rewrite Hfg. destruct (g x s); simpl; [apply IH|done].
Qed.

Lemma erase_scores_filter (P : GamePlayer → Prop) `{∀ p, Decision (P p)} l :
  (∀ s p, P (set_gpl_score s p) ↔ P p) →
  erase_scores (filter P l) = filter P (erase_scores l).
Proof.
  intros HP. unfold erase_scores.
  induction l as [|p l IH]; [done|].
  rewrite fmap_cons, !filter_cons.
  destruct (decide (P p)) as [Hp|Hp].
  - rewrite decide_True by by apply HP. by rewrite fmap_cons, IH.
  - rewrite decide_False by by rewrite HP. done.
Qed.

Section same_play.
Context (w v : World) (Hsame : same_play w v).

Lemma same_play_get_round r : get_round r w = get_round r v.
Proof. unfold get_round. by destruct Hsame as (_ & -> & _). Qed.

Lemma same_play_get_game g : get_game g w = get_game g v.
Proof. unfold get_game. by destruct Hsame as (_ & _ & -> & _). Qed.

Lemma same_play_centrecount_set g : centrecount_set g w = centrecount_set g v.
Proof. unfold centrecount_set. by destruct Hsame as (_ & _ & _ & -> & _). Qed.

Lemma same_play_passed_draw self : Game_passed_draw self w = Game_passed_draw self v.
Proof.
  unfold Game_passed_draw, drawproposal_set.
  by destruct Hsame as (_ & _ & _ & _ & -> & _).
Qed.

Lemma same_play_powers d : DrawProposal_powers d w = DrawProposal_powers d v.
Proof.
  unfold DrawProposal_powers.
  induction (DrawProposal_power_values d) as [|value values IH]; simpl; [done|].
  rewrite IH. destruct value as [[|n]|]; try done.
  unfold get_great_power. by destruct Hsame as (-> & _).
Qed.

(** [soloer] finds a player in the one world when it does in the other. *)
Lemma same_play_soloer self :
  match Game_soloer self w, Game_soloer self v with
  | Ok (Some _), Ok (Some _) | Ok None, Ok None => True
  | Err e, Err e' => e = e'
  | _, _ => False
  end.
Proof.
  unfold Game_soloer. rewrite same_play_centrecount_set.
  destruct (qs_index0 _) as [top|e]; simpl; [|done].
  case_decide; [|done].
  assert (length (filter (λ p, gpl_power p = cc_power top) (gameplayer_set (g_id self) w))
          = length (filter (λ p, gpl_power p = cc_power top)
                      (gameplayer_set (g_id self) v))) as Hlen.
  { rewrite <-(length_fmap (set_gpl_score 0%Qc)).
    rewrite <-(length_fmap (set_gpl_score 0%Qc) (filter _ (gameplayer_set _ v))).
    fold (erase_scores (filter (λ p, gpl_power p = cc_power top)
                          (gameplayer_set (g_id self) w))).
    fold (erase_scores (filter (λ p, gpl_power p = cc_power top)
                          (gameplayer_set (g_id self) v))).
    unfold gameplayer_set. rewrite !erase_scores_filter by done.
    by destruct Hsame as (_ & _ & _ & _ & _ & _ & ->). }
  destruct (filter _ (gameplayer_set _ w)) as [|p1 [|p2 l1]];
    destruct (filter _ (gameplayer_set _ v)) as [|q1 [|q2 l2]]; simpl in *; done.
Qed.

Lemma same_play_GScoringDrawSize_scores centre_counts :
  GScoringDrawSize_scores centre_counts w = GScoringDrawSize_scores centre_counts v.
Proof.
  unfold GScoringDrawSize_scores, _the_game.
  destruct (head centre_counts) as [sc|]; [|done].
  rewrite same_play_get_game. destruct (get_game _ v) as [the_game|]; simpl; [|done].
  unfold Game_is_dias. rewrite same_play_get_round.
  destruct (get_round _ v) as [r|]; simpl; [|done].
  rewrite same_play_passed_draw.
  destruct (Game_passed_draw the_game v) as [draw|]; simpl; [|done].
  destruct (_survivor_count centre_counts) as [survivors|]; simpl; [|done].
  pose proof (same_play_soloer the_game) as Hsoloer.
  assert (∀ draw' survivors' soloed final_scs retval,
    for_each final_scs (GScoringDrawSize_body w draw' survivors' soloed) retval =
    for_each final_scs (GScoringDrawSize_body v draw' survivors' soloed) retval) as Hloop.
  { intros draw' survivors' soloed final_scs retval.
    apply for_each_ext. intros sc' retval'. unfold GScoringDrawSize_body.
    destruct draw' as [d|]; [|done].
    unfold DrawProposal_draw_size. by rewrite same_play_powers. }
  destruct (Game_soloer the_game w) as [[gp|]|e], (Game_soloer the_game v) as [[gp'|]|e'];
    simpl in Hsoloer |- *; try done.
  all: subst; destruct (_final_year_scs centre_counts); simpl;
    first [apply Hloop | done].
Qed.

(** Recalculating the scores of a game gives the same in both worlds. *)
Lemma same_play_Game_scores self :
  (Game_scores self true w).2 = (Game_scores self true v).2 ∧
  G_SCORING_SYSTEMS (Game_scores self true w).1
    = G_SCORING_SYSTEMS (Game_scores self true v).1.
Proof.
  rewrite !Game_scores_live. rewrite same_play_get_round.
  assert (G_SCORING_SYSTEMS w = G_SCORING_SYSTEMS v) as HG
    by by destruct Hsame as (_ & _ & _ & _ & _ & -> & _).
  rewrite HG, same_play_centrecount_set.
  destruct (get_round _ v) as [r|]; [|done].
  destruct (find_scoring_system _ _ _) as [[k system]|]; [|done].
  destruct system; unfold GameScoringSystem_scores; rewrite ?query_run; try done.
  - by rewrite same_play_GScoringDrawSize_scores.
  - destruct (GScoringCDiplo_scores _ _) as [self' r']. simpl. by rewrite HG.
Qed.
End same_play.

(** ** Facts about the scores of finished rounds and tournaments *)

(** When each [scores] only reads, so does collecting them. *)
Lemma collect_scores_read {A} (key : A → nat) (scores : A → M scores_dict)
    (stored : A → scores_dict) l acc w :
  (∀ x, x ∈ l → scores x w = (w, Ok (stored x))) →
  collect_scores key scores l acc w =
    (w, Ok (foldl (λ acc x, <[key x := stored x]> acc) acc l)).
Proof.
  revert acc. induction l as [|x l IH]; intros acc Hl; [done|].
  cbn [collect_scores foldl]. erewrite bind_run by (apply Hl; by left).
  apply IH. intros y Hy. apply Hl. by right.
Qed.

(** What [Round.scores(True)] returns for a finished round: the best of the
    stored game scores. *)
Definition Round_scores_stored (self : Round) (w : World) : result scores_dict :=
  match get_tournament (r_tournament self) w with
  | Err e => Err e
  | Ok t =>
      match find_scoring_system rss_name (round_scoring_system t) R_SCORING_SYSTEMS with
      | None => Err InvalidScoringSystem
      | Some (_, RScoringBest) =>
          let game_players := game_players_of_round (r_id self) w in
          for_each (gpl_player <$> game_players)
            (RScoringBest_body game_players
               (foldl (λ acc g, <[g_id g := Game_stored_scores g w]> acc) ∅
                  (games_of game_players w))) ∅
      end
  end.

Lemma Round_is_finished_game self w g :
  Round_is_finished self w = true → g ∈ game_set (r_id self) w → is_finished g = true.
Proof.
  unfold Round_is_finished. case_decide; [done|].
  intros Hall Hg. rewrite forallb_forall in Hall.
  apply Hall. by apply list_elem_of_In.
Qed.

Lemma games_of_finished self w g :
  NoDup (g_id <$> games w) → Round_is_finished self w = true →
  g ∈ games_of (game_players_of_round (r_id self) w) w → is_finished g = true.
Proof.
  intros Hnd Hfin Hg. unfold games_of in Hg.
  apply list_elem_of_bind in Hg as (g1 & Hg & Hg1).
  apply list_elem_of_bind in Hg as (p & Hg & Hp).
  apply list_elem_of_singleton in Hg as ->.
  apply list_elem_of_filter in Hp as [Hid Hp].
  apply list_elem_of_filter in Hp as [Hp _].
  apply list_elem_of_fmap in Hp as (g2 & Hid2 & Hg2).
  assert (g2 = g1) as ->.
  { apply (NoDup_fmap_inj g_id (games w)); [done| |done|congruence].
    by apply list_elem_of_filter in Hg2 as [_ ?]. }
  by eapply Round_is_finished_game.
Qed.

Lemma Round_scores_finished self w :
  NoDup (g_id <$> games w) → Round_is_finished self w = true →
  Round_scores self true w = (w, Round_scores_stored self w).
Proof.
  intros Hnd Hfin. unfold Round_scores, Round_scores_stored.
  erewrite bind_run by apply query_run. rewrite andb_false_r.
  unfold mbind at 1, M_bind at 1. rewrite query_run.
  destruct (get_tournament _ _) as [t|e]; [|done].
  destruct (find_scoring_system _ _ _) as [[k []]|]; [|done].
  unfold RScoringBest_scores.
  erewrite bind_run by apply query_run.
  erewrite bind_run; [by rewrite query_run|].
  apply collect_scores_read. intros g Hg.
  unfold Game_scores. by rewrite (games_of_finished self w g).
Qed.

(** It reads the tournaments, the games and the players of the games. *)
Lemma Round_scores_stored_reads self w v :
  tournaments w = tournaments v → games w = games v →
  game_players w = game_players v →
  Round_scores_stored self w = Round_scores_stored self v.
Proof.
  intros Ht Hg Hp.
  unfold Round_scores_stored, get_tournament, game_players_of_round, game_set,
    games_of, Game_stored_scores, gameplayer_set.
  by rewrite Ht, Hg, Hp.
Qed.

Lemma Round_is_finished_reads self w v :
  games w = games v → Round_is_finished self w = Round_is_finished self v.
Proof. intros Hg. unfold Round_is_finished, game_set. by rewrite Hg. Qed.

(** What [Tournament.scores(True)] returns for a finished tournament: the
    sum of the best stored round scores. *)
Definition Tournament_scores_stored (self : Tournament) (w : World) : result scores_dict :=
  match find_scoring_system ts_name (tournament_scoring_system self) T_SCORING_SYSTEMS with
  | None => Err InvalidScoringSystem
  | Some (_, system) =>
      let round_players := round_players_of_tournament (t_id self) w in
      Ok (foldl (λ retval p,
                   TScoringSum_body system round_players
                     (foldl (λ acc r, <[r_id r := Round_stored_scores r w]> acc) ∅
                        (rounds_of round_players w)) p retval) ∅
            (rp_player <$> round_players))
  end.

Lemma rounds_of_finished self w r :
  NoDup (r_id <$> rounds w) → Tournament_is_finished self w = true →
  r ∈ rounds_of (round_players_of_tournament (t_id self) w) w →
  Round_is_finished r w = true.
Proof.
  intros Hnd Hfin Hr. unfold rounds_of in Hr.
  apply list_elem_of_bind in Hr as (r1 & Hr & Hr1).
  apply list_elem_of_bind in Hr as (p & Hr & Hp).
  apply list_elem_of_singleton in Hr as ->.
  apply list_elem_of_filter in Hp as [Hid Hp].
  apply list_elem_of_filter in Hp as [Hp _].
  apply list_elem_of_fmap in Hp as (r2 & Hid2 & Hr2).
  assert (r2 = r1) as ->.
  { apply (NoDup_fmap_inj r_id (rounds w)); [done| |done|congruence].
    by apply list_elem_of_filter in Hr2 as [_ ?]. }
  unfold Tournament_is_finished in Hfin. rewrite forallb_forall in Hfin.
  apply Hfin. by apply list_elem_of_In.
Qed.

Lemma Tournament_scores_finished self w :
  NoDup (r_id <$> rounds w) → Tournament_is_finished self w = true →
  Tournament_scores self true w = (w, Tournament_scores_stored self w).
Proof.
  intros Hnd Hfin. unfold Tournament_scores, Tournament_scores_stored.
  erewrite bind_run by apply query_run. rewrite andb_false_r.
  destruct (find_scoring_system _ _ _) as [[k system]|]; [|done].
  unfold TScoringSum_scores.
  erewrite bind_run by apply query_run.
  erewrite bind_run; [done|].
  apply collect_scores_read. intros r Hr.
  unfold Round_scores. erewrite bind_run by apply query_run.
  by rewrite (rounds_of_finished self w r).
Qed.

(** It reads the rounds and the players of the rounds. *)
Lemma Tournament_scores_stored_reads self w v :
  rounds w = rounds v → round_players w = round_players v →
  Tournament_scores_stored self w = Tournament_scores_stored self v.
Proof.
  intros Hr Hp.
  unfold Tournament_scores_stored, round_players_of_tournament, round_set,
    rounds_of, Round_stored_scores, roundplayer_set.
  by rewrite Hr, Hp.
Qed.

Lemma Tournament_is_finished_reads self w v :
  rounds w = rounds v → games w = games v →
  Tournament_is_finished self w = Tournament_is_finished self v.
Proof.
  intros Hr Hg. unfold Tournament_is_finished, round_set. rewrite Hr.
  induction (filter _ _) as [|r l IH]; [done|]. simpl.
  by rewrite IH, (Round_is_finished_reads r w v).
Qed.

(** ** Facts about saving a game again *)

(** The three tables of scores. *)
Lemma set_game_players_id f w :
  f (game_players w) = game_players w → set_game_players f w = w.
Proof. destruct w. unfold set_game_players. simpl. by intros ->. Qed.

Lemma set_round_players_id f w :
  f (round_players w) = round_players w → set_round_players f w = w.
Proof. destruct w. unfold set_round_players. simpl. by intros ->. Qed.

Lemma set_tournament_players_id f w :
  f (tournament_players w) = tournament_players w → set_tournament_players f w = w.
Proof. destruct w. unfold set_tournament_players. simpl. by intros ->. Qed.

(** The bodies of the three loops of [Game.save] that store scores. *)
Definition store_game_score : scores_dict → GamePlayer → M () :=
  store_strict gpl_id gpl_power set_gpl_score set_game_players.
Definition store_round_score : scores_dict → RoundPlayer → M () :=
  store_lax rp_id rp_player set_rp_score set_round_players.
Definition store_tournament_score : scores_dict → TournamentPlayer → M () :=
  store_strict tp_id tp_player set_tp_score set_tournament_players.

Lemma store_game_score_Ok scores p w w' :
  store_game_score scores p w = (w', Ok ()) →
  w' = set_game_players (save_row gpl_id (stored gpl_power set_gpl_score scores p)) w.
Proof. intros H. by apply store_strict_Ok in H as [_ ?]. Qed.

Lemma store_round_score_Ok scores p w w' :
  store_round_score scores p w = (w', Ok ()) →
  w' = set_round_players (save_row rp_id (stored rp_player set_rp_score scores p)) w.
Proof. intros H. by injection H as <-. Qed.

Lemma store_tournament_score_Ok scores p w w' :
  store_tournament_score scores p w = (w', Ok ()) →
  w' = set_tournament_players
         (save_row tp_id (stored tp_player set_tp_score scores p)) w.
Proof. intros H. by apply store_strict_Ok in H as [_ ?]. Qed.

Lemma store_game_score_again g scores w w' :
  NoDup (gpl_id <$> game_players w) →
  for_each_M (gameplayer_set g w) (store_game_score scores) w = (w', Ok ()) →
  (∃ t, w' = set_game_players (λ _, t) w) ∧
  erase_scores (game_players w') = erase_scores (game_players w) ∧
  ∀ v, game_players v = game_players w' →
    for_each_M (gameplayer_set g v) (store_game_score scores) v = (v, Ok ()).
Proof.
  intros Hnd Hrun. split; [|split].
  - apply (store_loop_selected gpl_id gpl_power set_gpl_score game_players
             set_game_players ltac:(done) ltac:(done) ltac:(done)
             set_game_players_id (λ p, gpl_game p = g) scores _ w w'
             (store_game_score_Ok scores) Hnd Hrun).
  - apply (store_loop_fmap gpl_id gpl_power set_gpl_score game_players
             set_game_players ltac:(done) ltac:(done) (set_gpl_score 0%Qc)
             scores (store_game_score scores) (gameplayer_set g w) w w'
             ltac:(done) (store_game_score_Ok scores) Hnd);
      [|by intros p [_ ?]%list_elem_of_filter|done].
    by apply NoDup_fmap_filter.
  - apply (store_strict_again gpl_id gpl_power gpl_score set_gpl_score game_players
             set_game_players ltac:(done) ltac:(by intros []) ltac:(done) ltac:(done)
             set_game_players_id (λ p, gpl_game p = g) ltac:(done) ltac:(done)
             scores w w' Hnd Hrun).
Qed.

Lemma store_round_score_again r scores w w' :
  NoDup (rp_id <$> round_players w) →
  for_each_M (roundplayer_set r w) (store_round_score scores) w = (w', Ok ()) →
  (∃ t, w' = set_round_players (λ _, t) w) ∧
  ∀ v, round_players v = round_players w' →
    for_each_M (roundplayer_set r v) (store_round_score scores) v = (v, Ok ()).
Proof.
  intros Hnd Hrun. split.
  - apply (store_loop_selected rp_id rp_player set_rp_score round_players
             set_round_players ltac:(done) ltac:(done) ltac:(done)
             set_round_players_id (λ p, rp_the_round p = r) scores _ w w'
             (store_round_score_Ok scores) Hnd Hrun).
  - apply (store_lax_again rp_id rp_player rp_score set_rp_score round_players
             set_round_players ltac:(done) ltac:(by intros []) ltac:(done) ltac:(done)
             set_round_players_id (λ p, rp_the_round p = r) ltac:(done) ltac:(done)
             scores w w' Hnd Hrun).
Qed.

Lemma store_tournament_score_again t scores w w' :
  NoDup (tp_id <$> tournament_players w) →
  for_each_M (tournamentplayer_set t w) (store_tournament_score scores) w = (w', Ok ()) →
  (∃ t, w' = set_tournament_players (λ _, t) w) ∧
  ∀ v, tournament_players v = tournament_players w' →
    for_each_M (tournamentplayer_set t v) (store_tournament_score scores) v = (v, Ok ()).
Proof.
  intros Hnd Hrun. split.
  - apply (store_loop_selected tp_id tp_player set_tp_score tournament_players
             set_tournament_players ltac:(done) ltac:(done) ltac:(done)
             set_tournament_players_id (λ p, tp_tournament p = t) scores _ w w'
             (store_tournament_score_Ok scores) Hnd Hrun).
  - apply (store_strict_again tp_id tp_player tp_score set_tp_score tournament_players
             set_tournament_players ltac:(done) ltac:(by intros []) ltac:(done)
             ltac:(done) set_tournament_players_id (λ p, tp_tournament p = t)
             ltac:(done) ltac:(done) scores w w' Hnd Hrun).
Qed.

(** [Game.scores(True)] gives the same on two databases with the same play,
    when it leaves the first as it is. *)
Lemma Game_scores_same_play self w v scores :
  same_play w v →
  Game_scores self true w = (w, Ok scores) →
  Game_scores self true v = (v, Ok scores).
Proof.
  intros Hsame Hw.
  destruct (same_play_Game_scores w v Hsame self) as [Hr HG].
  rewrite Hw in Hr, HG. simpl in Hr, HG.
  pose proof (Game_scores_frame self true v) as Hframe. simpl in Hframe.
  destruct (Game_scores self true v) as [v' r] eqn:Hv. simpl in *. subst r.
  f_equal. rewrite Hframe. apply set_G_SCORING_SYSTEMS_id.
  rewrite <-HG. by destruct Hsame as (_ & _ & _ & _ & _ & -> & _).
Qed.

(** The third part of [Game.save], run again on the database that it left:
    the scores come out the same, and every row holds its score already. *)
Lemma Game_save_scores_again self w w' :
  NoDup (g_id <$> games w) → NoDup (r_id <$> rounds w) →
  NoDup (gpl_id <$> game_players w) → NoDup (rp_id <$> round_players w) →
  NoDup (tp_id <$> tournament_players w) →
  Game_save_scores self w = (w', Ok ()) →
  G_SCORING_SYSTEMS (Game_scores self true w').1 = G_SCORING_SYSTEMS w' →
  Game_save_scores self w' = (w', Ok ()).
Proof.
  intros Hg Hr Hgp Hrp Htp Hrun Hsystems. unfold Game_save_scores in Hrun.
  apply bind_Ok in Hrun as (wc & sc & Hsc & Hrun).
  apply bind_Ok in Hrun as (? & ? & [= <- <-] & Hrun).
  apply bind_Ok in Hrun as (wd & [] & Hgame & Hrun).
  apply bind_Ok in Hrun as (? & r & [= <- Hr'] & Hrun).
  apply bind_Ok in Hrun as (? & ? & [= <- <-] & Hrun).
  apply bind_Ok in Hrun as (we & [] & Hround & Hrun).
  apply bind_Ok in Hrun as (? & t & [= <- Ht'] & Hrun).
  apply bind_Ok in Hrun as (? & ? & [= <- <-] & Hrun).
  pose proof (Game_scores_frame self true w) as Hc. rewrite Hsc in Hc. simpl in Hc.
  remember (G_SCORING_SYSTEMS wc) as G eqn:HG. clear HG.
  assert (NoDup (gpl_id <$> game_players wc)) as HgpC by by rewrite Hc.
  destruct (store_game_score_again _ _ _ _ HgpC Hgame) as ((t1 & Hd) & Herase & Hgame').
  assert (NoDup (g_id <$> games wd)) as HgD by by rewrite Hd, Hc.
  assert (NoDup (rp_id <$> round_players wd)) as HrpD by by rewrite Hd, Hc.
  assert ((∃ t2, we = set_round_players (λ _, t2) wd) ∧
          (Round_is_finished r wd = true →
           ∃ rs, Round_scores_stored r wd = Ok rs ∧
             ∀ v, round_players v = round_players we →
               for_each_M (roundplayer_set (r_id r) v) (store_round_score rs) v
                 = (v, Ok ()))) as [[t2 He] Hround'].
  { destruct (Round_is_finished r wd) eqn:Hfin.
    - apply bind_Ok in Hround as (? & rs & Hrs & Hround).
      rewrite Round_scores_finished in Hrs by done. injection Hrs as <- Hrs.
      apply bind_Ok in Hround as (? & ? & [= <- <-] & Hround).
      destruct (store_round_score_again _ _ _ _ HrpD Hround) as [Hframe Hround'].
      split; [done|]. intros _. by exists rs.
    - injection Hround as <-. split; [|done].
      exists (round_players wd). symmetry. by apply set_round_players_id. }
  assert (NoDup (r_id <$> rounds we)) as HrE by by rewrite He, Hd, Hc.
  assert (NoDup (tp_id <$> tournament_players we)) as HtpE by by rewrite He, Hd, Hc.
  assert ((∃ t3, w' = set_tournament_players (λ _, t3) we) ∧
          (Tournament_is_finished t we = true →
           ∃ ts, Tournament_scores_stored t we = Ok ts ∧
             ∀ v, tournament_players v = tournament_players w' →
               for_each_M (tournamentplayer_set (t_id t) v)
                 (store_tournament_score ts) v = (v, Ok ()))) as [[t3 Hw'] Htour'].
  { destruct (Tournament_is_finished t we) eqn:Hfin.
    - apply bind_Ok in Hrun as (? & ts & Hts & Hrun).
      rewrite Tournament_scores_finished in Hts by done. injection Hts as <- Hts.
      apply bind_Ok in Hrun as (? & ? & [= <- <-] & Hrun).
      destruct (store_tournament_score_again _ _ _ _ HtpE Hrun) as [Hframe Htour'].
      split; [done|]. intros _. by exists ts.
    - injection Hrun as <-. split; [|done].
      exists (tournament_players we). symmetry. by apply set_tournament_players_id. }
  clear Hround Hrun Hgame.
  assert (same_play wc w') as Hsame.
  { rewrite Hw', He. repeat split; try by rewrite Hd. by rewrite <-Herase. }
  assert (Game_scores self true wc = (wc, Ok sc)) as Hagain.
  { pose proof (Game_scores_stable self w) as Hstable.
    rewrite Hsc in Hstable. apply Hstable. simpl.
    destruct (same_play_Game_scores wc w' Hsame self) as [_ ->].
    rewrite Hsystems. by destruct Hsame as (_ & _ & _ & _ & _ & -> & _). }
  assert (games w' = games wd) as Hgames by by rewrite Hw', He.
  assert (rounds w' = rounds wd) as Hrounds by by rewrite Hw', He.
  assert (tournaments w' = tournaments wd) as Htournaments by by rewrite Hw', He.
  assert (game_players w' = game_players wd) as Hgps by by rewrite Hw', He.
  assert (round_players w' = round_players we) as Hrps by by rewrite Hw'.
  assert (rounds w' = rounds we) as Hrounds' by by rewrite Hw'.
  assert (games w' = games we) as Hgames' by by rewrite Hw'.
  assert (tournaments w' = tournaments we) as Htournaments' by by rewrite Hw'.
  unfold Game_save_scores.
  erewrite bind_run by (by apply (Game_scores_same_play self wc w')).
  erewrite bind_run by apply query_run.
  erewrite bind_run by (by apply Hgame').
  erewrite bind_run; cycle 1.
  { rewrite query_run. unfold get_round in *. by rewrite Hrounds, Hr'. }
  erewrite bind_run by apply query_run.
  erewrite bind_run; cycle 1.
  { rewrite (Round_is_finished_reads r w' wd Hgames).
    destruct (Round_is_finished r wd) eqn:Hfin; [|done].
    destruct (Hround' eq_refl) as (rs & Hrs & Hloop).
    erewrite bind_run; cycle 1.
    { rewrite Round_scores_finished.
      - by rewrite (Round_scores_stored_reads r w' wd), Hrs.
      - by rewrite Hgames.
      - by rewrite (Round_is_finished_reads r w' wd Hgames). }
    erewrite bind_run by apply query_run. by apply Hloop. }
  erewrite bind_run; cycle 1.
  { rewrite query_run. unfold get_tournament in *. by rewrite Htournaments', Ht'. }
  erewrite bind_run by apply query_run.
  rewrite (Tournament_is_finished_reads t w' we Hrounds' Hgames').
  destruct (Tournament_is_finished t we) eqn:Hfin; [|done].
  destruct (Htour' eq_refl) as (ts & Hts & Hloop).
  erewrite bind_run; cycle 1.
  { rewrite Tournament_scores_finished.
    - by rewrite (Tournament_scores_stored_reads t w' we), Hts.
    - by rewrite Hrounds'.
    - by rewrite (Tournament_is_finished_reads t w' we Hrounds' Hgames'). }
  erewrite bind_run by apply query_run. by apply Hloop.
Qed.

(** The second part of [Game.save], run again. *)
Lemma Game_save_image_again self w w' :
  NoDup (gi_key <$> game_images w) →
  Game_save_image self w = (w', Ok ()) →
  (∃ t, w' = set_game_images (λ _, t) w) ∧
  ∀ v, game_images v = game_images w' → Game_save_image self v = (v, Ok ()).
Proof.
  intros Hnd Hrun. unfold Game_save_image in Hrun.
  apply bind_Ok in Hrun as (w1 & i & Hget & Hrun).
  unfold GameImage_get_or_create in Hget.
  pose proof (get_or_create_spec gi_key (start_image self) (game_images w)) as Hspec.
  destruct (get_or_create gi_key _ _) as [table r].
  injection Hget as <- ->. destruct Hspec as (-> & Hin & Htable).
  injection Hrun as <-.
  assert (NoDup (gi_key <$> table)) as Hnd'.
  { destruct Htable as [->|[Hnew ->]]; [done|].
    rewrite fmap_app. apply NoDup_app. split; [done|]. split; [|apply NoDup_singleton].
    intros k Hk ->%list_elem_of_singleton. done. }
  split.
  { exists (save_row gi_key (start_image self) table). done. }
  intros v Hv. simpl in Hv. rewrite save_row_id in Hv by done.
  unfold Game_save_image. erewrite bind_run; cycle 1.
  { unfold GameImage_get_or_create. rewrite Hv, get_or_create_id by done.
    rewrite set_game_images_id by done. done. }
  unfold modify. rewrite set_game_images_id; [done|].
  rewrite Hv. by apply save_row_id.
Qed.

Lemma Game_save_1900_loop_id self (powers : list GreatPower) v g r :
  NoDup (cc_key <$> centre_counts v) →
  (∀ power, power ∈ powers → start_count self power ∈ centre_counts v) →
  get_game (g_id self) v = Ok g → get_round (the_round g) v = Ok r →
  not_final_1900 r →
  (∀ power, power ∈ powers → ¬ (WINNING_SCS ≤ starting_centres power)%Z) →
  for_each_M powers (Game_save_1900_body self) v = (v, Ok ()).
Proof.
  intros Hnd Hin Hg Hr Hfinal Hwin. induction powers as [|power powers IH]; [done|].
  cbn [for_each_M]. erewrite bind_run; cycle 1.
  { eapply Game_save_1900_body_id; [done|apply Hin; by left|done|done|done|].
    apply Hwin. by left. }
  apply IH; intros p Hp; [apply Hin|apply Hwin]; by right.
Qed.

(** The first part of [Game.save], run again. *)
Lemma Game_save_1900_again self w w' :
  NoDup (gp_id <$> great_powers w) → NoDup (g_id <$> games w) →
  NoDup (cc_key <$> centre_counts w) →
  Game_save_1900 self w = (w', Ok ()) →
  (∃ t, w' = set_centre_counts (λ _, t) (set_games (save_row g_id self) w)) ∧
  NoDup (g_id <$> games w') ∧ NoDup (cc_key <$> centre_counts w') ∧
  ∀ v, great_powers v = great_powers w' → rounds v = rounds w' →
    games v = games w' → centre_counts v = centre_counts w' →
    Game_save_1900 self v = (v, Ok ()).
Proof.
  intros Hgp Hg Hcc Hrun.
  apply Game_save_1900_Ok in Hrun as (table & -> & Hin & Hnd & Hround & Hwin); [|done].
  destruct (Hnd Hcc) as [Hnd' _]. cbn.
  split; [by exists table|]. split; [by apply save_row_NoDup|]. split; [done|].
  intros v Hgpv Hrv Hgv Hccv.
  unfold Game_save_1900. erewrite bind_run; cycle 1.
  { unfold modify. rewrite set_games_id; [done|].
    rewrite Hgv. apply save_row_id; [by apply save_row_NoDup|apply save_row_elem_of]. }
  erewrite bind_run by apply query_run. rewrite Hgpv.
  destruct (great_powers w) as [|power powers] eqn:Hpowers; [done|].
  destruct Hround as (g & r & Hg' & Hr' & Hfinal); [done|].
  apply (Game_save_1900_loop_id self _ v g r).
  - by rewrite Hccv.
  - intros p Hp. rewrite Hccv. by apply Hin.
  - unfold get_game in *. by rewrite Hgv.
  - unfold get_round in *. by rewrite Hrv.
  - done.
  - done.
Qed.

(** What the third part leaves as it is. *)
Lemma Game_save_scores_frame self w :
  let w' := (Game_save_scores self w).1 in
  great_powers w' = great_powers w ∧ rounds w' = rounds w ∧ games w' = games w ∧
  centre_counts w' = centre_counts w ∧ game_images w' = game_images w.
Proof.
  apply (keeps_Game_save_scores
           (λ v, great_powers v = great_powers w ∧ rounds v = rounds w ∧
                 games v = games w ∧ centre_counts v = centre_counts w ∧
                 game_images v = game_images w)); done.
Qed.

(** ** Facts about years, leaders and rounds in progress *)

Lemma sorted_last_max (l : list Z) y :
  StronglySorted Z.le l → last l = Some y → ∀ x, x ∈ l → x ≤ y.
Proof.
  induction 1 as [|x l Hl IH Hx]; intros Hlast z Hz; [by apply elem_of_nil in Hz|].
  destruct l as [|x' l'].
  - injection Hlast as <-. by apply list_elem_of_singleton in Hz as ->.
  - change (last (x' :: l') = Some y) in Hlast.
    apply elem_of_cons in Hz as [->|Hz]; [|by apply IH].
    rewrite Forall_forall in Hx. apply Hx. by eapply last_Some_elem_of.
Qed.

Lemma StronglySorted_le_lt (l : list Z) :
  StronglySorted Z.le l → NoDup l → StronglySorted Z.lt l.
Proof.
  induction 1 as [|x l Hl IH Hx]; intros Hnd; [constructor|].
  apply NoDup_cons in Hnd as [Hnotin Hnd]. constructor; [by apply IH|].
  rewrite Forall_forall in Hx |- *. intros y Hy.
  specialize (Hx y Hy). assert (x ≠ y) by (by intros ->). lia.
Qed.

Lemma Game_years_played_sorted self w :
  StronglySorted Z.le (Game_years_played self w).
Proof. apply (StronglySorted_merge_sort Z.le). Qed.

Lemma current_round_loop_None rds w :
  current_round_loop rds w = None ↔ forallb (λ r, Round_is_finished r w) rds = true.
Proof.
  induction rds as [|r rds IH]; [done|]. simpl.
  destruct (Round_is_finished r w); simpl; [done|]. split; discriminate.
Qed.

Lemma current_round_loop_Some rds w r :
  current_round_loop rds w = Some r →
  ∃ before after,
    rds = before ++ r :: after ∧ Round_is_finished r w = false ∧
    Forall (λ r', Round_is_finished r' w = true) before.
Proof.
  induction rds as [|r' rds IH]; [done|]. simpl.
  destruct (Round_is_finished r' w) eqn:Hfin; simpl.
  - intros (before & after & -> & Hr & Hbefore)%IH.
    exists (r' :: before), after. split; [done|]. split; [done|]. by constructor.
  - intros [= <-]. exists [], rds. by repeat split.
Qed.

Lemma find_scoring_system_from_first {T} (name_of : T → string) name i l :
  match find_scoring_system_from name_of name i l with
  | Some (k, s) =>
      (i ≤ k)%nat ∧ l !! (k - i)%nat = Some s ∧ name_of s = name ∧
      ∀ j s', (j < k - i)%nat → l !! j = Some s' → name_of s' ≠ name
  | None => ∀ s, s ∈ l → name_of s ≠ name
  end.
Proof.
  revert i. induction l as [|s l IH]; intros i; simpl.
  { by intros s ?%elem_of_nil. }
  case_decide as Hname.
  - split; [done|]. replace (i - i)%nat with 0%nat by lia.
    split; [done|]. split; [done|]. intros j s' Hj. lia.
  - specialize (IH (S i)).
    destruct (find_scoring_system_from name_of name (S i) l) as [[k s0]|].
    + destruct IH as (Hk & Hs0 & Hname0 & Hfirst).
      split; [lia|]. replace (k - i)%nat with (S (k - S i)) by lia.
      split; [done|]. split; [done|].
      intros [|j] s' Hj Hs'; simpl in Hs'; [by injection Hs' as <-|].
      apply (Hfirst j); [lia|done].
    + intros s' [->|Hs']%elem_of_cons; [done|by apply IH].
Qed.

(** ** Facts about loops that do not raise *)

Lemma for_each_Ok_foldl {A T} (l : list A) (body : A → T → result T)
    (f : T → A → T) (s : T) :
  (∀ x s, x ∈ l → body x s = Ok (f s x)) →
  for_each l body s = Ok (foldl f s l).
Proof.
  revert s. induction l as [|x l IH]; intros s Hbody; [done|].
  cbn [for_each foldl]. rewrite Hbody by by left. cbn [mbind result_bind].
  apply IH. intros y s' Hy. apply Hbody. by right.
Qed.

Lemma of_int_S n : of_int (Z.of_nat (S n)) = (of_int (Z.of_nat n) + 1)%Qc.
Proof.
  unfold of_int. by rewrite Nat2Z.inj_succ, <-Z.add_1_r, Z2Qc_inj_add, Z2Qc_inj_1.
Qed.

Lemma final_year_scs_elem_of centre_counts final_scs sc :
  _final_year_scs centre_counts = Ok final_scs → sc ∈ final_scs → sc ∈ centre_counts.
Proof.
  intros Hfinal Hsc. apply _final_year_scs_perm in Hfinal as (y & Hperm).
  rewrite Hperm in Hsc.
  by apply list_elem_of_filter in Hsc as [_ ?].
Qed.

(** ** Facts about [GScoringCDiplo.scores] *)

Lemma final_year_scs_top centre_counts final_scs :
  _final_year_scs centre_counts = Ok final_scs →
  ∃ top, qs_index0 final_scs = Ok top ∧ top ∈ final_scs ∧
         ∀ sc, sc ∈ final_scs → cc_count sc ≤ cc_count top.
Proof.
  unfold _final_year_scs, _final_year.
  pose proof (qs_index0_order_by_desc cc_year centre_counts) as Hlatest.
  destruct (qs_index0 (order_by_desc cc_year centre_counts)) as [latest|]; [|done].
  destruct Hlatest as [Hlatest _]. cbn [mbind result_bind]. intros [= <-].
  pose proof (qs_index0_order_by_desc cc_count
                (filter (λ sc, cc_year sc = cc_year latest) centre_counts)) as Htop.
  destruct (qs_index0 _) as [top|].
  - destruct Htop as [Htop Hmax]. exists top. split; [done|].
    split; [by apply order_by_desc_elem_of|].
    intros sc Hsc. apply Hmax. by apply order_by_desc_elem_of in Hsc.
  - destruct Htop as [_ Hnil].
    assert (latest ∈ filter (λ sc, cc_year sc = cc_year latest) centre_counts) as Hin
      by by apply list_elem_of_filter.
    rewrite Hnil in Hin. by apply elem_of_nil in Hin.
Qed.

Lemma foldl_pair_fst {A} (h : scores_dict → A → scores_dict) (l : list A)
    (m : scores_dict) (i : nat) :
  foldl (λ (st : scores_dict * nat) x, (h st.1 x, S st.2)) (m, i) l
    = (foldl h m l, (i + length l)%nat).
Proof.
  revert m i. induction l as [|x l IH]; intros m i; simpl.
  - f_equal. lia.
  - rewrite IH. f_equal. lia.
Qed.

(** The loop when the leader has 18 or more. *)
Lemma GScoringCDiplo_loop_solo self final_scs rank_pts top l (m : scores_dict) i :
  qs_index0 final_scs = Ok top → WINNING_SCS ≤ cc_count top →
  for_each l (GScoringCDiplo_body self final_scs rank_pts) (m, i) =
    Ok (foldl (λ m sc, <[cc_power sc :=
                          if decide (WINNING_SCS ≤ cc_count sc)
                          then soloer_pts self else loss_pts self]> m) m l,
        (i + length l)%nat).
Proof.
  intros Htop Hsolo.
  set (h := λ (m : scores_dict) sc,
              <[cc_power sc := if decide (WINNING_SCS ≤ cc_count sc)
                               then soloer_pts self else loss_pts self]> m).
  rewrite (for_each_Ok_foldl _ _ (λ st sc, (h st.1 sc, S st.2))).
  - by rewrite (foldl_pair_fst h).
  - intros sc [m' i'] _. unfold h. unfold GScoringCDiplo_body. rewrite Htop.
    cbn [mbind result_bind]. rewrite decide_True by done.
    case_decide; [|done]. by rewrite insert_insert_eq.
Qed.

Lemma GScoringCDiplo_body_ranks self final_scs rank_pts top sc (m : scores_dict) i pts :
  qs_index0 final_scs = Ok top → ¬ WINNING_SCS ≤ cc_count top →
  rank_pts !! i = Some pts →
  GScoringCDiplo_body self final_scs rank_pts sc (m, i) =
    Ok (<[cc_power sc := (played_pts self + of_int (cc_count sc) + pts)%Qc]> m, S i).
Proof.
  intros Htop Hnosolo Hpts. unfold GScoringCDiplo_body. rewrite Htop.
  cbn [mbind result_bind]. rewrite decide_False by done. by rewrite Hpts.
Qed.

(** The loop when the leader has less: place [i] gets the points of
    place [i]. *)
Lemma GScoringCDiplo_loop_ranks self final_scs rank_pts top l (m : scores_dict) i :
  qs_index0 final_scs = Ok top → ¬ WINNING_SCS ≤ cc_count top →
  (i + length l ≤ length rank_pts)%nat →
  for_each l (GScoringCDiplo_body self final_scs rank_pts) (m, i) =
    Ok (foldl (λ m (x : CentreCount * Qc),
                 <[cc_power x.1 := (played_pts self + of_int (cc_count x.1) + x.2)%Qc]> m)
          m (zip l (drop i rank_pts)),
        (i + length l)%nat).
Proof.
  intros Htop Hnosolo. revert m i.
  induction l as [|sc l IH]; intros m i Hlen.
  { simpl. do 2 f_equal. lia. }
  cbn [length] in Hlen.
  destruct (lookup_lt_is_Some_2 rank_pts i) as [pts Hpts]; [lia|].
  cbn [for_each].
  rewrite (GScoringCDiplo_body_ranks self final_scs rank_pts top sc m i pts) by done.
  cbn [mbind result_bind].
  rewrite IH by lia. rewrite (drop_S _ _ _ Hpts). cbn [zip_with foldl length].
  do 2 f_equal. lia.
Qed.

(** The sum of a list in which some entries are [a], some of the others [b]
    and the rest 0. *)
Lemma sum_points_share2 {A} (P Q : A → Prop) `{!∀ x, Decision (P x), !∀ x, Decision (Q x)}
    (a b : Qc) (l : list A) :
  sum_points ((λ x, if decide (P x) then a else if decide (Q x) then b else 0%Qc) <$> l) =
    (of_int (Z.of_nat (length (filter P l))) * a
     + of_int (Z.of_nat (length (filter (λ x, ¬ P x ∧ Q x) l))) * b)%Qc.
Proof.
  induction l as [|x l IH].
  { simpl. unfold of_int. change (Z.of_nat 0) with 0. rewrite Z2Qc_inj_0. ring. }
  rewrite fmap_cons, sum_points_cons, IH, !filter_cons.
  destruct (decide (P x)) as [HP|HP].
  - rewrite decide_False by tauto. cbn [length]. rewrite of_int_S. ring.
  - destruct (decide (Q x)) as [HQ|HQ].
    + rewrite decide_True by tauto. cbn [length]. rewrite of_int_S. ring.
    + rewrite decide_False by tauto. ring.
Qed.

(** ** Facts about what [Game.save] has stored *)

Lemma store_game_score_rows g scores w w' :
  NoDup (gpl_id <$> game_players w) →
  for_each_M (gameplayer_set g w) (store_game_score scores) w = (w', Ok ()) →
  ∀ p, p ∈ gameplayer_set g w' → scores !! gpl_power p = Some (gpl_score p).
Proof.
  intros Hnd Hrun p [Hsel Hp]%list_elem_of_filter.
  apply (store_strict_rows gpl_id gpl_power gpl_score set_gpl_score game_players
           set_game_players ltac:(done) ltac:(done) ltac:(done)
           set_game_players_id (λ p, gpl_game p = g) ltac:(done) ltac:(done)
           scores w w' Hnd Hrun p Hp Hsel).
Qed.

Lemma store_round_score_rows r scores w w' :
  NoDup (rp_id <$> round_players w) →
  for_each_M (roundplayer_set r w) (store_round_score scores) w = (w', Ok ()) →
  ∀ p s, p ∈ roundplayer_set r w' → scores !! rp_player p = Some s → rp_score p = s.
Proof.
  intros Hnd Hrun p s [Hsel Hp]%list_elem_of_filter.
  apply (store_lax_rows rp_id rp_player rp_score set_rp_score round_players
           set_round_players ltac:(done) ltac:(done) ltac:(done)
           set_round_players_id (λ p, rp_the_round p = r) ltac:(done) ltac:(done)
           scores w w' Hnd Hrun p s Hp Hsel).
Qed.

Lemma store_tournament_score_rows t scores w w' :
  NoDup (tp_id <$> tournament_players w) →
  for_each_M (tournamentplayer_set t w) (store_tournament_score scores) w = (w', Ok ()) →
  ∀ p, p ∈ tournamentplayer_set t w' → scores !! tp_player p = Some (tp_score p).
Proof.
  intros Hnd Hrun p [Hsel Hp]%list_elem_of_filter.
  apply (store_strict_rows tp_id tp_player tp_score set_tp_score tournament_players
           set_tournament_players ltac:(done) ltac:(done) ltac:(done)
           set_tournament_players_id (λ p, tp_tournament p = t) ltac:(done) ltac:(done)
           scores w w' Hnd Hrun p Hp Hsel).
Qed.

(** When the third part of [Game.save] has returned, the rows hold, at each
    level that is finished, the scores that a forced recalculation gives on
    the database as it is left. *)
Lemma Game_save_scores_stored self w w' :
  NoDup (g_id <$> games w) → NoDup (r_id <$> rounds w) →
  NoDup (gpl_id <$> game_players w) → NoDup (rp_id <$> round_players w) →
  NoDup (tp_id <$> tournament_players w) →
  Game_save_scores self w = (w', Ok ()) →
  G_SCORING_SYSTEMS (Game_scores self true w').1 = G_SCORING_SYSTEMS w' →
  (∃ scores,
     Game_scores self true w' = (w', Ok scores) ∧
     ∀ p, p ∈ gameplayer_set (g_id self) w' →
       scores !! gpl_power p = Some (gpl_score p)) ∧
  ∃ r t,
    get_round (the_round self) w' = Ok r ∧
    get_tournament (r_tournament r) w' = Ok t ∧
    (Round_is_finished r w' = true →
     ∃ scores,
       Round_scores r true w' = (w', Ok scores) ∧
       ∀ p s, p ∈ roundplayer_set (r_id r) w' →
         scores !! rp_player p = Some s → rp_score p = s) ∧
    (Tournament_is_finished t w' = true →
     ∃ scores,
       Tournament_scores t true w' = (w', Ok scores) ∧
       ∀ p, p ∈ tournamentplayer_set (t_id t) w' →
         scores !! tp_player p = Some (tp_score p)).
Proof.
  intros Hg Hr Hgp Hrp Htp Hrun Hsystems. unfold Game_save_scores in Hrun.
  apply bind_Ok in Hrun as (wc & sc & Hsc & Hrun).
  apply bind_Ok in Hrun as (? & ? & [= <- <-] & Hrun).
  apply bind_Ok in Hrun as (wd & [] & Hgame & Hrun).
  apply bind_Ok in Hrun as (? & r & [= <- Hr'] & Hrun).
  apply bind_Ok in Hrun as (? & ? & [= <- <-] & Hrun).
  apply bind_Ok in Hrun as (we & [] & Hround & Hrun).
  apply bind_Ok in Hrun as (? & t & [= <- Ht'] & Hrun).
  apply bind_Ok in Hrun as (? & ? & [= <- <-] & Hrun).
  pose proof (Game_scores_frame self true w) as Hc. rewrite Hsc in Hc. simpl in Hc.
  remember (G_SCORING_SYSTEMS wc) as G eqn:HG. clear HG.
  assert (NoDup (gpl_id <$> game_players wc)) as HgpC by by rewrite Hc.
  destruct (store_game_score_again _ _ _ _ HgpC Hgame) as ((t1 & Hd) & Herase & _).
  pose proof (store_game_score_rows _ _ _ _ HgpC Hgame) as Hgame_rows.
  assert (NoDup (g_id <$> games wd)) as HgD by by rewrite Hd, Hc.
  assert (NoDup (rp_id <$> round_players wd)) as HrpD by by rewrite Hd, Hc.
  assert ((∃ t2, we = set_round_players (λ _, t2) wd) ∧
          (Round_is_finished r wd = true →
           ∃ rs, Round_scores_stored r wd = Ok rs ∧
             ∀ p s, p ∈ roundplayer_set (r_id r) we →
               rs !! rp_player p = Some s → rp_score p = s)) as [[t2 He] Hround'].
  { destruct (Round_is_finished r wd) eqn:Hfin.
    - apply bind_Ok in Hround as (? & rs & Hrs & Hround).
      rewrite Round_scores_finished in Hrs by done. injection Hrs as <- Hrs.
      apply bind_Ok in Hround as (? & ? & [= <- <-] & Hround).
      destruct (store_round_score_again _ _ _ _ HrpD Hround) as [Hframe _].
      pose proof (store_round_score_rows _ _ _ _ HrpD Hround) as Hrows.
      split; [done|]. intros _. by exists rs.
    - injection Hround as <-. split; [|done].
      exists (round_players wd). symmetry. by apply set_round_players_id. }
  assert (NoDup (r_id <$> rounds we)) as HrE by by rewrite He, Hd, Hc.
  assert (NoDup (tp_id <$> tournament_players we)) as HtpE by by rewrite He, Hd, Hc.
  assert ((∃ t3, w' = set_tournament_players (λ _, t3) we) ∧
          (Tournament_is_finished t we = true →
           ∃ ts, Tournament_scores_stored t we = Ok ts ∧
             ∀ p, p ∈ tournamentplayer_set (t_id t) w' →
               ts !! tp_player p = Some (tp_score p))) as [[t3 Hw'] Htour'].
  { destruct (Tournament_is_finished t we) eqn:Hfin.
    - apply bind_Ok in Hrun as (? & ts & Hts & Hrun).
      rewrite Tournament_scores_finished in Hts by done. injection Hts as <- Hts.
      apply bind_Ok in Hrun as (? & ? & [= <- <-] & Hrun).
      destruct (store_tournament_score_again _ _ _ _ HtpE Hrun) as [Hframe _].
      pose proof (store_tournament_score_rows _ _ _ _ HtpE Hrun) as Hrows.
      split; [done|]. intros _. by exists ts.
    - injection Hrun as <-. split; [|done].
      exists (tournament_players we). symmetry. by apply set_tournament_players_id. }
  clear Hround Hrun Hgame.
  assert (same_play wc w') as Hsame.
  { rewrite Hw', He. repeat split; try by rewrite Hd. by rewrite <-Herase. }
  assert (Game_scores self true wc = (wc, Ok sc)) as Hagain.
  { pose proof (Game_scores_stable self w) as Hstable.
    rewrite Hsc in Hstable. apply Hstable. simpl.
    destruct (same_play_Game_scores wc w' Hsame self) as [_ ->].
    rewrite Hsystems. by destruct Hsame as (_ & _ & _ & _ & _ & -> & _). }
  assert (games w' = games wd) as Hgames by by rewrite Hw', He.
  assert (rounds w' = rounds wd) as Hrounds by by rewrite Hw', He.
  assert (tournaments w' = tournaments wd) as Htournaments by by rewrite Hw', He.
  assert (game_players w' = game_players wd) as Hgps by by rewrite Hw', He.
  assert (round_players w' = round_players we) as Hrps by by rewrite Hw'.
  assert (rounds w' = rounds we) as Hrounds' by by rewrite Hw'.
  assert (games w' = games we) as Hgames' by by rewrite Hw'.
  assert (tournaments w' = tournaments we) as Htournaments' by by rewrite Hw'.
  split.
  { exists sc. split; [by apply (Game_scores_same_play self wc w')|].
    intros p Hp. apply Hgame_rows. unfold gameplayer_set in *. by rewrite <-Hgps. }
  exists r, t.
  split; [unfold get_round in *; by rewrite Hrounds|].
  split; [unfold get_tournament in *; by rewrite Htournaments'|].
  split.
  - rewrite (Round_is_finished_reads r w' wd Hgames). intros Hfin.
    destruct (Hround' Hfin) as (rs & Hrs & Hrows). exists rs. split.
    + rewrite Round_scores_finished.
      * by rewrite (Round_scores_stored_reads r w' wd), Hrs.
      * by rewrite Hgames.
      * by rewrite (Round_is_finished_reads r w' wd Hgames).
    + intros p s Hp. apply Hrows. unfold roundplayer_set in *. by rewrite <-Hrps.
  - rewrite (Tournament_is_finished_reads t w' we Hrounds' Hgames'). intros Hfin.
    destruct (Htour' Hfin) as (ts & Hts & Hrows). exists ts. split; [|done].
    rewrite Tournament_scores_finished.
    + by rewrite (Tournament_scores_stored_reads t w' we), Hts.
    + by rewrite Hrounds'.
    + by rewrite (Tournament_is_finished_reads t w' we Hrounds' Hgames').
Qed.

(** A dictionary filled from rows that agree on the value of each key. *)
Lemma foldl_insert_lookup_agree {A} (key : A → nat) (f : A → Qc) (l : list A)
    (m : scores_dict) x :
  (∀ y z, y ∈ l → z ∈ l → key y = key z → f y = f z) → x ∈ l →
  foldl (λ m x, <[key x := f x]> m) m l !! key x = Some (f x).
Proof.
  induction l as [|y l IH] using rev_ind; intros Hagree Hx.
  { by apply elem_of_nil in Hx. }
  rewrite foldl_snoc.
  destruct (decide (key y = key x)) as [Hk|Hk].
  - rewrite Hk, lookup_insert_eq. f_equal. apply Hagree; [|done..].
    apply elem_of_app. right. by left.
  - rewrite lookup_insert_ne by done.
    apply elem_of_app in Hx as [Hx|Hx%list_elem_of_singleton]; [|by subst].
    apply IH; [|done]. intros y' z' Hy' Hz'. apply Hagree; apply elem_of_app; by left.
Qed.

(** ** Facts about [RScoringBest] and [TScoringSum] *)

Lemma py_max_spec (l : list Qc) :
  match py_max l with
  | Ok v => v ∈ l ∧ ∀ x, x ∈ l → (x ≤ v)%Qc
  | Err e => e = ValueError ∧ l = []
  end.
Proof.
  destruct l as [|x l]; [done|]. unfold py_max.
  assert (∀ m, let v := foldl (λ m y, if decide (m < y)%Qc then y else m) m l in
               (v = m ∨ v ∈ l) ∧ (m ≤ v)%Qc ∧ ∀ y, y ∈ l → (y ≤ v)%Qc) as Hloop.
  { induction l as [|y l IH]; intros m; cbn [foldl].
    { split; [by left|]. split; [apply Qcle_refl|]. by intros y ?%elem_of_nil. }
    case_decide as Hlt.
    - destruct (IH y) as (Hv & Hy & Hl). split; [|split].
      + right. destruct Hv as [->|Hv]; [by left|by right].
      + eapply Qcle_trans; [by apply Qclt_le_weak|done].
      + intros z [->|Hz]%elem_of_cons; [done|by apply Hl].
    - destruct (IH m) as (Hv & Hm & Hl). split; [|split; [done|]].
      + destruct Hv as [->|Hv]; [by left|right; by right].
      + intros z [->|Hz]%elem_of_cons; [|by apply Hl].
        eapply Qcle_trans; [by apply Qcnot_lt_le|done]. }
  destruct (Hloop x) as (Hv & Hx & Hl). split.
  - destruct Hv as [->|Hv]; [by left|by right].
  - intros y [->|Hy]%elem_of_cons; [done|by apply Hl].
Qed.

Lemma map_result_Ok {A B} (f : A → result B) (g : A → B) (l : list A) :
  (∀ x, x ∈ l → f x = Ok (g x)) → map_result f l = Ok (g <$> l).
Proof.
  induction l as [|x l IH]; intros Hf; [done|].
  cbn [map_result]. rewrite Hf by by left. cbn [mbind result_bind].
  rewrite IH; [done|]. intros y Hy. apply Hf. by right.
Qed.

(** A loop that gives a key its value the first time the key comes. *)
Lemma first_wins_lookup (F : nat → Qc) (ps : list nat) (m0 : scores_dict) (p : nat) :
  foldl (λ (m : scores_dict) p,
           if decide (is_Some (m !! p)) then m else <[p := F p]> m) m0 ps !! p =
    match m0 !! p with
    | Some v => Some v
    | None => if decide (p ∈ ps) then Some (F p) else None
    end.
Proof.
  revert m0. induction ps as [|q ps IH]; intros m0; cbn [foldl].
  { by destruct (m0 !! p). }
  rewrite IH. destruct (decide (is_Some (m0 !! q))) as [Hq|Hq].
  - destruct (m0 !! p) eqn:Hp; [done|].
    assert (q ≠ p) by (intros ->; rewrite Hp in Hq; by destruct Hq).
    destruct (decide (p ∈ ps)) as [Hin|Hin].
    + rewrite decide_True; [done|by right].
    + rewrite decide_False; [done|]. rewrite not_elem_of_cons. naive_solver.
  - destruct (decide (q = p)) as [->|Hne].
    + rewrite lookup_insert_eq.
      destruct (m0 !! p) eqn:Hp; [exfalso; apply Hq; by eexists|].
      rewrite decide_True; [done|by left].
    + rewrite lookup_insert_ne by done. destruct (m0 !! p); [done|].
      destruct (decide (p ∈ ps)) as [Hin|Hin].
      * rewrite decide_True; [done|by right].
      * rewrite decide_False; [done|]. rewrite not_elem_of_cons. naive_solver.
Qed.

Lemma for_each_first_wins (body : nat → scores_dict → result scores_dict)
    (F : nat → Qc) (ps : list nat) (m0 : scores_dict) :
  (∀ p m, p ∈ ps →
     body p m = Ok (if decide (is_Some (m !! p)) then m else <[p := F p]> m)) →
  for_each ps body m0 =
    Ok (foldl (λ (m : scores_dict) p,
                 if decide (is_Some (m !! p)) then m else <[p := F p]> m) m0 ps).
Proof. intros Hbody. by apply for_each_Ok_foldl. Qed.

Global Instance Qc_desc_trans : Transitive Qc_desc.
Proof. intros x y z Hxy Hyz. unfold Qc_desc in *. by eapply Qcle_trans. Qed.
Global Instance Qc_desc_total : Total Qc_desc.
Proof.
  intros x y. unfold Qc_desc.
  destruct (Qclt_le_dec x y) as [Hlt|Hle]; [right; by apply Qclt_le_weak|by left].
Qed.

Lemma foldl_Qcplus (a : Qc) (l : list Qc) : foldl Qcplus a l = (a + sum_points l)%Qc.
Proof.
  revert a. induction l as [|x l IH]; intros a; cbn [foldl].
  - unfold sum_points. simpl. ring.
  - rewrite IH, sum_points_cons. ring.
Qed.

(** The best [n] scores of a list. *)
Lemma best_scores (n : nat) (l : list Qc) :
  let counted := take n (merge_sort Qc_desc l) in
  let dropped := drop n (merge_sort Qc_desc l) in
  l ≡ₚ counted ++ dropped ∧
  length counted = (n `min` length l)%nat ∧
  (∀ c d, c ∈ counted → d ∈ dropped → (d ≤ c)%Qc) ∧
  foldl Qcplus 0%Qc counted = sum_points counted.
Proof.
  intros counted dropped.
  pose proof (merge_sort_Permutation Qc_desc l) as Hperm.
  pose proof (StronglySorted_merge_sort Qc_desc l) as Hsorted.
  split; [|split; [|split]].
  - unfold counted, dropped. by rewrite take_drop.
  - unfold counted. rewrite length_take, Hperm. done.
  - intros c d Hc Hd.
    rewrite <-(take_drop n (merge_sort Qc_desc l)) in Hsorted.
    by apply (StronglySorted_app_1_elem_of Qc_desc _ _ c d Hsorted).
  - rewrite foldl_Qcplus. ring.
Qed.

(** ** Facts about what marks a game finished *)

(** The game of primary key [g] is on record as finished. *)
Definition marked_finished (g : pk) (w : World) : Prop :=
  ∃ g', g' ∈ games w ∧ g_id g' = g ∧ is_finished g' = true.

Lemma get_game_id g w x : get_game g w = Ok x → g_id x = g ∧ x ∈ games w.
Proof.
  unfold get_game. intros H%qs_get_Ok.
  assert (x ∈ filter (λ y, g_id y = g) (games w)) as Hin by (rewrite H; by left).
  by apply list_elem_of_filter in Hin.
Qed.

Lemma save_row_marks_finished x w :
  is_finished x = true → marked_finished (g_id x) (set_games (save_row g_id x) w).
Proof. intros Hx. exists x. split; [apply save_row_elem_of|done]. Qed.

Lemma save_row_marked_finished g x w :
  is_finished x = true → marked_finished g w →
  marked_finished g (set_games (save_row g_id x) w).
Proof.
  intros Hx (g' & Hg' & Hid & Hfin).
  destruct (decide (g_id g' = g_id x)) as [Heq|Hne].
  - exists x. split; [apply save_row_elem_of|]. split; [congruence|done].
  - exists g'. split; [by apply save_row_other|done].
Qed.

Section marked_finished.
Context (g : pk).

Lemma keeps_marked_Game_save_reentered x :
  is_finished x = true → keeps (marked_finished g) (Game_save_reentered x).
Proof.
  intros Hx. unfold Game_save_reentered.
  apply keeps_bind; [|intros _; apply keeps_raise].
  apply keeps_modify. intros w. by apply save_row_marked_finished.
Qed.

Lemma keeps_marked_CentreCount_save_reentered adding i :
  keeps (marked_finished g) (CentreCount_save Game_save_reentered adding i).
Proof.
  unfold CentreCount_save.
  apply keeps_bind.
  { destruct adding; [by apply keeps_insert_centre_count|by apply keeps_modify]. }
  intros _. apply keeps_bind; [apply keeps_query|]. intros g0.
  apply keeps_bind; [apply keeps_query|]. intros r.
  apply keeps_bind.
  { destruct (_ && _); [|apply keeps_ret]. by apply keeps_marked_Game_save_reentered. }
  intros _. case_decide; [|apply keeps_ret]. by apply keeps_marked_Game_save_reentered.
Qed.

Lemma keeps_marked_Game_save_1900_body self power :
  keeps (marked_finished g) (Game_save_1900_body self power).
Proof.
  unfold Game_save_1900_body. apply keeps_bind.
  - by apply keeps_CentreCount_get_or_create.
  - intros i. apply keeps_marked_CentreCount_save_reentered.
Qed.

Lemma keeps_marked_Game_save x :
  is_finished x = true → keeps (marked_finished g) (Game_save x).
Proof.
  intros Hx w Hw.
  apply Game_save_after_1900; try done.
  unfold Game_save_1900.
  erewrite bind_run by done. erewrite bind_run by apply query_run.
  apply keeps_for_each_M.
  - intros power. apply keeps_marked_Game_save_1900_body.
  - by apply save_row_marked_finished.
Qed.

End marked_finished.

(** Saving a game that is finished leaves it on record as finished, also
    when the save raises. *)
Lemma Game_save_marks_finished x w :
  is_finished x = true → marked_finished (g_id x) (Game_save x w).1.
Proof.
  intros Hx. apply Game_save_after_1900; try done.
  unfold Game_save_1900.
  erewrite bind_run by done. erewrite bind_run by apply query_run.
  apply keeps_for_each_M.
  - intros power. apply keeps_marked_Game_save_1900_body.
  - by apply save_row_marks_finished.
Qed.

(** ** What [Game.save] leaves alone *)

Section keeps_Game_save.
Context (I : World → Prop).
Context (I_games : ∀ f w, I w → I (set_games f w)).
Context (I_centre_counts : ∀ f w, I w → I (set_centre_counts f w)).
Context (I_game_images : ∀ f w, I w → I (set_game_images f w)).

Lemma keeps_Game_save_1900 self : keeps I (Game_save_1900 self).
Proof.
  unfold Game_save_1900.
  apply keeps_bind; [apply keeps_modify; intros w; by apply I_games|]. intros _.
  apply keeps_bind; [apply keeps_query|]. intros w.
  apply keeps_for_each_M. intros power. unfold Game_save_1900_body.
  apply keeps_bind.
  - by apply keeps_CentreCount_get_or_create.
  - intros i. by apply keeps_CentreCount_save_reentered.
Qed.

(** A game that is not finished. *)
Lemma keeps_Game_save_unfinished self :
  is_finished self = false → keeps I (Game_save self).
Proof.
  intros Hself. unfold Game_save. rewrite Hself.
  apply keeps_bind; [apply keeps_Game_save_1900|]. intros _.
  apply keeps_bind; [by apply keeps_Game_save_image|]. intros _. apply keeps_ret.
Qed.

Context (I_systems : ∀ f w, I w → I (set_G_SCORING_SYSTEMS f w)).
Context (I_game_players : ∀ f w, I w → I (set_game_players f w)).
Context (I_round_players : ∀ f w, I w → I (set_round_players f w)).
Context (I_tournament_players : ∀ f w, I w → I (set_tournament_players f w)).

Lemma keeps_Game_save self : keeps I (Game_save self).
Proof.
  unfold Game_save.
  apply keeps_bind; [apply keeps_Game_save_1900|]. intros _.
  apply keeps_bind; [by apply keeps_Game_save_image|]. intros _.
  destruct (is_finished self); [|apply keeps_ret].
  by apply keeps_Game_save_scores.
Qed.

End keeps_Game_save.

(** ** Facts about [DrawProposal.clean] *)

(** The foreign keys of a proposal that are set. *)
Definition truthy_values (values : list (option pk)) : list pk :=
  values ≫= λ value, match value with Some (S n) => [S n] | _ => [] end.

Lemma no_skipping_loop_spec values found_null :
  no_skipping_loop values found_null = Ok () ↔
    if found_null then Forall (λ v, pk_truthy v = false) values
    else ∃ n, Forall (λ v, pk_truthy v = true) (take n values)
              ∧ Forall (λ v, pk_truthy v = false) (drop n values).
Proof.
  revert found_null. induction values as [|v values IH]; intros found_null.
  { simpl. destruct found_null; [done|]. split; [|done].
    intros _. exists 0%nat. by rewrite take_nil, drop_nil. }
  cbn [no_skipping_loop]. destruct (pk_truthy v) eqn:Hv; cbn [negb].
  - destruct found_null.
    + split; [done|]. intros Hall. apply Forall_cons in Hall as [Hfalse _]. congruence.
    + rewrite IH. split.
      * intros (n & Htake & Hdrop). exists (S n). split; [by constructor|done].
      * intros ([|n] & Htake & Hdrop).
        -- rewrite drop_0 in Hdrop. apply Forall_cons in Hdrop as [Hfalse _]. congruence.
        -- exists n. by apply Forall_cons in Htake as [_ ?].
  - rewrite IH. destruct found_null.
    + split; [by constructor|]. by intros [_ ?]%Forall_cons.
    + split.
      * intros Hall. exists 0%nat. split; [constructor|]. by constructor.
      * intros ([|n] & Htake & Hdrop).
        -- rewrite drop_0 in Hdrop. by apply Forall_cons in Hdrop as [_ ?].
        -- apply Forall_cons in Htake as [Htrue _]. congruence.
Qed.

Lemma unique_powers_loop_spec values powers w :
  (∃ s, unique_powers_loop values powers w = Ok s) ↔
  NoDup (truthy_values values) ∧ ∀ v, v ∈ truthy_values values → v ∉ powers.
Proof.
  revert powers. induction values as [|value values IH]; intros powers.
  { simpl. split; [|by eexists]. intros _. split; [constructor|].
    by intros v ?%elem_of_nil. }
  cbn [unique_powers_loop].
  destruct value as [[|n]|].
  - rewrite IH. done.
  - change (truthy_values (Some (S n) :: values)) with (S n :: truthy_values values).
    case_decide as Hin.
    + split.
      * intros [s Hs]. by destruct (get_great_power (S n) w).
      * intros [_ Hnotin]. exfalso. apply (Hnotin (S n)); [by left|done].
    + rewrite IH, NoDup_cons. split.
      * intros [Hnd Hnotin]. split; [split; [|done]|].
        -- intros Hn. apply (Hnotin _ Hn), elem_of_union. left.
           by apply elem_of_singleton.
        -- intros v [->|Hv]%elem_of_cons; [done|].
           intros Hp. apply (Hnotin v Hv), elem_of_union. by right.
      * intros [[Hn Hnd] Hnotin]. split; [done|]. intros v Hv.
        assert (v ≠ S n) by (by intros ->).
        assert (v ∉ powers) by (apply Hnotin; by right).
        by intros [Hs%elem_of_singleton|Hp]%elem_of_union.
  - rewrite IH. done.
Qed.

Lemma for_each_unit {A} (l : list A) (check : A → result ()) :
  for_each l (λ x (_ : ()), check x) () = Ok () ↔ ∀ x, x ∈ l → check x = Ok ().
Proof.
  induction l as [|x l IH]; [by split; [intros _ x ?%elem_of_nil|]|].
  cbn [for_each]. destruct (check x) as [[]|e] eqn:Hx; cbn [mbind result_bind].
  - rewrite IH. split.
    + intros Hl y [->|Hy]%elem_of_cons; [done|by apply Hl].
    + intros Hl y Hy. apply Hl. by right.
  - split; [done|]. intros Hl. specialize (Hl x ltac:(by left)). congruence.
Qed.

(** The last loop of [clean] looks at the counts of the final year only. *)
Lemma dias_loop_spec (ledger : list CentreCount) (powers : gset nat) (dias : bool) year :
  for_each (filter (λ sc, cc_year sc = year) ledger)
    (λ sc (_ : ()),
       if instance_in_keys (cc_power sc) powers
       then if decide (cc_count sc = 0) then Err ValidationError else Ok ()
       else if dias && bool_decide (cc_count sc > 0)
            then Err ValidationError else Ok ()) () = Ok ()
  ↔ (dias = true → ∀ sc, sc ∈ ledger → cc_year sc = year → cc_count sc ≤ 0).
Proof.
  unfold instance_in_keys.
  pose proof (for_each_unit (filter (λ sc, cc_year sc = year) ledger)
                (λ sc, if dias && bool_decide (cc_count sc > 0)
                       then Err ValidationError else Ok ())) as Hloop.
  cbv beta in Hloop. rewrite Hloop. clear Hloop.
  split.
  - intros Hall -> sc Hsc Hyear.
    specialize (Hall sc ltac:(by apply list_elem_of_filter)). cbn [andb] in Hall.
    case_bool_decide; [done|lia].
  - intros Hall sc [Hyear Hsc]%list_elem_of_filter.
    destruct dias; [|done]. cbn [andb].
    rewrite bool_decide_eq_false_2; [done|]. specialize (Hall eq_refl sc Hsc Hyear). lia.
Qed.

(** What [clean] has checked when it returns. *)
Lemma DrawProposal_clean_Ok (self : DrawProposal) (w : World) :
  let values := DrawProposal_power_values self in
  DrawProposal_clean self w = Ok () →
    (∃ n, Forall (λ v, pk_truthy v = true) (take n values)
          ∧ Forall (λ v, pk_truthy v = false) (drop n values)) ∧
    NoDup (truthy_values values) ∧
    ∃ g r year,
      get_game (dp_game self) w = Ok g ∧
      get_round (the_round g) w = Ok r ∧
      Game_final_year g w = Ok year ∧
      (passed self = true →
       filter (λ d, passed d = true) (drawproposal_set (dp_game self) w) = []) ∧
      (dias r = true →
       ∀ sc, sc ∈ centrecount_set (dp_game self) w → cc_year sc = year →
             cc_count sc ≤ 0).
Proof.
  intros values. unfold DrawProposal_clean. fold values.
  pose proof (no_skipping_loop_spec values false) as Hskip.
  pose proof (unique_powers_loop_spec values ∅ w) as Hunique.
  intros Hclean.
  destruct (no_skipping_loop values false) as [[]|]; [|done].
  cbn [mbind result_bind] in Hclean.
  destruct (unique_powers_loop values ∅ w) as [powers|] eqn:Hpowers; [|done].
  cbn [mbind result_bind] in Hclean.
  split; [by apply Hskip|]. split; [apply Hunique; by eexists|].
  destruct (get_game (dp_game self) w) as [g|e] eqn:Hg.
  2: { by destruct (passed self). }
  destruct (get_game_id _ _ _ Hg) as [Hgid _].
  cbn [mbind result_bind] in Hclean. rewrite Hgid in Hclean.
  assert (passed self = true →
          filter (λ d, passed d = true) (drawproposal_set (dp_game self) w) = [])
    as Hpassed.
  { intros Hp. rewrite Hp in Hclean.
    by destruct (filter _ _) as [|? [|? ?]]. }
  assert ((dias ← Game_is_dias g w; year ← Game_final_year g w;
           for_each (filter (λ sc, cc_year sc = year) (centrecount_set (dp_game self) w))
             (λ sc (_ : ()),
                if instance_in_keys (cc_power sc) powers
                then if decide (cc_count sc = 0) then Err ValidationError else Ok ()
                else if dias && bool_decide (cc_count sc > 0)
                     then Err ValidationError else Ok ()) ()) = Ok ()) as Hrest.
  { destruct (passed self); [|done].
    by destruct (qs_get _) as [|[]]. }
  clear Hclean. unfold Game_is_dias in Hrest.
  destruct (get_round (the_round g) w) as [r|] eqn:Hr; [|done].
  cbn [mbind result_bind] in Hrest.
  destruct (Game_final_year g w) as [year|] eqn:Hyear; [|done].
  cbn [mbind result_bind] in Hrest.
  exists g, r, year. split; [done|]. split; [done|]. split; [done|].
  split; [done|]. exact (proj1 (dias_loop_spec _ powers _ _) Hrest).
Qed.

(** ** Example data *)

Definition Austria : nat := 1.
Definition England : nat := 2.
Definition France : nat := 3.
Definition Germany : nat := 4.
Definition Italy : nat := 5.
Definition Russia : nat := 6.
Definition Turkey : nat := 7.

Definition the_great_powers : list GreatPower := [
  {| gp_id := Austria; starting_centres := 3 |};
  {| gp_id := England; starting_centres := 3 |};
  {| gp_id := France; starting_centres := 3 |};
  {| gp_id := Germany; starting_centres := 3 |};
  {| gp_id := Italy; starting_centres := 3 |};
  {| gp_id := Russia; starting_centres := 4 |};
  {| gp_id := Turkey; starting_centres := 3 |}
].

(** A centre count of game 1. *)
Definition count_in (year : Z) (power : nat) (count : Z) : CentreCount :=
  {| cc_power := power; cc_game := 1; cc_year := year; cc_count := count |}.

(** Austria 10, England 10, France 6, the others eliminated. *)
Definition counts_10_10_6 (year : Z) : list CentreCount := [
  count_in year Austria 10; count_in year England 10; count_in year France 6;
  count_in year Germany 0; count_in year Italy 0; count_in year Russia 0;
  count_in year Turkey 0
].

(** The position points of CDiplo 80. *)
Definition pts_25_14_7 : list Qc := [of_int 25; of_int 14; of_int 7].

(** The CDiplo 80 instance of [G_SCORING_SYSTEMS]. *)
Definition cdiplo_80 : CDiplo := {|
  cd_name := "CDiplo 80";
  soloer_pts := of_int 80;
  played_pts := of_int 0;
  position_pts := pts_25_14_7;
  loss_pts := 0%Qc
|}.

(** A second game, with no tie: 12, 9, 6, 4, 3 and two eliminations. *)
Definition counts_12_9_6 (year : Z) : list CentreCount := [
  count_in year Austria 12; count_in year England 9; count_in year France 6;
  count_in year Germany 4; count_in year Italy 3; count_in year Russia 0;
  count_in year Turkey 0
].

(** The year-1900 rows of game 1. *)
Definition counts_1900 : list CentreCount :=
  (λ p, count_in 1900 (gp_id p) (starting_centres p)) <$> the_great_powers.

(** The score of one power, and the total, in what a [scores] returned. *)
Definition score_of (scores : result scores_dict) (power : nat) : result Qc :=
  match scores with
  | Ok m => dict_get m power
  | Err e => Err e
  end.

Definition total_of (scores : result scores_dict) : result Qc :=
  match scores with
  | Ok m => Ok (dict_sum m)
  | Err e => Err e
  end.

(** The powers of the draw that passed in a game. *)
Definition passed_draw_powers (g : Game) (w : World) : result (list nat) :=
  match Game_passed_draw g w with
  | Ok (Some d) =>
      match DrawProposal_powers d w with
      | Ok ps => Ok (gp_id <$> ps)
      | Err e => Err e
      end
  | Ok None => Ok []
  | Err e => Err e
  end.

(** Closed statements on the example data are decided by evaluation. *)
Ltac by_evaluation := lazy zeta; apply (bool_decide_unpack _); vm_compute; exact I.

(** 29.5 for Austria and England, 13 for France, 0 for the others. *)
Definition scores_29_29_13 : scores_dict := list_to_map [
  (Austria, (of_int 59 / of_int 2)%Qc); (England, (of_int 59 / of_int 2)%Qc);
  (France, of_int 13); (Germany, of_int 0); (Italy, of_int 0);
  (Russia, of_int 0); (Turkey, of_int 0)
].

(** A world with nothing in it but the great powers and the scoring
    systems. *)
Definition empty_world : World := {|
  great_powers := the_great_powers;
  tournaments := []; rounds := []; games := []; centre_counts := [];
  draw_proposals := []; game_players := []; round_players := [];
  tournament_players := []; game_images := [];
  G_SCORING_SYSTEMS := G_SCORING_SYSTEMS_loaded
|}.

Definition tournament_1 : Tournament := {|
  t_id := 1;
  tournament_scoring_system := "Sum best 2 rounds";
  round_scoring_system := "Best game counts"
|}.

(** Round 1 of tournament 1, scored by [system], with no final year. *)
Definition round_1 (system : string) : Round := {|
  r_id := 1; r_tournament := 1; scoring_system := system; dias := false;
  r_final_year := None
|}.

Definition game_1 (finished : bool) : Game :=
  {| g_id := 1; is_finished := finished; the_round := 1 |}.

(** Tournament 1 with its round 1 and game 1 of that round, with the
    centre counts given. *)
Definition world_1 (system : string) (finished : bool) (counts : list CentreCount)
    : World := {|
  great_powers := the_great_powers;
  tournaments := [tournament_1]; rounds := [round_1 system];
  games := [game_1 finished]; centre_counts := counts;
  draw_proposals := []; game_players := []; round_players := [];
  tournament_players := []; game_images := [];
  G_SCORING_SYSTEMS := G_SCORING_SYSTEMS_loaded
|}.

(** Tournament 2 has no round; round 1 of tournament 1 has no game. *)
Definition world_no_rounds_no_games : World := {|
  great_powers := the_great_powers;
  tournaments := [tournament_1;
                  {| t_id := 2; tournament_scoring_system := "Sum best 2 rounds";
                     round_scoring_system := "Best game counts" |}];
  rounds := [round_1 "Draw size"];
  games := []; centre_counts := [];
  draw_proposals := []; game_players := []; round_players := [];
  tournament_players := []; game_images := [];
  G_SCORING_SYSTEMS := G_SCORING_SYSTEMS_loaded
|}.

(** Austria on 18. *)
Definition counts_18 (year : Z) : list CentreCount := [
  count_in year Austria 18; count_in year England 6; count_in year France 5;
  count_in year Germany 5; count_in year Italy 0; count_in year Russia 0;
  count_in year Turkey 0
].

(** Austria 10, England 10, France 14: three survivors. *)
Definition counts_10_10_14 (year : Z) : list CentreCount := [
  count_in year Austria 10; count_in year England 10; count_in year France 14;
  count_in year Germany 0; count_in year Italy 0; count_in year Russia 0;
  count_in year Turkey 0
].

(** Austria back on 17. *)
Definition counts_17 (year : Z) : list CentreCount := [
  count_in year Austria 17; count_in year England 7; count_in year France 5;
  count_in year Germany 5; count_in year Italy 0; count_in year Russia 0;
  count_in year Turkey 0
].

(** A draw between Austria and England, proposed in game 1 in fall 1905. *)
Definition draw_Austria_England (passed : bool) : DrawProposal := {|
  dp_game := 1; dp_year := 1905; dp_season := FALL; passed := passed;
  proposer := Austria; power_1 := Austria; power_2 := Some England;
  power_3 := None; power_4 := None; power_5 := None; power_6 := None;
  power_7 := None
|}.

(** Player [10 + p] plays power [p] in game 1. *)
Definition game_player (power : nat) (score : Qc) : GamePlayer := {|
  gpl_id := power; gpl_player := 10 + power; gpl_game := 1; gpl_power := power;
  gpl_score := score
|}.

Definition seven_game_players : list GamePlayer :=
  (λ p, game_player (gp_id p) 0%Qc) <$> the_great_powers.

(** Player 20 took Austria over from player 11. *)
Definition replacement_for_Austria : GamePlayer := {|
  gpl_id := 8; gpl_player := 20; gpl_game := 1; gpl_power := Austria;
  gpl_score := 0%Qc
|}.

(** Game 1 of round 1 (no DIAS), scored by draw size, with a draw between
    Austria and England passed while France is alive. *)
Definition world_draw : World := {|
  great_powers := the_great_powers;
  tournaments := [tournament_1]; rounds := [round_1 "Draw size"];
  games := [game_1 true];
  centre_counts := counts_1900 ++ counts_10_10_14 1905;
  draw_proposals := [draw_Austria_England true];
  game_players := seven_game_players; round_players := [];
  tournament_players := []; game_images := [];
  G_SCORING_SYSTEMS := G_SCORING_SYSTEMS_loaded
|}.

(** Game 1 with Austria on 18 in 1905 and on 17 in 1906. *)
Definition world_solo_then_17 (players : list GamePlayer) : World := {|
  great_powers := the_great_powers;
  tournaments := [tournament_1]; rounds := [round_1 "Draw size"];
  games := [game_1 true];
  centre_counts := counts_1900 ++ counts_18 1905 ++ counts_17 1906;
  draw_proposals := [];
  game_players := players; round_players := [];
  tournament_players := []; game_images := [];
  G_SCORING_SYSTEMS := G_SCORING_SYSTEMS_loaded
|}.

(** Player [10 + p] plays in round 1 and in tournament 1. *)
Definition seven_round_players : list RoundPlayer :=
  (λ p, {| rp_id := gp_id p; rp_player := 10 + gp_id p; rp_the_round := 1;
           rp_score := 0%Qc |}) <$> the_great_powers.

Definition seven_tournament_players : list TournamentPlayer :=
  (λ p, {| tp_id := gp_id p; tp_player := 10 + gp_id p; tp_tournament := 1;
           tp_score := 0%Qc |}) <$> the_great_powers.

(** Game 1, the only game of the only round of tournament 1, on record as
    in progress, with the counts of 1905 and seven players. *)
Definition world_played (system : string) : World := {|
  great_powers := the_great_powers;
  tournaments := [tournament_1]; rounds := [round_1 system];
  games := [game_1 false];
  centre_counts := counts_1900 ++ counts_10_10_6 1905;
  draw_proposals := [];
  game_players := seven_game_players; round_players := seven_round_players;
  tournament_players := seven_tournament_players; game_images := [];
  G_SCORING_SYSTEMS := G_SCORING_SYSTEMS_loaded
|}.

(** The scoring system of round 1 edited, and nothing else. *)
Definition with_round_system (system : string) (w : World) : World := {|
  great_powers := great_powers w;
  tournaments := tournaments w; rounds := [round_1 system];
  games := games w; centre_counts := centre_counts w;
  draw_proposals := draw_proposals w;
  game_players := game_players w; round_players := round_players w;
  tournament_players := tournament_players w; game_images := game_images w;
  G_SCORING_SYSTEMS := G_SCORING_SYSTEMS w
|}.

(** Game 1 in a round whose draws include all survivors, with Austria,
    England and France alive in 1905. *)
Definition world_dias : World := {|
  great_powers := the_great_powers;
  tournaments := [tournament_1];
  rounds := [{| r_id := 1; r_tournament := 1; scoring_system := "Draw size";
                dias := true; r_final_year := None |}];
  games := [game_1 false];
  centre_counts := counts_1900 ++ counts_10_10_6 1905;
  draw_proposals := [];
  game_players := seven_game_players; round_players := seven_round_players;
  tournament_players := seven_tournament_players; game_images := [];
  G_SCORING_SYSTEMS := G_SCORING_SYSTEMS_loaded
|}.

(** A draw between the three survivors. *)
Definition draw_of_survivors (passed : bool) : DrawProposal := {|
  dp_game := 1; dp_year := 1905; dp_season := FALL; passed := passed;
  proposer := Austria; power_1 := Austria; power_2 := Some England;
  power_3 := Some France; power_4 := None; power_5 := None; power_6 := None;
  power_7 := None
|}.



(** * The claims *)




(** C4.  The claim is that [adjust_rank_score] leaves its arguments as they
    were; the code overwrites the rank points of the tied positions in the
    list it is given.  With Austria and England tied on 10, the position
    points 25, 14, 7 of the CDiplo 80 instance are left as 19.5, 19.5, 7,
    and a game scored next with that instance, which Austria tops alone on
    12 centres, gives Austria 12 + 19.5 where a fresh instance gives
    12 + 25. *)
Theorem adjust_rank_score_overwrites_rank_points :
  let after := (GScoringCDiplo_scores cdiplo_80 (counts_10_10_6 1905)).1 in
  (adjust_rank_score (counts_10_10_6 1905) pts_25_14_7).1
    = [(of_int 39 / of_int 2)%Qc; (of_int 39 / of_int 2)%Qc; of_int 7] ∧
  position_pts after = [(of_int 39 / of_int 2)%Qc; (of_int 39 / of_int 2)%Qc; of_int 7] ∧
  score_of (GScoringCDiplo_scores after (counts_12_9_6 1905)).2 Austria
    = Ok (of_int 12 + of_int 39 / of_int 2)%Qc ∧
  score_of (GScoringCDiplo_scores cdiplo_80 (counts_12_9_6 1905)).2 Austria
    = Ok (of_int 12 + of_int 25)%Qc.
Proof. by_evaluation. Qed.

(** In whatever order the database yields the tied rows, the final year
    above is scored the same. *)
Lemma cdiplo_80_scenario_orders :
  Forall (λ final_scs,
            sorted_desc cc_count final_scs →
            (GScoringCDiplo_scores_of cdiplo_80 final_scs).2 = Ok scores_29_29_13)
         (permutations (counts_10_10_6 1905)).
Proof. by_evaluation. Qed.

(** C5.  CDiplo 80 end to end: the system registered as "CDiplo 80" has
    80 points for a solo, 0 for playing and 25, 14, 7 for the first three
    places; for a game whose final-year centre counts are Austria 10,
    England 10, France 6 and 0 for the four other powers (in game 1, year
    1905, say; earlier years may be on record too), its [scores] returns
    29.5 for Austria and for England, 13 for France and 0 for each
    eliminated power, in whatever order the tied rows come. *)
Theorem cdiplo_80_scenario (centre_counts final_scs : list CentreCount) :
  _final_year_scs centre_counts = Ok final_scs →
  final_scs ≡ₚ counts_10_10_6 1905 →
  snd <$> find_scoring_system gss_name "CDiplo 80" G_SCORING_SYSTEMS_loaded
    = Some (GScoringCDiplo cdiplo_80) ∧
  (GScoringCDiplo_scores cdiplo_80 centre_counts).2 = Ok scores_29_29_13 ∧
  scores_29_29_13 !! Austria = Some (of_int 10 + (of_int 25 + of_int 14) / of_int 2)%Qc ∧
  scores_29_29_13 !! England = Some (of_int 10 + (of_int 25 + of_int 14) / of_int 2)%Qc ∧
  scores_29_29_13 !! France = Some (of_int 6 + of_int 7)%Qc ∧
  Forall (λ p, scores_29_29_13 !! p = Some 0%Qc) [Germany; Italy; Russia; Turkey].
Proof.
  intros Hfinal Hperm.
  split; [by_evaluation|]. split.
  - unfold GScoringCDiplo_scores. rewrite Hfinal.
    pose proof cdiplo_80_scenario_orders as Hall.
    rewrite Forall_forall in Hall. apply Hall.
    + by apply permutations_Permutation.
    + by eapply _final_year_scs_sorted.
  - by_evaluation.
Qed.

Lemma cdiplo_80_scenario_witness :
  (GScoringCDiplo_scores cdiplo_80 (counts_1900 ++ counts_10_10_6 1905)).2
    = Ok scores_29_29_13.
Proof.
  apply (cdiplo_80_scenario (counts_1900 ++ counts_10_10_6 1905) (counts_10_10_6 1905)).
  - vm_compute. reflexivity.
  - reflexivity.
Defined.

(** C9.  A tournament with no round is finished, a round with no game is
    not. *)
Theorem is_finished_when_empty (w : World) (t : Tournament) (r : Round) :
  round_set (t_id t) w = [] →
  game_set (r_id r) w = [] →
  Tournament_is_finished t w = true ∧ Round_is_finished r w = false.
Proof.
  intros Ht Hr. unfold Tournament_is_finished, Round_is_finished.
  by rewrite Ht, Hr.
Qed.

Lemma is_finished_when_empty_witness :
  Tournament_is_finished
    {| t_id := 2; tournament_scoring_system := "Sum best 2 rounds";
       round_scoring_system := "Best game counts" |} world_no_rounds_no_games = true ∧
  Round_is_finished (round_1 "Draw size") world_no_rounds_no_games = false.
Proof.
  apply (is_finished_when_empty world_no_rounds_no_games); reflexivity.
Defined.

(** C7.  Ledger progression.  For a centre count of a game and round that
    are in the database: when the one row of the same power and game for the
    year before has less than half its count, or has count 0 while the new
    count is positive, [clean] raises [ValidationError]; when there is no
    row for the year before, and the year is not after the round's final
    year, [clean] accepts the row, and so do the validators of a year from
    1900 on and of a count from 0 to 34. *)
Theorem CentreCount_clean_progression (w : World) (self : CentreCount)
    (g : Game) (r : Round) :
  get_game (cc_game self) w = Ok g →
  get_round (the_round g) w = Ok r →
  let year_before :=
    filter (λ sc, cc_power sc = cc_power self ∧ cc_game sc = cc_game self
                  ∧ cc_year sc = cc_year self - 1) (centre_counts w) in
  (∀ prev, year_before = [prev] →
     cc_count self > 2 * cc_count prev ∨ (cc_count prev = 0 ∧ cc_count self > 0) →
     CentreCount_clean self w = Err ValidationError) ∧
  (year_before = [] →
     match r_final_year r with
     | Some y => y = 0 ∨ cc_year self ≤ y
     | None => True
     end →
     CentreCount_clean self w = Ok () ∧
     (FIRST_YEAR - 1 ≤ cc_year self →
        validate_year_including_start (cc_year self) = Ok ()) ∧
     (0 ≤ cc_count self ≤ TOTAL_SCS → validate_sc_count (cc_count self) = Ok ())).
Proof.
  intros Hg Hr year_before. unfold CentreCount_clean.
  rewrite Hg. simpl. rewrite Hr. simpl. fold year_before. split.
  - intros prev -> Hbad.
    destruct (r_final_year r) as [y|]; simpl.
    + destruct (truthy y && bool_decide (cc_year self > y)); simpl; [done|].
      repeat case_decide; try done. lia.
    + repeat case_decide; try done. lia.
  - intros -> Hrange. split; [|split].
    + destruct (r_final_year r) as [y|]; simpl; [|done].
      unfold truthy. destruct Hrange as [->|Hle].
      * by rewrite bool_decide_eq_false_2 by lia.
      * rewrite (bool_decide_eq_false_2 (cc_year self > y)) by lia.
        by rewrite andb_false_r.
    + intros Hy. unfold validate_year_including_start.
      by rewrite decide_False by lia.
    + intros Hc. unfold validate_sc_count.
      by rewrite decide_False by lia.
Qed.

(** Count 10 after 4 and count 5 after 0 are refused; a first count is
    accepted. *)
Lemma CentreCount_clean_progression_witness :
  CentreCount_clean (count_in 1902 Austria 10)
    (world_1 "Draw size" false [count_in 1901 Austria 4]) = Err ValidationError ∧
  CentreCount_clean (count_in 1902 Austria 5)
    (world_1 "Draw size" false [count_in 1901 Austria 0]) = Err ValidationError ∧
  CentreCount_clean (count_in 1902 Austria 10)
    (world_1 "Draw size" false [count_in 1900 Austria 3]) = Ok ().
Proof.
  split; [|split].
  - destruct (CentreCount_clean_progression
                (world_1 "Draw size" false [count_in 1901 Austria 4])
                (count_in 1902 Austria 10) (game_1 false) (round_1 "Draw size")
                eq_refl eq_refl) as [Hbad _].
    apply (Hbad (count_in 1901 Austria 4)); [reflexivity | left; reflexivity].
  - destruct (CentreCount_clean_progression
                (world_1 "Draw size" false [count_in 1901 Austria 0])
                (count_in 1902 Austria 5) (game_1 false) (round_1 "Draw size")
                eq_refl eq_refl) as [Hbad _].
    apply (Hbad (count_in 1901 Austria 0)); [reflexivity | right; split; reflexivity].
  - destruct (CentreCount_clean_progression
                (world_1 "Draw size" false [count_in 1900 Austria 3])
                (count_in 1902 Austria 10) (game_1 false) (round_1 "Draw size")
                eq_refl eq_refl) as [_ Hok].
    destruct Hok as [H _]; [reflexivity | exact I | exact H].
Defined.

(** C6.  Sum of squares, for the ledger of one game (its rows are told apart
    by power and year) with [final_scs] the rows of its latest year.  If no
    count of the final year reaches 18 and the sum of the squares of the
    final counts is positive, [scores] gives each power of the final year
    100 times its squared count over that sum, gives no other power a
    score, and the scores add up to 100 (exactly, floats being idealised).
    If some count reaches 18, each power that does scores 100 and each
    other power of the final year scores 0. *)
Theorem sum_of_squares_scores (g : nat) (centre_counts final_scs : list CentreCount) :
  NoDup (cc_key <$> centre_counts) →
  (∀ sc, sc ∈ centre_counts → cc_game sc = g) →
  _final_year_scs centre_counts = Ok final_scs →
  (Forall (λ sc, cc_count sc < WINNING_SCS) final_scs →
   0 < sum_squares final_scs →
   ∃ scores,
     GScoringSumOfSquares_scores centre_counts = Ok scores ∧
     (∀ sc, sc ∈ final_scs →
        scores !! cc_power sc =
          Some (of_int 100 * of_int (cc_count sc * cc_count sc)
                / of_int (sum_squares final_scs))%Qc) ∧
     (∀ p, p ∉ cc_power <$> final_scs → scores !! p = None) ∧
     dict_sum scores = of_int 100) ∧
  (Exists (λ sc, WINNING_SCS ≤ cc_count sc) final_scs →
   ∃ scores,
     GScoringSumOfSquares_scores centre_counts = Ok scores ∧
     ∀ sc, sc ∈ final_scs →
       scores !! cc_power sc =
         Some (if decide (WINNING_SCS ≤ cc_count sc) then of_int 100 else 0%Qc)).
Proof.
  intros Hkeys Hgame Hfinal.
  pose proof (_final_year_scs_powers _ _ _ Hkeys Hgame Hfinal) as Hnd.
  unfold GScoringSumOfSquares_scores. rewrite Hfinal. cbn [mbind result_bind].
  rewrite GScoringSumOfSquares_first_loop. cbn [orb]. rewrite Z.add_0_l.
  split.
  - intros Hnosolo Hpos.
    replace (existsb _ final_scs) with false; cycle 1.
    { symmetry. apply not_true_iff_false. intros (sc & Hsc & Hs)%existsb_exists.
      apply bool_decide_eq_true in Hs. apply list_elem_of_In in Hsc.
      rewrite Forall_forall in Hnosolo. specialize (Hnosolo _ Hsc). lia. }
    set (f := λ sc, (of_int (cc_count sc * cc_count sc) * of_int 100)%Qc).
    destruct (GScoringSumOfSquares_second_loop (sum_squares final_scs) f final_scs
                (foldl (λ m sc, <[cc_power sc := f sc]> m) ∅ final_scs))
      as (scores & Hscores & Hin & Hout); [lia | done | |].
    { intros sc Hsc. by apply (foldl_insert_lookup cc_power f). }
    exists scores. split; [done|].
    assert (of_int (sum_squares final_scs) ≠ 0%Qc) as HS.
    { unfold of_int. rewrite <-Z2Qc_inj_0. intros ?%Z2Qc_inj. lia. }
    assert (∀ p, p ∉ cc_power <$> final_scs → scores !! p = None) as Hnone.
    { intros p Hp. rewrite Hout by done.
      by rewrite (foldl_insert_lookup_ne cc_power f). }
    split; [|split; [done|]].
    + intros sc Hsc. rewrite Hin by done. unfold f. f_equal.
      unfold Qcdiv. ring.
    + rewrite (dict_of_lookups cc_power
                 (λ sc, (f sc / of_int (sum_squares final_scs))%Qc) final_scs scores)
        by done.
      rewrite dict_sum_list_to_map by done. unfold f.
      rewrite (sum_points_scaled (of_int 100) (of_int (sum_squares final_scs))
                 (λ sc, cc_count sc * cc_count sc)).
      fold (sum_squares final_scs).
      rewrite (Qcmult_comm _ (of_int 100)). unfold Qcdiv.
      by rewrite <-Qcmult_assoc, Qcmult_inv_r, Qcmult_1_r.
  - intros Hsolo.
    replace (existsb _ final_scs) with true; cycle 1.
    { symmetry. apply existsb_exists. apply Exists_exists in Hsolo as (sc & Hsc & Hs).
      exists sc. split; [by apply list_elem_of_In|]. by apply bool_decide_eq_true. }
    eexists. split; [done|]. intros sc Hsc.
    by apply (foldl_insert_lookup cc_power
                (λ sc, if decide (WINNING_SCS ≤ cc_count sc) then of_int 100 else 0%Qc)).
Qed.

(** The ledger of game 1 with its year-1900 rows and a final year 1905 of
    10, 10, 6 (nobody on 18): the scores add up to 100. *)
Lemma sum_of_squares_scores_witness :
  ∃ scores,
    GScoringSumOfSquares_scores (counts_1900 ++ counts_10_10_6 1905) = Ok scores ∧
    scores !! Austria = Some (of_int 100 * of_int (10 * 10) / of_int 236)%Qc ∧
    dict_sum scores = of_int 100.
Proof.
  destruct (sum_of_squares_scores 1 (counts_1900 ++ counts_10_10_6 1905)
              (counts_10_10_6 1905)) as [Hnosolo _].
  - by_evaluation.
  - intros sc Hsc. revert sc Hsc. apply Forall_forall. by_evaluation.
  - vm_compute. reflexivity.
  - destruct Hnosolo as (scores & Hs & Hin & _ & Hsum).
    + by_evaluation.
    + reflexivity.
    + exists scores. split; [done|]. split; [|done].
      apply (Hin (count_in 1905 Austria 10)). by left.
Defined.

(** C1.  The claim is that with a passed draw every power outside it scores
    0.  The code gives a survivor left out of the draw its share of the
    no-draw split: with a passed draw between Austria and England (10
    centres each) and France alive on 14, nobody having soloed, Austria and
    England score 100/2 each and France scores 100/3, three powers being
    alive. *)
Theorem draw_size_excluded_survivor :
  let w := world_draw in
  let scores := GScoringDrawSize_scores (centrecount_set 1 w) w in
  Game_soloer (game_1 true) w = Ok None ∧
  passed_draw_powers (game_1 true) w = Ok [Austria; England] ∧
  score_of scores Austria = Ok (of_int 100 / of_int 2)%Qc ∧
  score_of scores England = Ok (of_int 100 / of_int 2)%Qc ∧
  score_of scores France = Ok (of_int 100 / of_int 3)%Qc ∧
  total_of scores = Ok (of_int 100 + of_int 100 / of_int 3)%Qc.
Proof. by_evaluation. Qed.

(** C8.  The claim is that [soloer] returns a [GamePlayer] whenever a count
    of 18 or more is on record.  In a game in which Austria, who reached 18
    in 1905, was played by two players in turn, [soloer] returns no
    [GamePlayer]: [gameplayer_set.filter(power=...).get()] finds both and
    raises [MultipleObjectsReturned], where the method's docstring promises
    a [GamePlayer] or [None] and its own TODO says that it fails for a
    replacement player. *)
Theorem Game_soloer_replacement_player :
  let w := world_solo_then_17 (seven_game_players ++ [replacement_for_Austria]) in
  count_in 1905 Austria 18 ∈ centrecount_set 1 w ∧
  Game_soloer (game_1 true) w = Err MultipleObjectsReturned ∧
  ¬ ((∃ gp, Game_soloer (game_1 true) w = Ok (Some gp)) ↔
     (∃ sc, sc ∈ centrecount_set 1 w ∧ WINNING_SCS ≤ cc_count sc)).
Proof.
  intros w.
  assert (count_in 1905 Austria 18 ∈ centrecount_set 1 w) as Hin by by_evaluation.
  assert (Game_soloer (game_1 true) w = Err MultipleObjectsReturned) as Herr
    by by_evaluation.
  split; [done|]. split; [done|].
  intros [_ Hback]. destruct Hback as [gp Hgp].
  - exists (count_in 1905 Austria 18). split; [done|]. by_evaluation.
  - congruence.
Qed.

(** C10.  The claim is that every save of a game creates the year-1900
    centre counts that are absent.  The code looks each row up by its count
    as well as by power, game and year (and its comment reads "unless they
    already exist"): when the row of a power for 1900 is on record with
    another count, the lookup misses it, the insert that follows breaks
    [unique_together], and the save raises [IntegrityError].  With the
    ledger of game 1 holding France on 4 centres in 1900 and nothing else,
    the save creates the rows of Austria and England, raises at France, and
    leaves Germany, Italy, Russia and Turkey with no row for 1900; the image
    of spring 1901 is not created either. *)
Theorem Game_save_1900_other_count :
  let w := world_1 "Draw size" false [count_in 1900 France 4] in
  let w' := (Game_save (game_1 false) w).1 in
  (Game_save (game_1 false) w).2 = Err IntegrityError ∧
  centre_counts w' =
    [count_in 1900 France 4; count_in 1900 Austria 3; count_in 1900 England 3] ∧
  (count_in 1900 France 3 ∉ centrecount_set 1 w') ∧
  Forall (λ power, power ∉ cc_power <$> centrecount_set 1 w')
    [Germany; Italy; Russia; Turkey] ∧
  game_images w' = [].
Proof. lazy zeta. repeat split; by_evaluation. Qed.

(** C3, amended.  [Game.save] has no guard: whenever [self.is_finished] it
    computes the scores again and stores them, whatever the game was on
    record as.  What holds is that a second run finds nothing to change,
    when the position points that the first run left in the scoring
    systems are settled, that is, when scoring the game once more leaves
    them as they are: in a database that keeps its primary keys and
    [unique_together] constraints, when such a save of a game has returned,
    saving the same game again at once returns too and leaves the database
    as it is, so every stored [GamePlayer], [RoundPlayer] and
    [TournamentPlayer] score is the same, as are the position points. *)
Theorem Game_save_again (self : Game) (w w1 : World) :
  db_unique w →
  Game_save self w = (w1, Ok ()) →
  G_SCORING_SYSTEMS (Game_scores self true w1).1 = G_SCORING_SYSTEMS w1 →
  Game_save self w1 = (w1, Ok ()).
Proof.
  intros (Hgp & Hr & Hg & Hcc & Hgi & Hgpl & Hrp & Htp) Hrun Hsystems.
  unfold Game_save in Hrun.
  apply bind_Ok in Hrun as (wa & [] & H1900 & Hrun).
  apply bind_Ok in Hrun as (wb & [] & Himage & Hrun).
  apply Game_save_1900_again in H1900 as ([ta Ha] & Hga & Hcca & H1900); [|done..].
  apply Game_save_image_again in Himage as ([tb Hb] & Himage); [|by rewrite Ha].
  assert (great_powers w1 = great_powers wb ∧ rounds w1 = rounds wb ∧
          games w1 = games wb ∧ centre_counts w1 = centre_counts wb ∧
          game_images w1 = game_images wb) as (Hf1 & Hf2 & Hf3 & Hf4 & Hf5).
  { destruct (is_finished self); [|by injection Hrun as <-].
    pose proof (Game_save_scores_frame self wb) as Hframe.
    by rewrite Hrun in Hframe. }
  unfold Game_save.
  erewrite bind_run; cycle 1.
  { apply H1900; [rewrite Hf1|rewrite Hf2|rewrite Hf3|rewrite Hf4]; by rewrite Hb. }
  erewrite bind_run by by apply Himage.
  destruct (is_finished self); [|done].
  apply (Game_save_scores_again self wb); [..|done|done]; rewrite Hb;
    try done; by rewrite Ha.
Qed.

(** Game 1 of the example under CDiplo 80: the first save stores 29.5,
    29.5 and 13 and leaves 19.5, 19.5 and 7 as position points, which
    scoring the game once more leaves as they are; the second save changes
    nothing. *)
Lemma Game_save_again_witness :
  let w := world_played "CDiplo 80" in
  let w1 := (Game_save (game_1 true) w).1 in
  db_unique w ∧
  gpl_score <$> game_players w1 =
    [(of_int 59 / of_int 2)%Qc; (of_int 59 / of_int 2)%Qc; of_int 13;
     of_int 0; of_int 0; of_int 0; of_int 0] ∧
  Game_save (game_1 true) w1 = (w1, Ok ()).
Proof.
  lazy zeta.
  assert (db_unique (world_played "CDiplo 80")) as Hunique.
  { unfold db_unique. by_evaluation. }
  split; [done|]. split; [by_evaluation|].
  apply (Game_save_again (game_1 true) (world_played "CDiplo 80")); [done| |].
  - vm_compute. reflexivity.
  - by_evaluation.
Defined.

(** C3 as stated fails: the first save of game 1, on record as in progress,
    stores 29.5, 29.5 and 13 under CDiplo 80; the scoring system of the
    round is then set to draw size, the centre counts and the draws being
    left alone; the second save of the game, now on record as finished,
    runs the three computations again and stores 100/3 for each survivor,
    in the game, the round and the tournament. *)
Lemma Game_save_again_counterexample :
  let w1 := (Game_save (game_1 true) (world_played "CDiplo 80")).1 in
  let w2 := with_round_system "Draw size" w1 in
  let w3 := (Game_save (game_1 true) w2).1 in
  let stored : list Qc :=
    [(of_int 59 / of_int 2)%Qc; (of_int 59 / of_int 2)%Qc; of_int 13;
     of_int 0; of_int 0; of_int 0; of_int 0] in
  let stored_again : list Qc :=
    [(of_int 100 / of_int 3)%Qc; (of_int 100 / of_int 3)%Qc;
     (of_int 100 / of_int 3)%Qc; of_int 0; of_int 0; of_int 0; of_int 0] in
  (Game_save (game_1 true) (world_played "CDiplo 80")).2 = Ok () ∧
  games w2 = [game_1 true] ∧
  gpl_score <$> game_players w2 = stored ∧
  rp_score <$> round_players w2 = stored ∧
  tp_score <$> tournament_players w2 = stored ∧
  (Game_save (game_1 true) w2).2 = Ok () ∧
  centre_counts w3 = centre_counts w1 ∧
  draw_proposals w3 = draw_proposals w1 ∧
  gpl_score <$> game_players w3 = stored_again ∧
  rp_score <$> round_players w3 = stored_again ∧
  tp_score <$> tournament_players w3 = stored_again.
Proof. lazy zeta. repeat split; by_evaluation. Qed.

(** * More of the code *)

(** X1.  [Game.final_year] (the last of the sorted years played) and the
    scoring systems' [_final_year] (the year of the first row by descending
    year) give the same: [IndexError] for a game with no centre count on
    record, and the greatest year on record otherwise. *)
Theorem final_year_agrees (self : Game) (w : World) :
  let ledger := centrecount_set (g_id self) w in
  Game_final_year self w = _final_year ledger ∧
  (ledger = [] → Game_final_year self w = Err IndexError) ∧
  (ledger ≠ [] →
   ∃ y, Game_final_year self w = Ok y ∧
        (∃ sc, sc ∈ ledger ∧ cc_year sc = y) ∧
        ∀ sc, sc ∈ ledger → cc_year sc ≤ y).
Proof.
  intros ledger.
  assert (ledger = [] → Game_final_year self w = Err IndexError
                        ∧ _final_year ledger = Err IndexError) as Hnil.
  { intros Hl. unfold Game_final_year, Game_years_played. fold ledger.
    by rewrite Hl. }
  assert (ledger ≠ [] →
          ∃ y, Game_final_year self w = Ok y ∧ _final_year ledger = Ok y ∧
               (∃ sc, sc ∈ ledger ∧ cc_year sc = y) ∧
               ∀ sc, sc ∈ ledger → cc_year sc ≤ y) as Hcons.
  { intros Hl.
    assert (Game_years_played self w ≠ []) as Hyears.
    { destruct ledger as [|sc l] eqn:Hledger; [done|].
      intros Hnone.
      assert (cc_year sc ∈ Game_years_played self w) as Hin.
      { apply Game_years_played_elem_of. exists sc. split; [|done].
        fold ledger. rewrite Hledger. by left. }
      rewrite Hnone in Hin. by apply elem_of_nil in Hin. }
    destruct (Game_final_year_Some self w Hyears) as (y & Hy & Hin).
    pose proof Hin as (sc & Hsc & Hyear)%Game_years_played_elem_of.
    fold ledger in Hsc.
    assert (∀ sc', sc' ∈ ledger → cc_year sc' ≤ y) as Hmax.
    { intros sc' Hsc'. unfold Game_final_year in Hy.
      destruct (last (Game_years_played self w)) as [y'|] eqn:Hlast; [|done].
      injection Hy as ->.
      apply (sorted_last_max _ _ (Game_years_played_sorted self w) Hlast).
      apply Game_years_played_elem_of. by exists sc'. }
    exists y. split; [done|]. split; [|split; [by exists sc|done]].
    unfold _final_year.
    pose proof (qs_index0_order_by_desc cc_year ledger) as Htop.
    destruct (qs_index0 (order_by_desc cc_year ledger)) as [top|e];
      [|by destruct Htop as [_ ?]].
    destruct Htop as [Htop Hge]. cbn [mbind result_bind]. f_equal.
    specialize (Hmax top Htop). specialize (Hge sc Hsc). lia. }
  split; [|split].
  - destruct (decide (ledger = [])) as [Hl|Hl].
    + destruct (Hnil Hl) as [-> ->]. done.
    + destruct (Hcons Hl) as (y & -> & -> & _). done.
  - intros Hl. by destruct (Hnil Hl).
  - intros Hl. destruct (Hcons Hl) as (y & ? & _ & ? & ?). by exists y.
Qed.

(** X2.  [Game.years_played] lists each year that has a centre count of the
    game on record once, in increasing order, and no other year. *)
Theorem Game_years_played_increasing (self : Game) (w : World) :
  StronglySorted Z.lt (Game_years_played self w) ∧
  ∀ y, y ∈ Game_years_played self w ↔
       ∃ sc, sc ∈ centrecount_set (g_id self) w ∧ cc_year sc = y.
Proof.
  split; [|apply Game_years_played_elem_of].
  apply StronglySorted_le_lt; [apply Game_years_played_sorted|].
  unfold Game_years_played. rewrite merge_sort_Permutation.
  apply NoDup_remove_dups.
Qed.

(** X3.  [Tournament.current_round] returns [None] exactly when
    [Tournament.is_finished]; the round it returns otherwise is not
    finished, and every round of the tournament that comes before it is. *)
Theorem Tournament_current_round_spec (self : Tournament) (w : World) :
  (Tournament_current_round self w = None ↔ Tournament_is_finished self w = true) ∧
  ∀ r, Tournament_current_round self w = Some r →
    ∃ before after,
      round_set (t_id self) w = before ++ r :: after ∧
      Round_is_finished r w = false ∧
      Forall (λ r', Round_is_finished r' w = true) before.
Proof.
  split; [apply current_round_loop_None|].
  intros r. apply current_round_loop_Some.
Qed.

(** X4.  [Game.board_toppers] raises [IndexError] for a game with no centre
    count on record; otherwise it returns a list that is not empty and
    holds exactly the centre counts of the latest year on record whose
    count no other count of that year exceeds. *)
Theorem Game_board_toppers_spec (self : Game) (w : World) :
  let ledger := centrecount_set (g_id self) w in
  (ledger = [] → Game_board_toppers self w = Err IndexError) ∧
  (ledger ≠ [] →
   ∃ toppers,
     Game_board_toppers self w = Ok toppers ∧ toppers ≠ [] ∧
     ∀ sc, sc ∈ toppers ↔
       sc ∈ ledger ∧
       (∀ sc', sc' ∈ ledger → cc_year sc' ≤ cc_year sc) ∧
       (∀ sc', sc' ∈ ledger → cc_year sc' = cc_year sc → cc_count sc' ≤ cc_count sc)).
Proof.
  intros ledger. unfold Game_board_toppers. fold ledger. split.
  { intros ->. done. }
  intros Hne.
  pose proof (qs_index0_order_by_desc cc_year ledger) as Hlatest.
  destruct (qs_index0 (order_by_desc cc_year ledger)) as [latest|e];
    [|by destruct Hlatest as [_ ?]].
  destruct Hlatest as [Hlatest Hyears]. cbn [mbind result_bind].
  set (current_scs := filter (λ sc, cc_year sc = cc_year latest)
                        (order_by_desc cc_year ledger)).
  assert (∀ sc, sc ∈ current_scs ↔ sc ∈ ledger ∧ cc_year sc = cc_year latest)
    as Hcurrent.
  { intros sc. unfold current_scs.
    rewrite list_elem_of_filter, order_by_desc_elem_of. tauto. }
  pose proof (qs_index0_order_by_desc cc_count current_scs) as Htop.
  destruct (qs_index0 (order_by_desc cc_count current_scs)) as [top|e].
  2: { destruct Htop as [_ Hnil].
       assert (latest ∈ current_scs) as Hin by by apply Hcurrent.
       rewrite Hnil in Hin. by apply elem_of_nil in Hin. }
  destruct Htop as [Htop Hcounts]. cbn [mbind result_bind].
  eexists. split; [done|].
  assert (∀ sc, sc ∈ filter (λ sc, cc_count sc = cc_count top)
                       (order_by_desc cc_count current_scs)
                ↔ sc ∈ current_scs ∧ cc_count sc = cc_count top) as Htoppers.
  { intros sc. rewrite list_elem_of_filter, order_by_desc_elem_of. tauto. }
  split.
  { intros Hnil. assert (top ∈ @nil CentreCount) as Hin; [|by apply elem_of_nil in Hin].
    rewrite <-Hnil. by apply Htoppers. }
  intros sc. rewrite Htoppers, Hcurrent. split.
  - intros [[Hsc Hyear] Hcount]. split; [done|]. split.
    + intros sc' Hsc'. rewrite Hyear. by apply Hyears.
    + intros sc' Hsc' Hyear'. rewrite Hcount. apply Hcounts, Hcurrent.
      split; [done|congruence].
  - intros (Hsc & Hlate & Hmost).
    assert (cc_year sc = cc_year latest) as Hyear.
    { specialize (Hlate latest Hlatest). specialize (Hyears sc Hsc). lia. }
    split; [done|].
    apply Hcurrent in Htop as [Htop Htop_year].
    assert (sc ∈ current_scs) as Hin by by apply Hcurrent.
    specialize (Hcounts sc Hin).
    specialize (Hmost top Htop ltac:(congruence)). lia.
Qed.

(** X5.  [find_scoring_system] returns the first system of the list that
    has the name asked for, and [None] exactly when no system of the list
    has it.  Each of the game, round and tournament scoring systems that are
    registered is found by its own name. *)
Theorem find_scoring_system_first {T} (name_of : T → string) (name : string)
    (the_list : list T) :
  match find_scoring_system name_of name the_list with
  | Some (k, s) =>
      the_list !! k = Some s ∧ name_of s = name ∧
      ∀ j s', (j < k)%nat → the_list !! j = Some s' → name_of s' ≠ name
  | None => ∀ s, s ∈ the_list → name_of s ≠ name
  end ∧
  Forall (λ s, snd <$> find_scoring_system gss_name (gss_name s) G_SCORING_SYSTEMS_loaded
               = Some s) G_SCORING_SYSTEMS_loaded ∧
  Forall (λ s, snd <$> find_scoring_system rss_name (rss_name s) R_SCORING_SYSTEMS
               = Some s) R_SCORING_SYSTEMS ∧
  Forall (λ s, snd <$> find_scoring_system ts_name (ts_name s) T_SCORING_SYSTEMS
               = Some s) T_SCORING_SYSTEMS.
Proof.
  split.
  - pose proof (find_scoring_system_from_first name_of name 0 the_list) as H.
    unfold find_scoring_system.
    destruct (find_scoring_system_from name_of name 0 the_list) as [[k s]|]; [|done].
    rewrite Nat.sub_0_r in H. by destruct H as (_ & ? & ? & ?).
  - repeat split; repeat constructor.
Qed.

(** X6.  [position_str] appends to the decimal notation of the position
    the suffix of the English ordinal: "st", "nd" and "rd" after a last
    digit 1, 2 and 3, but "th" when the last two digits are 11, 12 or 13,
    and "th" in every other case. *)
Theorem position_str_suffix (position : Z) :
  position_str position =
    pretty position +:+
      (if decide (position `mod` 10 = 1 ∧ position `mod` 100 ≠ 11) then "st"
       else if decide (position `mod` 10 = 2 ∧ position `mod` 100 ≠ 12) then "nd"
       else if decide (position `mod` 10 = 3 ∧ position `mod` 100 ≠ 13) then "rd"
       else "th").
Proof.
  unfold position_str. cbv zeta.
  assert ((position `mod` 100) `mod` 10 = position `mod` 10) as ->.
  { pose proof (Z.mod_pos_bound position 100 ltac:(lia)).
    pose proof (Z.mod_pos_bound position 10 ltac:(lia)).
    pose proof (Z.mod_pos_bound (position `mod` 100) 10 ltac:(lia)).
    pose proof (Z.div_mod position 100 ltac:(lia)).
    pose proof (Z.div_mod position 10 ltac:(lia)).
    pose proof (Z.div_mod (position `mod` 100) 10 ltac:(lia)).
    lia. }
  pose proof (Z.mod_pos_bound position 100 ltac:(lia)).
  pose proof (Z.div_mod position 100 ltac:(lia)).
  pose proof (Z.div_mod position 10 ltac:(lia)).
  pose proof (Z.mod_pos_bound position 10 ltac:(lia)).
  repeat case_decide; try done; exfalso; lia.
Qed.

(** X7.  "Solo or bust", for the ledger of one game: every power of the
    final year scores 100 if its final count is 18 or more and 0 otherwise,
    and no other power has a score. *)
Theorem GScoringSolos_scores_spec (g : nat) (centre_counts final_scs : list CentreCount) :
  NoDup (cc_key <$> centre_counts) →
  (∀ sc, sc ∈ centre_counts → cc_game sc = g) →
  _final_year_scs centre_counts = Ok final_scs →
  ∃ scores,
    GScoringSolos_scores centre_counts = Ok scores ∧
    (∀ sc, sc ∈ final_scs →
       scores !! cc_power sc =
         Some (if decide (WINNING_SCS ≤ cc_count sc) then of_int 100 else 0%Qc)) ∧
    (∀ p, p ∉ cc_power <$> final_scs → scores !! p = None).
Proof.
  intros Hnd Hg Hfinal.
  pose proof (_final_year_scs_powers g _ _ Hnd Hg Hfinal) as Hpowers.
  set (f := λ sc, if decide (WINNING_SCS ≤ cc_count sc) then of_int 100 else 0%Qc).
  unfold GScoringSolos_scores. rewrite Hfinal. cbn [mbind result_bind].
  rewrite (for_each_Ok_foldl _ _ (λ m sc, <[cc_power sc := f sc]> m)); cycle 1.
  { intros sc m _. unfold f. case_decide; [|done]. by rewrite insert_insert_eq. }
  eexists. split; [done|]. split.
  - intros sc Hsc. by apply (foldl_insert_lookup cc_power f).
  - intros p Hp. by rewrite (foldl_insert_lookup_ne cc_power f).
Qed.

Lemma GScoringSolos_scores_spec_witness :
  ∃ scores,
    GScoringSolos_scores (counts_1900 ++ counts_18 1905) = Ok scores ∧
    scores !! Austria = Some (of_int 100) ∧ scores !! England = Some 0%Qc.
Proof.
  destruct (GScoringSolos_scores_spec 1 (counts_1900 ++ counts_18 1905) (counts_18 1905))
    as (scores & Hscores & Hin & _).
  - by_evaluation.
  - intros sc Hsc. revert sc Hsc. apply Forall_forall. by_evaluation.
  - vm_compute. reflexivity.
  - exists scores. split; [done|]. split.
    + apply (Hin (count_in 1905 Austria 18)). by left.
    + apply (Hin (count_in 1905 England 6)). right. by left.
Defined.

(** X8.  "Draw size" when no draw passed and no count on record reaches 18:
    every power alive in the final year scores 100 divided by the number of
    powers alive, every eliminated power scores 0, and no other power has a
    score. *)
Theorem GScoringDrawSize_no_draw (w : World) (self : Game) (r : Round)
    (final_scs : list CentreCount) :
  let ledger := centrecount_set (g_id self) w in
  let survivors := length (filter (λ sc, 0 < cc_count sc) final_scs) in
  NoDup (cc_key <$> ledger) →
  get_game (g_id self) w = Ok self →
  get_round (the_round self) w = Ok r →
  Game_passed_draw self w = Ok None →
  (∀ sc, sc ∈ ledger → cc_count sc < WINNING_SCS) →
  _final_year_scs ledger = Ok final_scs →
  ∃ scores,
    GScoringDrawSize_scores ledger w = Ok scores ∧
    (∀ sc, sc ∈ final_scs →
       scores !! cc_power sc =
         Some (if decide (0 < cc_count sc)
               then (of_int 100 / of_int (Z.of_nat survivors))%Qc else 0%Qc)) ∧
    (∀ p, p ∉ cc_power <$> final_scs → scores !! p = None).
Proof.
  intros ledger survivors Hnd Hgame Hround Hdraw Hlow Hfinal.
  assert (∀ sc, sc ∈ ledger → cc_game sc = g_id self) as Hg.
  { by intros sc [? _]%list_elem_of_filter. }
  pose proof (_final_year_scs_powers _ _ _ Hnd Hg Hfinal) as Hpowers.
  assert (ledger ≠ []) as Hne.
  { intros Hnil. rewrite Hnil in Hfinal. done. }
  set (f := λ sc, if decide (0 < cc_count sc)
                  then (of_int 100 / of_int (Z.of_nat survivors))%Qc else 0%Qc).
  assert (GScoringDrawSize_scores ledger w
          = Ok (foldl (λ m sc, <[cc_power sc := f sc]> m) ∅ final_scs)) as Hscores.
  { unfold GScoringDrawSize_scores, _the_game.
    destruct ledger as [|sc0 rest] eqn:Hledger; [done|]. cbn [head].
    rewrite (Hg sc0) by by left. rewrite Hgame. cbn [mbind result_bind].
    unfold Game_is_dias. rewrite Hround. cbn [mbind result_bind].
    rewrite Hdraw. cbn [mbind result_bind].
    unfold _survivor_count. rewrite Hfinal. cbn [mbind result_bind].
    destruct (Game_soloer_cases self w) as (top & Htop & _ & ->).
    { fold ledger. by rewrite Hledger. }
    fold ledger in Htop. rewrite Hledger in Htop.
    rewrite decide_False by (specialize (Hlow top Htop); lia).
    cbn [mbind result_bind].
    apply for_each_Ok_foldl. intros sc m Hsc.
    unfold GScoringDrawSize_body.
    rewrite decide_False; cycle 1.
    { apply (final_year_scs_elem_of _ _ _ Hfinal) in Hsc.
      specialize (Hlow sc Hsc). lia. }
    cbn [mbind result_bind]. unfold f. fold survivors.
    case_decide as Halive; [|done].
    rewrite py_div_ne_0; cycle 1.
    { apply of_int_nat_ne_0. unfold survivors. intros Hzero.
      apply length_zero_iff_nil in Hzero.
      assert (sc ∈ filter (λ sc, 0 < cc_count sc) final_scs) as Hin
        by by apply list_elem_of_filter.
      rewrite Hzero in Hin. by apply elem_of_nil in Hin. }
    cbn [mbind result_bind]. by rewrite insert_insert_eq. }
  set (scores := foldl (λ (m : scores_dict) sc, <[cc_power sc := f sc]> m) ∅ final_scs)
    in Hscores.
  exists scores. split; [exact Hscores|].
  assert (∀ sc, sc ∈ final_scs → scores !! cc_power sc = Some (f sc)) as Hin.
  { intros sc Hsc. by apply (foldl_insert_lookup cc_power f). }
  assert (∀ p, p ∉ cc_power <$> final_scs → scores !! p = None) as Hout.
  { intros p Hp. unfold scores. by rewrite (foldl_insert_lookup_ne cc_power f). }
  split; done.
Qed.

Lemma GScoringDrawSize_no_draw_witness :
  let w := world_played "Draw size" in
  ∃ scores,
    GScoringDrawSize_scores (centrecount_set 1 w) w = Ok scores ∧
    scores !! France = Some (of_int 100 / of_int 3)%Qc ∧
    scores !! Turkey = Some 0%Qc ∧
    scores !! 8%nat = None.
Proof.
  lazy zeta.
  destruct (GScoringDrawSize_no_draw (world_played "Draw size") (game_1 false)
              (round_1 "Draw size") (counts_10_10_6 1905))
    as (scores & Hscores & Hin & Hout).
  - by_evaluation.
  - by_evaluation.
  - by_evaluation.
  - by_evaluation.
  - intros sc Hsc. revert sc Hsc. apply Forall_forall. by_evaluation.
  - vm_compute. reflexivity.
  - exists scores. split; [done|]. split; [|split].
    + apply (Hin (count_in 1905 France 6)). by_evaluation.
    + apply (Hin (count_in 1905 Turkey 0)). by_evaluation.
    + apply Hout. by_evaluation.
Defined.

(** X9.  [GScoringCDiplo.scores], for the ledger of one game whose final
    year has at least as many powers as there are position points.  If a
    power has 18 or more in the final year, each power on 18 or more scores
    [soloer_pts] and every other power [loss_pts].  Otherwise the power in
    place [i] scores [played_pts] plus its count plus the [i]-th of the
    rank points that [adjust_rank_score] returns, of which there is one for
    each power. *)
Theorem GScoringCDiplo_scores_spec (g : nat) (self : CDiplo)
    (centre_counts final_scs : list CentreCount) :
  NoDup (cc_key <$> centre_counts) →
  (∀ sc, sc ∈ centre_counts → cc_game sc = g) →
  _final_year_scs centre_counts = Ok final_scs →
  (length (position_pts self) ≤ length final_scs)%nat →
  (Exists (λ sc, WINNING_SCS ≤ cc_count sc) final_scs →
   ∃ scores,
     (GScoringCDiplo_scores self centre_counts).2 = Ok scores ∧
     ∀ sc, sc ∈ final_scs →
       scores !! cc_power sc =
         Some (if decide (WINNING_SCS ≤ cc_count sc)
               then soloer_pts self else loss_pts self)) ∧
  (Forall (λ sc, cc_count sc < WINNING_SCS) final_scs →
   ∃ scores rank_pts,
     (GScoringCDiplo_scores self centre_counts).2 = Ok scores ∧
     (adjust_rank_score final_scs (position_pts self)).2 = Ok rank_pts ∧
     length rank_pts = length final_scs ∧
     (∀ i sc pts, final_scs !! i = Some sc → rank_pts !! i = Some pts →
        scores !! cc_power sc
          = Some (played_pts self + of_int (cc_count sc) + pts)%Qc)).
Proof.
  intros Hnd Hg Hfinal Hlen.
  pose proof (_final_year_scs_powers g _ _ Hnd Hg Hfinal) as Hpowers.
  destruct (final_year_scs_top _ _ Hfinal) as (top & Htop & Htop_in & Hmax).
  destruct (adjust_rank_score_props final_scs (position_pts self) Hlen)
    as (rank_pts & Hranks & Hlen_ranks & Hsum).
  unfold GScoringCDiplo_scores. rewrite Hfinal. unfold GScoringCDiplo_scores_of.
  destruct (adjust_rank_score final_scs (position_pts self)) as [position_pts' r].
  simpl in Hranks. subst r. cbn [snd mbind result_bind]. split.
  - intros (sc & Hsc & Hsolo)%Exists_exists.
    rewrite (GScoringCDiplo_loop_solo self final_scs rank_pts top);
      [|done|specialize (Hmax sc Hsc); lia].
    cbn [mbind result_bind fst]. eexists. split; [done|].
    intros sc' Hsc'.
    by apply (foldl_insert_lookup cc_power
                (λ sc, if decide (WINNING_SCS ≤ cc_count sc)
                       then soloer_pts self else loss_pts self)).
  - intros Hlow. rewrite Forall_forall in Hlow.
    rewrite (GScoringCDiplo_loop_ranks self final_scs rank_pts top);
      [|done|specialize (Hlow top Htop_in); lia|lia].
    cbn [mbind result_bind fst]. rewrite drop_0.
    set (f := λ x : CentreCount * Qc,
                (played_pts self + of_int (cc_count x.1) + x.2)%Qc).
    set (key := λ x : CentreCount * Qc, cc_power x.1).
    set (scores := foldl (λ (m : scores_dict) x, <[key x := f x]> m) ∅
                     (zip final_scs rank_pts)).
    assert (key <$> zip final_scs rank_pts = cc_power <$> final_scs) as Hkeys.
    { rewrite <-(fst_zip final_scs rank_pts) at 2 by lia.
      by rewrite <-list_fmap_compose. }
    assert (NoDup (key <$> zip final_scs rank_pts)) as Hnd_keys by by rewrite Hkeys.
    assert (∀ x, x ∈ zip final_scs rank_pts → scores !! key x = Some (f x)) as Hin.
    { intros x Hx. by apply (foldl_insert_lookup key f). }
    assert (∀ p, p ∉ key <$> zip final_scs rank_pts → scores !! p = None) as Hout.
    { intros p Hp. unfold scores. by rewrite (foldl_insert_lookup_ne key f). }
    exists scores, rank_pts. split; [done|]. split; [done|]. split; [done|].
    intros i sc pts Hsc Hpts.
    apply (Hin (sc, pts)).
    apply (elem_of_lookup_zip_with_2 pair final_scs rank_pts sc pts (sc, pts) i);
      done.
Qed.

(** Austria and England, tied on 10 centres, score 0 + 10 + 19.5 each under
    CDiplo 80, France 0 + 6 + 7. *)
Lemma GScoringCDiplo_scores_spec_witness :
  ∃ scores,
    (GScoringCDiplo_scores cdiplo_80 (counts_1900 ++ counts_10_10_6 1905)).2 = Ok scores ∧
    scores !! Austria = Some (of_int 0 + of_int 10 + of_int 39 / of_int 2)%Qc ∧
    scores !! France = Some (of_int 0 + of_int 6 + of_int 7)%Qc.
Proof.
  destruct (GScoringCDiplo_scores_spec 1 cdiplo_80 (counts_1900 ++ counts_10_10_6 1905)
              (counts_10_10_6 1905)) as [_ Hranks].
  - by_evaluation.
  - intros sc Hsc. revert sc Hsc. apply Forall_forall. by_evaluation.
  - vm_compute. reflexivity.
  - simpl. lia.
  - destruct Hranks as (scores & rank_pts & Hscores & Hadjust & _ & Hin).
    + by_evaluation.
    + assert ((adjust_rank_score (counts_10_10_6 1905) (position_pts cdiplo_80)).2
              = Ok [(of_int 39 / of_int 2)%Qc; (of_int 39 / of_int 2)%Qc; of_int 7;
                    0%Qc; 0%Qc; 0%Qc; 0%Qc]) as Heval by by_evaluation.
      rewrite Heval in Hadjust. injection Hadjust as <-.
      exists scores. split; [done|]. split.
      * by apply (Hin 0%nat (count_in 1905 Austria 10)).
      * by apply (Hin 2%nat (count_in 1905 France 6)).
Defined.

(** X10.  Scores of a game that has no centre count on record, computed
    live (the game is not finished, or a recalculation is forced): whatever
    registered system the round names, [Game.scores] raises and returns no
    dictionary: [AttributeError] under "Draw size", which asks
    [centre_counts.first()] for its game, and [IndexError] under the other
    systems, which index the empty query set.  Nothing is written. *)
Theorem Game_scores_no_centre_counts (self : Game) (force_recalculation : bool)
    (w : World) (r : Round) (k : nat) (system : GameScoringSystem) :
  is_finished self && negb force_recalculation = false →
  get_round (the_round self) w = Ok r →
  find_scoring_system gss_name (scoring_system r) (G_SCORING_SYSTEMS w) = Some (k, system) →
  centrecount_set (g_id self) w = [] →
  Game_scores self force_recalculation w =
    (w, Err (match system with
             | GScoringDrawSize => AttributeError
             | _ => IndexError
             end)).
Proof.
  intros Hlive Hround Hsystem Hnone. unfold Game_scores. rewrite Hlive.
  erewrite bind_run by by rewrite query_run, Hround.
  erewrite bind_run by apply query_run.
  rewrite Hsystem, Hnone.
  destruct system as [| |cdiplo|]; try done.
  unfold GameScoringSystem_scores. cbn. f_equal.
  apply set_G_SCORING_SYSTEMS_id, list_insert_id.
  by apply find_scoring_system_Some in Hsystem as [? _].
Qed.

Lemma Game_scores_no_centre_counts_witness :
  Game_scores (game_1 false) false (world_1 "Draw size" false [])
    = (world_1 "Draw size" false [], Err AttributeError) ∧
  Game_scores (game_1 true) true (world_1 "CDiplo 80" true [])
    = (world_1 "CDiplo 80" true [], Err IndexError).
Proof.
  split.
  - apply (Game_scores_no_centre_counts (game_1 false) false
             (world_1 "Draw size" false []) (round_1 "Draw size") 1 GScoringDrawSize);
      reflexivity.
  - apply (Game_scores_no_centre_counts (game_1 true) true
             (world_1 "CDiplo 80" true []) (round_1 "CDiplo 80") 3
             (GScoringCDiplo cdiplo_80)); reflexivity.
Defined.

(** X11.  A scoring system name that is not registered: when the scores are
    computed live, [Game.scores], [Round.scores] and [Tournament.scores]
    raise [InvalidScoringSystem] and write nothing. *)
Theorem scores_invalid_system :
  (∀ (self : Game) force_recalculation w r,
     is_finished self && negb force_recalculation = false →
     get_round (the_round self) w = Ok r →
     (∀ s, s ∈ G_SCORING_SYSTEMS w → gss_name s ≠ scoring_system r) →
     Game_scores self force_recalculation w = (w, Err InvalidScoringSystem)) ∧
  (∀ (self : Round) force_recalculation w t,
     Round_is_finished self w && negb force_recalculation = false →
     get_tournament (r_tournament self) w = Ok t →
     round_scoring_system t ≠ "Best game counts" →
     Round_scores self force_recalculation w = (w, Err InvalidScoringSystem)) ∧
  (∀ (self : Tournament) force_recalculation w,
     Tournament_is_finished self w && negb force_recalculation = false →
     tournament_scoring_system self
       ∉ ["Sum best 2 rounds"; "Sum best 3 rounds"; "Sum best 4 rounds"] →
     Tournament_scores self force_recalculation w = (w, Err InvalidScoringSystem)).
Proof.
  split; [|split].
  - intros self force w r Hlive Hround Hnames. unfold Game_scores. rewrite Hlive.
    erewrite bind_run by by rewrite query_run, Hround.
    erewrite bind_run by apply query_run.
    pose proof (find_scoring_system_from_first gss_name (scoring_system r) 0
                  (G_SCORING_SYSTEMS w)) as Hfind.
    unfold find_scoring_system.
    destruct (find_scoring_system_from _ _ _ _) as [[k s]|]; [|done].
    destruct Hfind as (_ & Hs & Hname & _). exfalso.
    apply (Hnames s); [|done]. by eapply list_elem_of_lookup_2.
  - intros self force w t Hlive Htournament Hname. unfold Round_scores.
    erewrite bind_run by apply query_run. rewrite Hlive.
    erewrite bind_run by by rewrite query_run, Htournament.
    unfold find_scoring_system, R_SCORING_SYSTEMS. cbn.
    by rewrite decide_False by done.
  - intros self force w Hlive Hname. unfold Tournament_scores.
    erewrite bind_run by apply query_run. rewrite Hlive.
    unfold find_scoring_system, T_SCORING_SYSTEMS. cbn.
    rewrite !not_elem_of_cons in Hname. destruct Hname as (? & ? & ? & _).
    by rewrite !decide_False by done.
Qed.

(** X12.  What a save of a finished game leaves stored, in a database that
    keeps its primary keys and [unique_together] constraints.  When
    [Game.save] has returned and the position points it has left in the
    scoring systems are settled (scoring the game once more leaves them as
    they are), a forced recalculation of the game's scores on the database
    as it is left returns, and for every [GamePlayer] of
    the game the stored score, the score that [Game.scores()] reports, and
    the recalculated score of the player's power are the same.  If the
    round is finished, every [RoundPlayer] of the round that the
    recalculated round scores know holds that score; if the tournament is
    finished, every [TournamentPlayer] holds its recalculated score. *)
Theorem Game_save_stores_live_scores (self : Game) (w w1 : World) :
  db_unique w → is_finished self = true → Game_save self w = (w1, Ok ()) →
  G_SCORING_SYSTEMS (Game_scores self true w1).1 = G_SCORING_SYSTEMS w1 →
  (∃ scores,
     Game_scores self true w1 = (w1, Ok scores) ∧
     Game_scores self false w1 = (w1, Ok (Game_stored_scores self w1)) ∧
     ∀ p, p ∈ gameplayer_set (g_id self) w1 →
       scores !! gpl_power p = Some (gpl_score p) ∧
       Game_stored_scores self w1 !! gpl_power p = Some (gpl_score p)) ∧
  ∃ r t,
    get_round (the_round self) w1 = Ok r ∧
    get_tournament (r_tournament r) w1 = Ok t ∧
    (Round_is_finished r w1 = true →
     ∃ scores,
       Round_scores r true w1 = (w1, Ok scores) ∧
       ∀ p s, p ∈ roundplayer_set (r_id r) w1 →
         scores !! rp_player p = Some s → rp_score p = s) ∧
    (Tournament_is_finished t w1 = true →
     ∃ scores,
       Tournament_scores t true w1 = (w1, Ok scores) ∧
       ∀ p, p ∈ tournamentplayer_set (t_id t) w1 →
         scores !! tp_player p = Some (tp_score p)).
Proof.
  intros (Hgp & Hr & Hg & Hcc & Hgi & Hgpl & Hrp & Htp) Hfinished Hrun Hsystems.
  unfold Game_save in Hrun. rewrite Hfinished in Hrun.
  apply bind_Ok in Hrun as (wa & [] & H1900 & Hrun).
  apply bind_Ok in Hrun as (wb & [] & Himage & Hrun).
  apply Game_save_1900_again in H1900 as ([ta Ha] & Hga & _ & _); [|done..].
  apply Game_save_image_again in Himage as ([tb Hb] & _); [|by rewrite Ha].
  apply (Game_save_scores_stored self wb) in Hrun
    as ((scores & Hlive & Hrows) & Hlevels);
    [|rewrite ?Hb; try done; by rewrite Ha..].
  split; [|done].
  exists scores. split; [done|]. split.
  { unfold Game_scores. by rewrite Hfinished. }
  intros p Hp. split; [by apply Hrows|].
  apply (foldl_insert_lookup_agree gpl_power gpl_score); [|done].
  intros y z Hy Hz Hpower.
  apply Hrows in Hy, Hz. rewrite Hpower in Hy. congruence.
Qed.

Lemma Game_save_stores_live_scores_witness :
  let w1 := (Game_save (game_1 true) (world_played "CDiplo 80")).1 in
  ∃ scores,
    Game_scores (game_1 true) true w1 = (w1, Ok scores) ∧
    scores !! Austria = Some (of_int 59 / of_int 2)%Qc ∧
    Game_stored_scores (game_1 true) w1 !! Austria = Some (of_int 59 / of_int 2)%Qc.
Proof.
  lazy zeta.
  destruct (Game_save_stores_live_scores (game_1 true) (world_played "CDiplo 80")
              (Game_save (game_1 true) (world_played "CDiplo 80")).1)
    as ((scores & Hlive & _ & Hrows) & _).
  - unfold db_unique. by_evaluation.
  - reflexivity.
  - vm_compute. reflexivity.
  - by_evaluation.
  - exists scores. split; [done|].
    apply (Hrows (game_player Austria (of_int 59 / of_int 2)%Qc)). by_evaluation.
Defined.

(** X13.  The second loop of [RScoringBest.scores], when every
    [GamePlayer] has a score for its power in the scores of its game
    ([score] names it): the loop returns, each player who played gets the
    best of the scores of the games the player played, and nobody else
    gets a score. *)
Theorem RScoringBest_best_game (game_players : list GamePlayer)
    (game_scores : gmap nat scores_dict) (score : GamePlayer → Qc) :
  (∀ g, g ∈ game_players →
     ∃ s, game_scores !! gpl_game g = Some s ∧ s !! gpl_power g = Some (score g)) →
  ∃ retval,
    for_each (gpl_player <$> game_players)
      (RScoringBest_body game_players game_scores) ∅ = Ok retval ∧
    (∀ p, p ∈ game_players →
       ∃ best, best ∈ game_players ∧ gpl_player best = gpl_player p ∧
               retval !! gpl_player p = Some (score best) ∧
               ∀ g, g ∈ game_players → gpl_player g = gpl_player p →
                    (score g ≤ score best)%Qc) ∧
    (∀ q, q ∉ gpl_player <$> game_players → retval !! q = None).
Proof.
  intros Hscores.
  set (games_of_player := λ p, filter (λ g, gpl_player g = p) game_players).
  set (F := λ p, match py_max (score <$> games_of_player p) with
                 | Ok v => v
                 | Err _ => 0%Qc
                 end).
  assert (∀ p, p ∈ game_players →
            ∃ best, best ∈ game_players ∧ gpl_player best = gpl_player p ∧
                    F (gpl_player p) = score best ∧
                    ∀ g, g ∈ game_players → gpl_player g = gpl_player p →
                         (score g ≤ score best)%Qc) as HF.
  { intros p Hp. unfold F.
    pose proof (py_max_spec (score <$> games_of_player (gpl_player p))) as Hmax.
    destruct (py_max _) as [v|e].
    - destruct Hmax as [Hv Hmax].
      apply list_elem_of_fmap in Hv as (best & -> & Hbest).
      apply list_elem_of_filter in Hbest as [Hplayer Hbest].
      exists best. split; [done|]. split; [done|]. split; [done|].
      intros g Hg Hplayer'. apply Hmax, list_elem_of_fmap_2.
      by apply list_elem_of_filter.
    - destruct Hmax as [_ Hnil]. apply fmap_nil_inv in Hnil.
      assert (p ∈ games_of_player (gpl_player p)) as Hin
        by by apply list_elem_of_filter.
      rewrite Hnil in Hin. by apply elem_of_nil in Hin. }
  rewrite (for_each_first_wins _ F); cycle 1.
  { intros p m (g0 & -> & Hg0)%list_elem_of_fmap. unfold RScoringBest_body.
    case_decide; [done|]. cbv zeta. fold (games_of_player (gpl_player g0)).
    rewrite (map_result_Ok _ score); cycle 1.
    { intros g [_ Hg]%list_elem_of_filter.
      destruct (Hscores g Hg) as (s & Hs & Hpower).
      unfold dict_get. rewrite Hs. cbn [mbind result_bind]. by rewrite Hpower. }
    cbn [mbind result_bind].
    destruct (HF g0 Hg0) as (best & _ & _ & HFbest & _). unfold F in *.
    pose proof (py_max_spec (score <$> games_of_player (gpl_player g0))) as Hmax.
    destruct (py_max _) as [v|e]; [done|].
    destruct Hmax as [_ Hnil]. apply fmap_nil_inv in Hnil.
    assert (g0 ∈ games_of_player (gpl_player g0)) as Hin
      by by apply list_elem_of_filter.
    rewrite Hnil in Hin. by apply elem_of_nil in Hin. }
  eexists. split; [done|]. split.
  - intros p Hp. destruct (HF p Hp) as (best & Hbest & Hplayer & HFbest & Hmax).
    exists best. split; [done|]. split; [done|]. split; [|done].
    rewrite first_wins_lookup, lookup_empty, decide_True, HFbest; [done|].
    by apply list_elem_of_fmap_2.
  - intros q Hq. by rewrite first_wins_lookup, lookup_empty, decide_False.
Qed.

Lemma RScoringBest_best_game_witness :
  let game_players := [
    {| gpl_id := 1; gpl_player := 11; gpl_game := 1; gpl_power := Austria;
       gpl_score := 0%Qc |};
    {| gpl_id := 2; gpl_player := 11; gpl_game := 2; gpl_power := France;
       gpl_score := 0%Qc |}] in
  let game_scores : gmap nat scores_dict :=
    {[ 1%nat := {[ Austria := of_int 13 ]}; 2%nat := {[ France := of_int 40 ]} ]} in
  ∃ retval,
    for_each (gpl_player <$> game_players)
      (RScoringBest_body game_players game_scores) ∅ = Ok retval ∧
    retval !! 11%nat = Some (of_int 40).
Proof.
  lazy zeta.
  edestruct (RScoringBest_best_game
               [{| gpl_id := 1; gpl_player := 11; gpl_game := 1; gpl_power := Austria;
                   gpl_score := 0%Qc |};
                {| gpl_id := 2; gpl_player := 11; gpl_game := 2; gpl_power := France;
                   gpl_score := 0%Qc |}]
               {[ 1%nat := {[ Austria := of_int 13 ]}; 2%nat := {[ France := of_int 40 ]} ]}
               (λ g, if decide (gpl_game g = 1%nat) then of_int 13 else of_int 40))
    as (retval & Hretval & _ & _).
  - intros g Hg. revert g Hg. apply Forall_forall.
    constructor; [|constructor; [|constructor]].
    + exists {[ Austria := of_int 13 ]}. split; by_evaluation.
    + exists {[ France := of_int 40 ]}. split; by_evaluation.
  - exists retval. split; [done|].
    vm_compute in Hretval. injection Hretval as <-. by_evaluation.
Defined.

(** X14.  The second loop of [TScoringSum.scores]: a player who has a
    [RoundPlayer] gets the sum of the best [scored_rounds] of the round
    scores the player has (rounds in which the player has no score are
    skipped): the scores split into those that count and those that are
    dropped, no dropped score is greater than one that counts, and as many
    count as [scored_rounds] allows.  A player with no more scores than
    [scored_rounds] gets the sum of them all. *)
Theorem TScoringSum_best_rounds (self : TScoringSum) (round_players : list RoundPlayer)
    (round_scores : gmap nat scores_dict) (p : RoundPlayer) :
  p ∈ round_players →
  let scores :=
    TScoringSum_player_scores round_scores
      (filter (λ r, rp_player r = rp_player p) round_players) in
  let retval :=
    foldl (λ retval p, TScoringSum_body self round_players round_scores p retval) ∅
      (rp_player <$> round_players) in
  ∃ counted dropped,
    scores ≡ₚ counted ++ dropped ∧
    length counted = (scored_rounds self `min` length scores)%nat ∧
    (∀ c d, c ∈ counted → d ∈ dropped → (d ≤ c)%Qc) ∧
    retval !! rp_player p = Some (sum_points counted) ∧
    ((length scores ≤ scored_rounds self)%nat →
     retval !! rp_player p = Some (sum_points scores)).
Proof.
  intros Hp scores retval.
  destruct (best_scores (scored_rounds self) scores)
    as (Hperm & Hlen & Horder & Hsum).
  set (counted := take (scored_rounds self) (merge_sort Qc_desc scores)) in *.
  set (dropped := drop (scored_rounds self) (merge_sort Qc_desc scores)) in *.
  assert (retval !! rp_player p = Some (sum_points counted)) as Hretval.
  { unfold retval, TScoringSum_body. cbv zeta.
    rewrite (first_wins_lookup
               (λ q, foldl Qcplus 0%Qc
                       (take (scored_rounds self)
                          (merge_sort Qc_desc
                             (TScoringSum_player_scores round_scores
                                (filter (λ r, rp_player r = q) round_players)))))).
    rewrite lookup_empty, decide_True by by apply list_elem_of_fmap_2.
    by rewrite <-Hsum. }
  exists counted, dropped. split; [done|]. split; [done|]. split; [done|].
  split; [done|]. intros Hfew. rewrite Hretval. f_equal.
  assert (dropped = []) as Hnone.
  { unfold dropped. apply drop_ge. by rewrite merge_sort_Permutation. }
  rewrite Hnone, app_nil_r in Hperm. by apply sum_points_perm.
Qed.

Lemma TScoringSum_best_rounds_witness :
  let round_players := [
    {| rp_id := 1; rp_player := 11; rp_the_round := 1; rp_score := 0%Qc |};
    {| rp_id := 2; rp_player := 11; rp_the_round := 2; rp_score := 0%Qc |};
    {| rp_id := 3; rp_player := 11; rp_the_round := 3; rp_score := 0%Qc |}] in
  let round_scores : gmap nat scores_dict :=
    {[ 1%nat := {[ 11%nat := of_int 13 ]}; 2%nat := {[ 11%nat := of_int 40 ]};
       3%nat := {[ 11%nat := of_int 25 ]} ]} in
  foldl (λ retval p,
           TScoringSum_body {| ts_name := "Sum best 2 rounds"; scored_rounds := 2 |}
             round_players round_scores p retval) ∅
    (rp_player <$> round_players) !! 11%nat = Some (of_int 65).
Proof.
  lazy zeta.
  edestruct (TScoringSum_best_rounds
               {| ts_name := "Sum best 2 rounds"; scored_rounds := 2 |}
               [{| rp_id := 1; rp_player := 11; rp_the_round := 1; rp_score := 0%Qc |};
                {| rp_id := 2; rp_player := 11; rp_the_round := 2; rp_score := 0%Qc |};
                {| rp_id := 3; rp_player := 11; rp_the_round := 3; rp_score := 0%Qc |}]
               {[ 1%nat := {[ 11%nat := of_int 13 ]}; 2%nat := {[ 11%nat := of_int 40 ]};
                  3%nat := {[ 11%nat := of_int 25 ]} ]}
               {| rp_id := 1; rp_player := 11; rp_the_round := 1; rp_score := 0%Qc |})
    as (counted & dropped & _ & _ & _ & Hretval & _).
  - by left.
  - by_evaluation.
Defined.

(** X15.  [CentreCount.save], called for a count of a game and round that
    are in the database.  For a new instance whose power, game and year are
    on record already, the call raises [IntegrityError] and changes nothing.
    Otherwise (the instance was loaded from the database, or its key is
    free): if the count is 18 or more, or its year is the final year of the
    round (a final year of 0 counts as none), the game is on record as
    finished when the call is over, also when the call raises; if not, the
    call writes the row and nothing else, and returns. *)
Theorem CentreCount_save_finishes_game (adding : bool) (self : CentreCount)
    (w : World) (g : Game) (r : Round) :
  get_game (cc_game self) w = Ok g →
  get_round (the_round g) w = Ok r →
  let w' := (CentreCount_save Game_save adding self w).1 in
  (adding = true → cc_key self ∈ cc_key <$> centre_counts w →
   CentreCount_save Game_save adding self w = (w, Err IntegrityError)) ∧
  (adding = false ∨ cc_key self ∉ cc_key <$> centre_counts w →
   ((r_final_year r = Some (cc_year self) ∧ cc_year self ≠ 0)
    ∨ WINNING_SCS ≤ cc_count self →
    ∃ g', g' ∈ games w' ∧ g_id g' = cc_game self ∧ is_finished g' = true) ∧
   ((r_final_year r ≠ Some (cc_year self) ∨ cc_year self = 0) →
    cc_count self < WINNING_SCS →
    CentreCount_save Game_save adding self w
      = (set_centre_counts (save_row cc_key self) w, Ok ()))).
Proof.
  intros Hgame Hround w'. split.
  { intros -> Hkey. unfold CentreCount_save.
    erewrite bind_run_err; [done|].
    unfold insert_centre_count, insert_row. by rewrite decide_True. }
  intros Hwrites.
  destruct (get_game_id _ _ _ Hgame) as [Hid _].
  assert (truthy_opt (r_final_year r)
            && bool_decide (r_final_year r = Some (cc_year self)) = true
          ↔ r_final_year r = Some (cc_year self) ∧ cc_year self ≠ 0) as Hfinal.
  { rewrite andb_true_iff, bool_decide_eq_true. split.
    - intros [Htruthy Hyear]. split; [done|]. rewrite Hyear in Htruthy.
      by apply bool_decide_eq_true in Htruthy.
    - intros [Hyear Hne]. split; [|done]. rewrite Hyear.
      by apply bool_decide_eq_true. }
  assert (CentreCount_save Game_save adding self w =
          ((if truthy_opt (r_final_year r)
                && bool_decide (r_final_year r = Some (cc_year self))
            then Game_save (set_is_finished true g) else mret ())
           ≫= λ _, if decide (WINNING_SCS ≤ cc_count self)
                   then Game_save (set_is_finished true g) else mret ())
            (set_centre_counts (save_row cc_key self) w)) as Hrun.
  { assert ((if adding then insert_centre_count self
             else modify (set_centre_counts (save_row cc_key self))) w
            = (set_centre_counts (save_row cc_key self) w, Ok ())) as Hwrite.
    { destruct adding; [|done].
      destruct Hwrites as [|Hfree]; [done|].
      apply insert_centre_count_Ok. split; [done|].
      unfold set_centre_counts. f_equal. unfold save_row. by rewrite decide_False. }
    unfold CentreCount_save.
    rewrite (bind_run _ _ _ _ _ Hwrite).
    erewrite bind_run by (rewrite query_run; exact (f_equal _ Hgame)).
    erewrite bind_run by (rewrite query_run; exact (f_equal _ Hround)).
    done. }
  split.
  - intros Hends. fold (marked_finished (cc_game self) w'). subst w'.
    rewrite Hrun, <-Hid.
    change (g_id g) with (g_id (set_is_finished true g)).
    destruct (truthy_opt (r_final_year r)
              && bool_decide (r_final_year r = Some (cc_year self))) eqn:Hc1.
    + unfold mbind, M_bind.
      pose proof (Game_save_marks_finished (set_is_finished true g)
                    (set_centre_counts (save_row cc_key self) w) eq_refl) as Hmarked.
      destruct (Game_save _ _) as [w1 [[]|e]]; [|done].
      simpl in Hmarked. case_decide; [|done].
      by apply keeps_marked_Game_save.
    + destruct Hends as [Hends|Hsolo]; [by apply Hfinal in Hends|].
      erewrite bind_run by done. rewrite decide_True by done.
      by apply Game_save_marks_finished.
  - intros Hnot_final Hlow. rewrite Hrun.
    destruct (truthy_opt (r_final_year r)
              && bool_decide (r_final_year r = Some (cc_year self))) eqn:Hc1.
    { destruct Hfinal as [Hfinal _]. destruct (Hfinal eq_refl) as [? ?].
      by destruct Hnot_final. }
    erewrite bind_run by done. by rewrite decide_False by lia.
Qed.

(** A new count of 18 for Austria in 1905 finishes game 1; a new count of 17
    is written and nothing else; a second new count for Austria in 1904 is
    refused. *)
Lemma CentreCount_save_finishes_game_witness :
  let w := world_1 "Draw size" false (counts_1900 ++ counts_10_10_6 1904) in
  (∃ g', g' ∈ games (CentreCount_save Game_save true (count_in 1905 Austria 18) w).1
         ∧ g_id g' = 1%nat ∧ is_finished g' = true) ∧
  CentreCount_save Game_save true (count_in 1905 Austria 17) w
    = (set_centre_counts (save_row cc_key (count_in 1905 Austria 17)) w, Ok ()) ∧
  CentreCount_save Game_save true (count_in 1904 Austria 11) w
    = (w, Err IntegrityError).
Proof.
  lazy zeta. split; [|split].
  - destruct (CentreCount_save_finishes_game true (count_in 1905 Austria 18)
                (world_1 "Draw size" false (counts_1900 ++ counts_10_10_6 1904))
                (game_1 false) (round_1 "Draw size") eq_refl eq_refl) as [_ Hwrites].
    destruct Hwrites as [Hsolo _]; [right; by_evaluation|].
    apply Hsolo. right. by_evaluation.
  - destruct (CentreCount_save_finishes_game true (count_in 1905 Austria 17)
                (world_1 "Draw size" false (counts_1900 ++ counts_10_10_6 1904))
                (game_1 false) (round_1 "Draw size") eq_refl eq_refl) as [_ Hwrites].
    destruct Hwrites as [_ Hrow]; [right; by_evaluation|].
    apply Hrow; [by left|by_evaluation].
  - destruct (CentreCount_save_finishes_game true (count_in 1904 Austria 11)
                (world_1 "Draw size" false (counts_1900 ++ counts_10_10_6 1904))
                (game_1 false) (round_1 "Draw size") eq_refl eq_refl) as [Hrefused _].
    apply Hrefused; [done|by_evaluation].
Defined.

(** X16.  What [DrawProposal.clean] accepts, for a proposal that is not in
    the database yet.  It returns exactly when the powers that are set come
    first among [power_1] to [power_7], no power is set twice, the game,
    its round and a final year on record exist, the game has no passed
    proposal on record if the proposal is passed, and, if the round is
    DIAS, no power has a positive count in the final year.  The powers of
    the proposal play no part in the last condition: the membership test of
    the last loop is false for every power, so that an eliminated power in
    the proposal is not refused. *)
Theorem DrawProposal_clean_accepts (self : DrawProposal) (w : World) :
  let values := DrawProposal_power_values self in
  DrawProposal_clean self w = Ok () ↔
    (∃ n, Forall (λ v, pk_truthy v = true) (take n values)
          ∧ Forall (λ v, pk_truthy v = false) (drop n values)) ∧
    NoDup (truthy_values values) ∧
    ∃ g r year,
      get_game (dp_game self) w = Ok g ∧
      get_round (the_round g) w = Ok r ∧
      Game_final_year g w = Ok year ∧
      (passed self = true →
       filter (λ d, passed d = true) (drawproposal_set (dp_game self) w) = []) ∧
      (dias r = true →
       ∀ sc, sc ∈ centrecount_set (dp_game self) w → cc_year sc = year →
             cc_count sc ≤ 0).
Proof.
  intros values. split; [apply DrawProposal_clean_Ok|].
  intros (Hpacked & Hnd & g & r & year & Hg & Hr & Hyear & Hpassed & Hdias).
  unfold DrawProposal_clean. fold values.
  apply (no_skipping_loop_spec values false) in Hpacked.
  rewrite Hpacked. cbn [mbind result_bind].
  destruct (unique_powers_loop_spec values ∅ w) as [_ Hunique].
  destruct Hunique as [powers ->].
  { split; [done|]. intros v _. apply not_elem_of_empty. }
  cbn [mbind result_bind]. rewrite Hg. cbn [mbind result_bind].
  destruct (get_game_id _ _ _ Hg) as [-> _].
  assert ((if passed self
           then match qs_get (filter (λ d, passed d = true)
                                (drawproposal_set (dp_game self) w)) with
                | Ok _ => Err ValidationError
                | Err DoesNotExist => Ok ()
                | Err e => Err e
                end
           else Ok ()) = Ok ()) as ->.
  { destruct (passed self); [|done]. by rewrite Hpassed. }
  cbn [mbind result_bind]. unfold Game_is_dias. rewrite Hr. cbn [mbind result_bind].
  rewrite Hyear. cbn [mbind result_bind].
  by apply (proj2 (dias_loop_spec _ powers _ _)).
Qed.

(** X17.  In a DIAS round, [DrawProposal.clean] raises for every proposal,
    whatever powers it names, as long as some power has a positive count in
    the final year of the game: the powers alive are looked up in a set of
    primary keys, where no [GreatPower] is found, so each of them is taken
    for missing, also when the proposal names them all. *)
Theorem DrawProposal_clean_dias_raises (self : DrawProposal) (w : World)
    (g : Game) (r : Round) (year : Z) (sc : CentreCount) :
  get_game (dp_game self) w = Ok g →
  get_round (the_round g) w = Ok r →
  dias r = true →
  Game_final_year g w = Ok year →
  sc ∈ centrecount_set (dp_game self) w → cc_year sc = year → 0 < cc_count sc →
  ∃ e, DrawProposal_clean self w = Err e.
Proof.
  intros Hg Hr Hdias Hyear Hsc Hsc_year Halive.
  destruct (DrawProposal_clean self w) as [[]|e] eqn:Hclean; [|by exists e].
  apply DrawProposal_clean_Ok in Hclean
    as (_ & _ & g' & r' & year' & Hg' & Hr' & Hyear' & _ & Hdead).
  rewrite Hg in Hg'. injection Hg' as <-.
  rewrite Hr in Hr'. injection Hr' as <-.
  rewrite Hyear in Hyear'. injection Hyear' as <-.
  specialize (Hdead Hdias sc Hsc Hsc_year). lia.
Qed.

Lemma DrawProposal_clean_dias_raises_witness :
  ∃ e, DrawProposal_clean (draw_of_survivors true) world_dias = Err e.
Proof.
  apply (DrawProposal_clean_dias_raises (draw_of_survivors true) world_dias
           (game_1 false)
           {| r_id := 1; r_tournament := 1; scoring_system := "Draw size";
              dias := true; r_final_year := None |}
           1905 (count_in 1905 Austria 10)).
  - reflexivity.
  - reflexivity.
  - reflexivity.
  - vm_compute. reflexivity.
  - by_evaluation.
  - reflexivity.
  - by_evaluation.
Defined.

(** X18.  A passed proposal that [clean] accepted, saved: whatever becomes
    of the save of the game that follows, the proposal is on record, it is
    the draw that [Game.passed_draw] returns from then on, and the game is
    on record as finished. *)
Theorem DrawProposal_save_passed (self : DrawProposal) (w : World) :
  DrawProposal_clean self w = Ok () →
  passed self = true →
  let w' := (DrawProposal_save self w).1 in
  ∃ g,
    get_game (dp_game self) w = Ok g ∧
    self ∈ draw_proposals w' ∧
    Game_passed_draw g w' = Ok (Some self) ∧
    ∃ g', g' ∈ games w' ∧ g_id g' = dp_game self ∧ is_finished g' = true.
Proof.
  intros Hclean Hpassed w'.
  apply DrawProposal_clean_Ok in Hclean
    as (_ & _ & g & _ & _ & Hg & _ & _ & Hnone & _).
  specialize (Hnone Hpassed).
  destruct (get_game_id _ _ _ Hg) as [Hgid _].
  set (w0 := set_draw_proposals (λ table, table ++ [self]) w).
  assert (w' = (Game_save (set_is_finished true g) w0).1) as Hw'.
  { subst w'. unfold DrawProposal_save. erewrite bind_run by done.
    rewrite Hpassed. erewrite bind_run; [done|]. rewrite query_run. by f_equal. }
  assert (draw_proposals w' = draw_proposals w ++ [self]) as Hdraws.
  { rewrite Hw'.
    by apply (keeps_Game_save (λ v, draw_proposals v = draw_proposals w ++ [self])). }
  exists g. split; [done|]. split; [|split].
  - rewrite Hdraws. apply elem_of_app. right. by left.
  - unfold Game_passed_draw, drawproposal_set.
    rewrite Hdraws, Hgid, !filter_app. fold (drawproposal_set (dp_game self) w).
    rewrite Hnone.
    assert (filter (λ d, dp_game d = dp_game self) [self] = [self]) as ->.
    { rewrite filter_cons, decide_True by done. done. }
    assert (filter (λ d, passed d = true) [self] = [self]) as ->.
    { rewrite filter_cons, decide_True by done. done. }
    done.
  - rewrite Hw', <-Hgid.
    by apply (Game_save_marks_finished (set_is_finished true g)).
Qed.

Lemma DrawProposal_save_passed_witness :
  let w := world_played "Draw size" in
  let w' := (DrawProposal_save (draw_of_survivors true) w).1 in
  DrawProposal_clean (draw_of_survivors true) w = Ok () ∧
  Game_passed_draw (game_1 false) w' = Ok (Some (draw_of_survivors true)) ∧
  games w' = [game_1 true].
Proof.
  lazy zeta.
  assert (DrawProposal_clean (draw_of_survivors true) (world_played "Draw size")
          = Ok ()) as Hclean by by_evaluation.
  destruct (DrawProposal_save_passed (draw_of_survivors true)
              (world_played "Draw size") Hclean eq_refl)
    as (g & Hg & _ & Hdraw & _).
  injection Hg as <-.
  split; [done|]. split; [done|]. by_evaluation.
Defined.

(** X19.  What [Game.save] leaves alone, whether it returns or raises: the
    great powers, the tournaments, the rounds and the draw proposals; and,
    when the game saved is not finished, also every stored [GamePlayer],
    [RoundPlayer] and [TournamentPlayer] score and the scoring systems. *)
Theorem Game_save_leaves_alone (self : Game) (w : World) :
  let w' := (Game_save self w).1 in
  great_powers w' = great_powers w ∧ tournaments w' = tournaments w ∧
  rounds w' = rounds w ∧ draw_proposals w' = draw_proposals w ∧
  (is_finished self = false →
   game_players w' = game_players w ∧ round_players w' = round_players w ∧
   tournament_players w' = tournament_players w ∧
   G_SCORING_SYSTEMS w' = G_SCORING_SYSTEMS w).
Proof.
  intros w'. split; [|split; [|split; [|split]]].
  - by apply (keeps_Game_save (λ v, great_powers v = great_powers w)).
  - by apply (keeps_Game_save (λ v, tournaments v = tournaments w)).
  - by apply (keeps_Game_save (λ v, rounds v = rounds w)).
  - by apply (keeps_Game_save (λ v, draw_proposals v = draw_proposals w)).
  - intros Hself.
    by apply (keeps_Game_save_unfinished
                (λ v, game_players v = game_players w ∧
                      round_players v = round_players w ∧
                      tournament_players v = tournament_players w ∧
                      G_SCORING_SYSTEMS v = G_SCORING_SYSTEMS w)).
Qed.

(** X20.  "Draw size" when a draw passed and no centre count on record
    reaches 18: a power of the final year that is in the draw scores 100
    divided by the size of the draw; a power outside the draw scores 100
    divided by the number of powers alive if it is alive, and 0 if it is
    eliminated.  The scores add up to as many shares of the draw as the
    draw has powers in the final year, plus one share of the split between
    the survivors for each survivor outside the draw. *)
Theorem GScoringDrawSize_with_draw (w : World) (self : Game) (r : Round)
    (d : DrawProposal) (ps : list GreatPower) (final_scs : list CentreCount) :
  let ledger := centrecount_set (g_id self) w in
  let survivors := length (filter (λ sc, 0 < cc_count sc) final_scs) in
  let in_draw := λ sc, cc_power sc ∈ gp_id <$> ps in
  let alive_outside := λ sc, ¬ in_draw sc ∧ 0 < cc_count sc in
  NoDup (cc_key <$> ledger) →
  get_game (g_id self) w = Ok self →
  get_round (the_round self) w = Ok r →
  Game_passed_draw self w = Ok (Some d) →
  DrawProposal_powers d w = Ok ps →
  (∀ sc, sc ∈ ledger → cc_count sc < WINNING_SCS) →
  _final_year_scs ledger = Ok final_scs →
  ∃ scores,
    GScoringDrawSize_scores ledger w = Ok scores ∧
    (∀ sc, sc ∈ final_scs →
       scores !! cc_power sc =
         Some (if decide (in_draw sc)
               then (of_int 100 / of_int (Z.of_nat (length ps)))%Qc
               else if decide (0 < cc_count sc)
                    then (of_int 100 / of_int (Z.of_nat survivors))%Qc
                    else 0%Qc)) ∧
    (∀ p, p ∉ cc_power <$> final_scs → scores !! p = None) ∧
    dict_sum scores =
      (of_int (Z.of_nat (length (filter in_draw final_scs)))
         * (of_int 100 / of_int (Z.of_nat (length ps)))
       + of_int (Z.of_nat (length (filter alive_outside final_scs)))
         * (of_int 100 / of_int (Z.of_nat survivors)))%Qc.
Proof.
  intros ledger survivors in_draw alive_outside Hnd Hgame Hround Hdraw Hps Hlow Hfinal.
  assert (∀ sc, sc ∈ ledger → cc_game sc = g_id self) as Hg.
  { by intros sc [? _]%list_elem_of_filter. }
  pose proof (_final_year_scs_powers _ _ _ Hnd Hg Hfinal) as Hpowers.
  set (f := λ sc, if decide (in_draw sc)
                  then (of_int 100 / of_int (Z.of_nat (length ps)))%Qc
                  else if decide (0 < cc_count sc)
                       then (of_int 100 / of_int (Z.of_nat survivors))%Qc
                       else 0%Qc).
  set (scores := foldl (λ (m : scores_dict) sc, <[cc_power sc := f sc]> m) ∅ final_scs).
  assert (GScoringDrawSize_scores ledger w = Ok scores) as Hscores.
  { unfold GScoringDrawSize_scores, _the_game.
    destruct ledger as [|sc0 rest] eqn:Hledger; [done|]. cbn [head].
    rewrite (Hg sc0) by by left. rewrite Hgame. cbn [mbind result_bind].
    unfold Game_is_dias. rewrite Hround. cbn [mbind result_bind].
    rewrite Hdraw. cbn [mbind result_bind].
    unfold _survivor_count. rewrite Hfinal. cbn [mbind result_bind].
    destruct (Game_soloer_cases self w) as (top & Htop & _ & ->).
    { fold ledger. by rewrite Hledger. }
    fold ledger in Htop. rewrite Hledger in Htop.
    rewrite decide_False by (specialize (Hlow top Htop); lia).
    cbn [mbind result_bind].
    apply for_each_Ok_foldl. intros sc m Hsc.
    unfold GScoringDrawSize_body.
    rewrite decide_False; cycle 1.
    { apply (final_year_scs_elem_of _ _ _ Hfinal) in Hsc.
      specialize (Hlow sc Hsc). lia. }
    rewrite Hps. cbn [mbind result_bind]. unfold f, in_draw. fold survivors.
    destruct (decide (cc_power sc ∈ gp_id <$> ps)) as [Hin|Hin].
    - rewrite bool_decide_eq_true_2 by done.
      unfold DrawProposal_draw_size. rewrite Hps. cbn [mbind result_bind].
      rewrite py_div_ne_0; cycle 1.
      { apply of_int_nat_ne_0. intros Hzero. apply length_zero_iff_nil in Hzero.
        rewrite Hzero in Hin. by apply elem_of_nil in Hin. }
      cbn [mbind result_bind]. by rewrite insert_insert_eq.
    - rewrite bool_decide_eq_false_2 by done.
      case_decide as Halive; [|done].
      rewrite py_div_ne_0; cycle 1.
      { apply of_int_nat_ne_0. unfold survivors. intros Hzero.
        apply length_zero_iff_nil in Hzero.
        assert (sc ∈ filter (λ sc, 0 < cc_count sc) final_scs) as Hin'
          by by apply list_elem_of_filter.
        rewrite Hzero in Hin'. by apply elem_of_nil in Hin'. }
      cbn [mbind result_bind]. by rewrite insert_insert_eq. }
  exists scores. split; [exact Hscores|].
  assert (∀ sc, sc ∈ final_scs → scores !! cc_power sc = Some (f sc)) as Hin.
  { intros sc Hsc. by apply (foldl_insert_lookup cc_power f). }
  assert (∀ p, p ∉ cc_power <$> final_scs → scores !! p = None) as Hout.
  { intros p Hp. unfold scores. by rewrite (foldl_insert_lookup_ne cc_power f). }
  split; [done|]. split; [done|].
  rewrite (dict_of_lookups cc_power f final_scs _ Hpowers Hin Hout).
  rewrite dict_sum_list_to_map by done. unfold f.
  apply (sum_points_share2 in_draw (λ sc, 0 < cc_count sc)).
Qed.

Lemma GScoringDrawSize_with_draw_witness :
  ∃ scores,
    GScoringDrawSize_scores (centrecount_set 1 world_draw) world_draw = Ok scores ∧
    scores !! Austria = Some (of_int 100 / of_int 2)%Qc ∧
    scores !! France = Some (of_int 100 / of_int 3)%Qc ∧
    dict_sum scores
      = (of_int 2 * (of_int 100 / of_int 2) + of_int 1 * (of_int 100 / of_int 3))%Qc.
Proof.
  destruct (GScoringDrawSize_with_draw world_draw (game_1 true) (round_1 "Draw size")
              (draw_Austria_England true)
              [{| gp_id := Austria; starting_centres := 3 |};
               {| gp_id := England; starting_centres := 3 |}]
              (order_by_desc cc_count (counts_10_10_14 1905)))
    as (scores & Hscores & Hin & _ & Hsum).
  - by_evaluation.
  - by_evaluation.
  - by_evaluation.
  - by_evaluation.
  - by_evaluation.
  - intros sc Hsc. revert sc Hsc. apply Forall_forall. by_evaluation.
  - vm_compute. reflexivity.
  - exists scores. split; [done|]. split; [|split].
    + apply (Hin (count_in 1905 Austria 10)). by_evaluation.
    + apply (Hin (count_in 1905 France 14)). by_evaluation.
    + rewrite Hsum. by_evaluation.
Defined.

(** X21.  [Game.soloer] looks at the whole ledger of the game, not at the
    final year.  For a game that has centre counts on record and in which
    every power that has a count of 18 or more on record has exactly one
    [GamePlayer]: [soloer] returns a [GamePlayer] exactly when some count on
    record, of whatever year, is at least 18 (and returns [None] otherwise).
    The draw-size scorer's [soloed] is that test: if the game and its round
    are in the database and at most one draw passed, then whenever a count
    of 18 or more is on record while every count of the final year is below
    18, the scorer gives every power of the final year 0. *)
Theorem Game_soloer_any_year (w : World) (self : Game) :
  let ledger := centrecount_set (g_id self) w in
  ledger ≠ [] →
  (∀ sc, sc ∈ ledger → WINNING_SCS ≤ cc_count sc →
     ∃ gp, filter (λ p, gpl_power p = cc_power sc) (gameplayer_set (g_id self) w) = [gp]) →
  ((∃ gp, Game_soloer self w = Ok (Some gp)) ↔
   (∃ sc, sc ∈ ledger ∧ WINNING_SCS ≤ cc_count sc)) ∧
  ((∀ sc, sc ∈ ledger → cc_count sc < WINNING_SCS) → Game_soloer self w = Ok None) ∧
  (∀ r draw final_scs,
     get_game (g_id self) w = Ok self →
     get_round (the_round self) w = Ok r →
     Game_passed_draw self w = Ok draw →
     _final_year_scs ledger = Ok final_scs →
     (∃ sc, sc ∈ ledger ∧ WINNING_SCS ≤ cc_count sc) →
     Forall (λ sc, cc_count sc < WINNING_SCS) final_scs →
     ∃ scores,
       GScoringDrawSize_scores ledger w = Ok scores ∧
       ∀ sc, sc ∈ final_scs → scores !! cc_power sc = Some 0%Qc).
Proof.
  intros ledger Hne Hplayers.
  destruct (Game_soloer_cases self w Hne) as (top & Htop & Hmax & Hsoloer).
  fold ledger in Htop, Hmax.
  assert ((∃ sc, sc ∈ ledger ∧ WINNING_SCS ≤ cc_count sc) →
          ∃ gp, Game_soloer self w = Ok (Some gp)) as Hsolo.
  { intros (sc & Hsc & Hwin). rewrite Hsoloer.
    rewrite decide_True by (specialize (Hmax sc Hsc); lia).
    destruct (Hplayers top Htop) as [gp ->]; [specialize (Hmax sc Hsc); lia|].
    by exists gp. }
  split; [split; [|done]|split].
  - intros [gp Hgp]. rewrite Hsoloer in Hgp.
    case_decide; [|done]. by exists top.
  - intros Hlow. rewrite Hsoloer.
    rewrite decide_False; [done|]. specialize (Hlow top Htop). lia.
  - intros r draw final_scs Hg Hr Hdraw Hfinal Hwin Hlow.
    destruct (Hsolo Hwin) as [gp Hgp].
    unfold GScoringDrawSize_scores, _the_game.
    destruct ledger as [|sc0 rest] eqn:Hledger; [done|]. cbn [head].
    assert (cc_game sc0 = g_id self) as ->.
    { assert (sc0 ∈ centrecount_set (g_id self) w) as Hin
        by (fold ledger; rewrite Hledger; by left).
      by apply list_elem_of_filter in Hin as [? _]. }
    rewrite Hg. cbn [mbind result_bind].
    unfold Game_is_dias. rewrite Hr. cbn [mbind result_bind].
    rewrite Hdraw. cbn [mbind result_bind].
    unfold _survivor_count. rewrite Hfinal. cbn [mbind result_bind].
    rewrite Hgp. cbn [mbind result_bind].
    rewrite GScoringDrawSize_soloed by done.
    eexists. split; [done|]. intros sc Hsc.
    apply foldl_insert_const_lookup. by left.
Qed.

Lemma Game_soloer_any_year_witness :
  let w := world_solo_then_17 seven_game_players in
  (∃ gp, Game_soloer (game_1 true) w = Ok (Some gp)) ∧
  ∃ scores,
    GScoringDrawSize_scores (centrecount_set 1 w) w = Ok scores ∧
    scores !! Austria = Some 0%Qc ∧ scores !! England = Some 0%Qc.
Proof.
  intros w.
  destruct (Game_soloer_any_year w (game_1 true)) as (Hiff & _ & Hscorer).
  - done.
  - intros sc Hsc Hwin.
    assert (sc = count_in 1905 Austria 18) as ->.
    { revert sc Hsc Hwin.
      apply (Forall_forall (λ sc, WINNING_SCS ≤ cc_count sc → sc = count_in 1905 Austria 18)).
      by_evaluation. }
    by eexists.
  - assert (∃ sc, sc ∈ centrecount_set (g_id (game_1 true)) w
                  ∧ WINNING_SCS ≤ cc_count sc) as Hwin.
    { exists (count_in 1905 Austria 18). split; by_evaluation. }
    split; [by apply Hiff|].
    destruct (Hscorer (round_1 "Draw size") None (counts_17 1906))
      as (scores & Hscores & Hzero); [reflexivity..| done | by_evaluation |].
    exists scores. split; [done|]. split.
    + apply (Hzero (count_in 1906 Austria 17)). by_evaluation.
    + apply (Hzero (count_in 1906 England 7)). by_evaluation.
Defined.

(** X22.  When [Game.save] returns, the ledger of the game holds, for every
    great power, the centre count of 1900 that equals the power's starting
    centres; so, there being a great power, [years_played] is not empty and
    [final_year] returns one of its years.  Great powers have different
    primary keys. *)
Theorem Game_save_creates_1900 (self : Game) (w w' : World) :
  NoDup (gp_id <$> great_powers w) →
  Game_save self w = (w', Ok ()) →
  (∀ power, power ∈ great_powers w →
     {| cc_power := gp_id power; cc_game := g_id self; cc_year := 1900;
        cc_count := starting_centres power |} ∈ centrecount_set (g_id self) w') ∧
  (great_powers w ≠ [] →
   Game_years_played self w' ≠ [] ∧
   ∃ y, Game_final_year self w' = Ok y ∧ y ∈ Game_years_played self w').
Proof.
  intros Hnd Hrun.
  assert (∀ power, power ∈ great_powers w →
            start_count self power ∈ centrecount_set (g_id self) w') as Hrows.
  { intros power Hpower.
    pose proof (Game_save_1900_returned self w) as H1900.
    rewrite Hrun in H1900. specialize (H1900 eq_refl).
    destruct (Game_save_1900 self w) as [w1 r] eqn:Hrun1. simpl in H1900. subst r.
    pose proof Hrun1 as (table & -> & Hstarts & _)%Game_save_1900_Ok; [|done].
    apply list_elem_of_filter. split; [done|].
    replace w' with (Game_save self w).1 by by rewrite Hrun.
    apply (Game_save_after_1900 (λ w, _ ∈ centre_counts w)); try done.
    rewrite Hrun1. simpl. by apply Hstarts. }
  split; [done|]. intros Hne.
  destruct (great_powers w) as [|power powers]; [done|].
  assert (Game_years_played self w' ≠ []) as Hyears.
  { intros Hnil.
    assert (cc_year (start_count self power) ∈ Game_years_played self w') as Hin.
    { apply Game_years_played_elem_of. exists (start_count self power).
      split; [|done]. apply Hrows. by left. }
    rewrite Hnil in Hin. by apply elem_of_nil in Hin. }
  split; [done|]. by apply Game_final_year_Some.
Qed.

(** Game 1 saved for the first time, with no centre count on record. *)
Lemma Game_save_creates_1900_witness :
  let w' := (Game_save (game_1 false) (world_1 "Draw size" false [])).1 in
  {| cc_power := Russia; cc_game := 1; cc_year := 1900; cc_count := 4 |}
    ∈ centrecount_set 1 w' ∧
  Game_years_played (game_1 false) w' ≠ [].
Proof.
  intros w'.
  destruct (Game_save_creates_1900 (game_1 false) (world_1 "Draw size" false []) w')
    as (Hrows & Hyears).
  - by_evaluation.
  - vm_compute. reflexivity.
  - split.
    + apply (Hrows {| gp_id := Russia; starting_centres := 4 |}). by_evaluation.
    + by apply Hyears.
Defined.

